(** * SillyTavern-Timelines: the interaction core of [index.js]

    A shallow embedding of the extension's entry script.  The module-level
    variables of the script ([currentlyHighlighted], [lastContext],
    [layout], [lastTimelineData]), the settings object
    [extension_settings.timeline] and the parts of the page the script reads
    and writes are the fields of one [State] record that every handler
    threads.  Calls into the collaborators the script imports
    ([tl_utils.js], [tl_style.js], [tl_graph.js], [tl_node_data.js], the
    console, the host's settings saver) are appended to a call log, in the
    order the script issues them.  A handler that can raise (a property read
    on [null] or [undefined], a rejected promise) runs in the monad [M],
    which keeps the writes made before the throw.

    Embedded: [defaultSettings], [loadSettings], [onInputChange] and the
    listeners of the settings controls, [nodeClickHandler], [createLegend],
    [createLegendItem] and its three listeners, [initializeCytoscape],
    [setupEventHandlers] (what it registers, the [ready] callback it runs,
    and its [tap], search, menu and tooltip listeners),
    [renderCytoscapeDiagram] and
    [updateTimelineDataIfNeeded], the entries of the context menu and the
    [render] listener.  Left out: the asset loader (lines 16-55), the
    options of [makeTippy] and [onTimelineButtonClick], whose page is
    whatever [handleModalDisplay] makes of it. *)

From Stdlib Require Import ZArith Ascii String.
From stdpp Require Import base option list gmap strings pretty.

Local Open Scope Z_scope.
Local Open Scope string_scope.

(** ** JavaScript values *)

Module JS.

(** The primitive values that reach the script: settings values, control
    values, identifiers.  Numbers are the integers; the script does no
    arithmetic of its own.  A string is the sequence of its UTF-16 code
    units; the embedding has the code units below 256 (Basic Latin and
    Latin-1 Supplement), one [ascii] each, so that the length of a string
    is its [length] and a letter beyond ASCII is written by its code. *)
Inductive JVal : Type :=
| JUndefined
| JNull
| JBool (b : bool)
| JNum (z : Z)
| JStr (s : string).

#[global] Instance JVal_eq_dec : EqDecision JVal.
Proof. solve_decision. Defined.

(** [ToBoolean]. *)
Definition truthy (v : JVal) : bool :=
  match v with
  | JUndefined | JNull => false
  | JBool b => b
  | JNum z => negb (Z.eqb z 0)
  | JStr s => negb (String.eqb s EmptyString)
  end.

(** [a === b] on primitives. *)
Definition strict_eq (a b : JVal) : bool := bool_decide (a = b).

(** [ToString]. *)
Definition to_string (v : JVal) : string :=
  match v with
  | JUndefined => "undefined"
  | JNull => "null"
  | JBool true => "true"
  | JBool false => "false"
  | JNum z => pretty z
  | JStr s => s
  end.

(** A property of a record that holds a string or is [undefined]. *)
Definition truthy_str (o : option string) : bool :=
  match o with
  | Some s => negb (String.eqb s EmptyString)
  | None => false
  end.

(** [String.prototype.toLowerCase].  Among the code units below 256 the
    capital letters are A-Z (65-90), the letters from A with grave to O
    with diaeresis (192-214) and from O with stroke to thorn (216-222);
    the small letter of each lies 32 above.  Every other code unit,
    the multiplication sign (215) and the sharp s (223) among them, is
    mapped to itself. *)
Definition lower_unit (c : ascii) : ascii :=
  let n := N_of_ascii c in
  if ((N.leb 65 n && N.leb n 90)
      || (N.leb 192 n && N.leb n 214)
      || (N.leb 216 n && N.leb n 222))%bool
  then ascii_of_N (n + 32)%N else c.

Fixpoint toLowerCase (s : string) : string :=
  match s with
  | EmptyString => EmptyString
  | String c r => String (lower_unit c) (toLowerCase r)
  end.

(** [s.includes(q)]: [q] occurs in [s] as a contiguous run. *)
Fixpoint includes (s q : string) : bool :=
  String.prefix q s ||
  match s with
  | EmptyString => false
  | String _ r => includes r q
  end.

(** [/\s/], and the white space [ToNumber] strips: among the code units
    below 256, the space, the controls from tab to carriage return, and
    the no-break space. *)
Definition is_space (c : ascii) : bool :=
  let n := N_of_ascii c in
  (N.eqb n 32 || (N.leb 9 n && N.leb n 13) || N.eqb n 160)%bool.

(** *** [ToNumber], [isNaN] and [Math.round]

    What a value converts to, as far as the script looks at numbers: not
    a number, an infinity, or the decimal [mantissa * 10^exponent] with
    its sign.  The decimal is kept exactly; JavaScript rounds it to a
    double, which gives the same integer below for every literal of at
    most 15 significant digits. *)
Inductive Number : Type :=
| NaN
| Infinite (negative : bool)
| Decimal (negative : bool) (mantissa : N) (exponent : Z).

Definition code_in (lo hi : N) (c : ascii) : bool :=
  (N.leb lo (N_of_ascii c) && N.leb (N_of_ascii c) hi)%bool.

Definition is_code (n : N) (c : ascii) : bool := N.eqb (N_of_ascii c) n.

Definition is_digit (c : ascii) : bool := code_in 48 57 c.

(** The value of a digit in a radix: [0-9], [a-z] and [A-Z] count
    upwards; [None] when the unit is no digit of the radix. *)
Definition radix_digit (radix : N) (c : ascii) : option N :=
  let n := N_of_ascii c in
  let v := if is_digit c then Some (n - 48)%N
           else if code_in 97 122 c then Some (n - 87)%N
           else if code_in 65 90 c then Some (n - 55)%N
           else None in
  v ≫= λ d, if N.ltb d radix then Some d else None.

Fixpoint radix_value (radix : N) (l : list ascii) (acc : N) : option N :=
  match l with
  | [] => Some acc
  | c :: r =>
      d ← radix_digit radix c; radix_value radix r (acc * radix + d)%N
  end.

(** The longest run of decimal digits at the front, and the rest. *)
Fixpoint span_digits (l : list ascii) : list ascii * list ascii :=
  match l with
  | c :: r =>
      if is_digit c then let '(ds, rest) := span_digits r in (c :: ds, rest)
      else ([], l)
  | [] => ([], [])
  end.

Fixpoint drop_spaces (l : list ascii) : list ascii :=
  match l with
  | c :: r => if is_space c then drop_spaces r else l
  | [] => []
  end.

Definition trim (l : list ascii) : list ascii :=
  rev (drop_spaces (rev (drop_spaces l))).

(** [0x], [0o] or [0b] and at least one digit of the radix. *)
Definition non_decimal_literal (l : list ascii) : option N :=
  match l with
  | zero :: letter :: d :: ds =>
      if is_code 48 zero then
        let radix :=
          if (is_code 120 letter || is_code 88 letter)%bool then Some 16%N
          else if (is_code 111 letter || is_code 79 letter)%bool then Some 8%N
          else if (is_code 98 letter || is_code 66 letter)%bool then Some 2%N
          else None in
        radix ≫= λ r, radix_value r (d :: ds) 0
      else None
  | _ => None
  end.

(** The [ExponentPart] that may end a decimal literal: nothing, or [e] or
    [E], a sign or none, and at least one digit. *)
Definition exponent_part (l : list ascii) : option Z :=
  match l with
  | [] => Some 0
  | e :: r =>
      if (is_code 101 e || is_code 69 e)%bool then
        let '(negative, ds) :=
          match r with
          | sign :: r' =>
              if is_code 43 sign then (false, r')
              else if is_code 45 sign then (true, r')
              else (false, r)
          | [] => (false, [])
          end in
        match ds with
        | [] => None
        | _ :: _ =>
            v ← radix_value 10 ds 0;
            Some (if negative then - Z.of_N v else Z.of_N v)
        end
      else None
  end.

(** [StrUnsignedDecimalLiteral] but for [Infinity]: digits, a point and
    digits with at least one digit on a side of the point, or digits
    alone, and an exponent part. *)
Definition unsigned_decimal (l : list ascii) : option (N * Z) :=
  let '(int_part, rest) := span_digits l in
  let '(frac_part, rest) :=
    match rest with
    | p :: r => if is_code 46 p then span_digits r else ([], rest)
    | [] => ([], [])
    end in
  match (int_part ++ frac_part)%list with
  | [] => None
  | ds =>
      m ← radix_value 10 ds 0;
      e ← exponent_part rest;
      Some (m, e - Z.of_nat (length frac_part))
  end.

(** [StringToNumber]. *)
Definition string_to_number (s : string) : Number :=
  match trim (list_ascii_of_string s) with
  | [] => Decimal false 0 0
  | l =>
      match non_decimal_literal l with
      | Some n => Decimal false n 0
      | None =>
          let '(negative, body) :=
            match l with
            | sign :: r =>
                if is_code 43 sign then (false, r)
                else if is_code 45 sign then (true, r)
                else (false, l)
            | [] => (false, [])
            end in
          if String.eqb (string_of_list_ascii body) "Infinity"
          then Infinite negative
          else match unsigned_decimal body with
               | Some (m, e) => Decimal negative m e
               | None => NaN
               end
      end
  end.

(** [ToNumber]. *)
Definition to_number (v : JVal) : Number :=
  match v with
  | JUndefined => NaN
  | JNull => Decimal false 0 0
  | JBool b => Decimal false (if b then 1 else 0) 0
  | JNum z => Decimal (Z.ltb z 0) (Z.abs_N z) 0
  | JStr s => string_to_number s
  end.

(** The global [isNaN(v)]. *)
Definition global_isNaN (v : JVal) : bool :=
  match to_number v with NaN => true | _ => false end.

(** [Math.round] of a decimal: the nearest integer, a tie going up. *)
Definition round_decimal (negative : bool) (m : N) (e : Z) : Z :=
  let signed := if negative then - Z.of_N m else Z.of_N m in
  if Z.leb 0 e then signed * 10 ^ e
  else let q := 10 ^ (- e) in (2 * signed + q) / (2 * q).

(** [Math.round(v)] as the label shows it: the integer, or the text of
    what is not one. *)
Definition global_Math_round (v : JVal) : JVal :=
  match to_number v with
  | NaN => JStr "NaN"
  | Infinite false => JStr "Infinity"
  | Infinite true => JStr "-Infinity"
  | Decimal negative m e => JNum (round_decimal negative m e)
  end.

End JS.
Import JS.

(** ** Calls into collaborators *)

Inductive Call : Type :=
| console_log (msg : string)
| console_error (msg : string)
| navigateToMessage (chatSessionName : option string) (depth : Z)
| closeModal
| closeOpenDrawers
| highlightElements (selector : string)
| restoreElements
| highlightNodesByQuery (query : string)
| saveSettingsDebounced
| set_label_text (id : string) (text : JVal)
| await_fetchData (avatar : JVal)
| await_prepareData (isGroup : bool)
| call_setupStylesAndData
| cytoscape_use (plugin : string)
| cytoscape_new
| addEventListener (id event : string)
| cy_contextMenus (menuItemIds : list string)
| cy_ready
| cy_on (event selector : string).

(** ** Settings *)

Abbreviation Settings := (gmap string JVal).

(** [defaultSettings], in the order [Object.entries] enumerates it. *)
Definition defaultSettings : list (string * JVal) :=
  [ ("nodeWidth", JNum 25);
    ("nodeHeight", JNum 25);
    ("nodeSeparation", JNum 50);
    ("edgeSeparation", JNum 10);
    ("rankSeparation", JNum 50);
    ("spacingFactor", JNum 1);
    ("nodeShape", JStr "ellipse");
    ("curveStyle", JStr "taxi");
    ("avatarAsRoot", JBool true);
    ("bookmarkColor", JStr "#ff0000");
    ("useChatColors", JBool false);
    ("charNodeColor", JStr "#FFFFFF");
    ("userNodeColor", JStr "#ADD8E6");
    ("edgeColor", JStr "#555");
    ("lockNodes", JBool true) ].

(** ** Graph elements, contexts, the page *)

(** The [data] of a node of [nodeData], as the script reads it. *)
Record Node : Type := mkNode {
  n_id : string;
  n_name : option string;
  n_msg : option string;
  n_file_name : option string;
  n_chat_sessions : option (list string)
}.

Record Edge : Type := mkEdge {
  e_color : option string;
  e_bookmarkName : option string
}.

(** An entry of [nodeData]: [{group: 'nodes', data}] or
    [{group: 'edges', data}]. *)
Inductive Element : Type :=
| group_nodes (data : Node)
| group_edges (data : Edge).

(** The Cytoscape instance, as far as the script queries it:
    [cy.nodes()] and [cy.edges()]. *)
Record Cy : Type := mkCy {
  cy_nodes : list Node;
  cy_edges : list Edge
}.

Record Group : Type := mkGroup {
  g_id : JVal;
  g_chats : list string
}.

Record Character : Type := mkCharacter {
  avatar : JVal
}.

(** What [getContext()] returns: a new object at each call, so a stored
    context keeps the identifiers it was built with.  [characters] is
    indexed by property name. *)
Record Context : Type := mkContext {
  characterId : JVal;
  groupId : JVal;
  groups : list Group;
  characters : gmap string Character
}.

(** The module variable [layout]: [{}] until the first rebuild. *)
Inductive Layout : Type :=
| layout_empty
| layout_dagre (nodeSep edgeSep rankSep spacingFactor : JVal).

Inductive LegendType : Type := circle | line.

(** The [item] argument of [createLegendItem]. *)
Record LegendEntry : Type := mkEntry {
  le_color : string;
  le_text : string;
  le_class : option string;
  le_colorKey : option string
}.

Inductive SymbolStyle : Type :=
| symbol_circle (backgroundColor : string)
| symbol_line (borderTop height width : string).

(** A [div.legend-item] of the page: the selector its three listeners
    close over, its symbol, its text, and whether its class list holds
    [active-legend]. *)
Record LegendItem : Type := mkItem {
  li_selector : string;
  li_symbol : SymbolStyle;
  li_text : string;
  li_active : bool
}.

Inductive ControlKind : Type := checkbox | color_picker | plain_input.

(** A settings control of [timeline.html]. *)
Record Control : Type := mkControl {
  ctl_kind : ControlKind;
  ctl_value : JVal;
  ctl_checked : bool;
  ctl_color : JVal
}.

(** A Tippy instance: its content and whether it is shown. *)
Record Tippy : Type := mkTippy {
  tip_content : string;
  tip_shown : bool
}.

(** ** The state the handlers thread *)

Record State : Type := mkState {
  (* extension_settings.timeline *)
  timeline : option Settings;
  (* module variables *)
  currentlyHighlighted : option string;
  lastContext : option Context;
  layout : Layout;
  lastTimelineData : option (list Element);
  (* the page *)
  myDiagramDiv : bool;
  legendDiv : option (list LegendItem);
  transparent_search : option string;
  controls : gmap string Control;
  (* the closure variable [showTimeout], the pending timers with the node
     and content their callbacks captured, the host's next timer id, and
     the [_tippy] field of the nodes, by node id *)
  showTimeout : option Z;
  timers : list (Z * (Node * string));
  next_timer : Z;
  tippies : gmap string Tippy;
  (* calls into collaborators, oldest first *)
  calls : list Call
}.

Definition set_timeline (v : option Settings) (s : State) : State :=
  mkState v (currentlyHighlighted s) (lastContext s) (layout s)
    (lastTimelineData s) (myDiagramDiv s) (legendDiv s)
    (transparent_search s) (controls s) (showTimeout s) (timers s)
    (next_timer s) (tippies s) (calls s).

Definition set_currentlyHighlighted (v : option string) (s : State) : State :=
  mkState (timeline s) v (lastContext s) (layout s)
    (lastTimelineData s) (myDiagramDiv s) (legendDiv s)
    (transparent_search s) (controls s) (showTimeout s) (timers s)
    (next_timer s) (tippies s) (calls s).

Definition set_lastContext (v : option Context) (s : State) : State :=
  mkState (timeline s) (currentlyHighlighted s) v (layout s)
    (lastTimelineData s) (myDiagramDiv s) (legendDiv s)
    (transparent_search s) (controls s) (showTimeout s) (timers s)
    (next_timer s) (tippies s) (calls s).

Definition set_layout (v : Layout) (s : State) : State :=
  mkState (timeline s) (currentlyHighlighted s) (lastContext s) v
    (lastTimelineData s) (myDiagramDiv s) (legendDiv s)
    (transparent_search s) (controls s) (showTimeout s) (timers s)
    (next_timer s) (tippies s) (calls s).

Definition set_lastTimelineData (v : option (list Element)) (s : State)
  : State :=
  mkState (timeline s) (currentlyHighlighted s) (lastContext s) (layout s)
    v (myDiagramDiv s) (legendDiv s)
    (transparent_search s) (controls s) (showTimeout s) (timers s)
    (next_timer s) (tippies s) (calls s).

Definition set_legendDiv (v : option (list LegendItem)) (s : State) : State :=
  mkState (timeline s) (currentlyHighlighted s) (lastContext s) (layout s)
    (lastTimelineData s) (myDiagramDiv s) v
    (transparent_search s) (controls s) (showTimeout s) (timers s)
    (next_timer s) (tippies s) (calls s).

Definition set_transparent_search (v : option string) (s : State) : State :=
  mkState (timeline s) (currentlyHighlighted s) (lastContext s) (layout s)
    (lastTimelineData s) (myDiagramDiv s) (legendDiv s)
    v (controls s) (showTimeout s) (timers s)
    (next_timer s) (tippies s) (calls s).

Definition set_controls (v : gmap string Control) (s : State) : State :=
  mkState (timeline s) (currentlyHighlighted s) (lastContext s) (layout s)
    (lastTimelineData s) (myDiagramDiv s) (legendDiv s)
    (transparent_search s) v (showTimeout s) (timers s)
    (next_timer s) (tippies s) (calls s).

Definition set_showTimeout (v : option Z) (s : State) : State :=
  mkState (timeline s) (currentlyHighlighted s) (lastContext s) (layout s)
    (lastTimelineData s) (myDiagramDiv s) (legendDiv s)
    (transparent_search s) (controls s) v (timers s)
    (next_timer s) (tippies s) (calls s).

Definition set_timers (v : list (Z * (Node * string))) (s : State) : State :=
  mkState (timeline s) (currentlyHighlighted s) (lastContext s) (layout s)
    (lastTimelineData s) (myDiagramDiv s) (legendDiv s)
    (transparent_search s) (controls s) (showTimeout s) v
    (next_timer s) (tippies s) (calls s).

Definition set_next_timer (v : Z) (s : State) : State :=
  mkState (timeline s) (currentlyHighlighted s) (lastContext s) (layout s)
    (lastTimelineData s) (myDiagramDiv s) (legendDiv s)
    (transparent_search s) (controls s) (showTimeout s) (timers s)
    v (tippies s) (calls s).

Definition set_tippies (v : gmap string Tippy) (s : State) : State :=
  mkState (timeline s) (currentlyHighlighted s) (lastContext s) (layout s)
    (lastTimelineData s) (myDiagramDiv s) (legendDiv s)
    (transparent_search s) (controls s) (showTimeout s) (timers s)
    (next_timer s) v (calls s).

(** Issue a call to a collaborator. *)
Definition emit (c : Call) (s : State) : State :=
  mkState (timeline s) (currentlyHighlighted s) (lastContext s) (layout s)
    (lastTimelineData s) (myDiagramDiv s) (legendDiv s)
    (transparent_search s) (controls s) (showTimeout s) (timers s)
    (next_timer s) (tippies s) (calls s ++ [c]).

(** The state when the script has been evaluated: lines 84-88, an empty
    page, the host's timer ids starting at 1. *)
Definition initial_state : State :=
  mkState None None None layout_empty None false None None ∅
    None [] 1 ∅ [].

(** ** Handlers that may throw

    A computation runs from a state to the state it leaves behind and to
    its result, [None] when it threw: the writes made before the throw
    stay. *)

Definition M (A : Type) : Type := State → State * option A.

Definition ret {A} (a : A) : M A := λ s, (s, Some a).
Definition throw {A} : M A := λ s, (s, None).
Definition bind {A B} (m : M A) (k : A → M B) : M B :=
  λ s, match m s with
       | (s', Some a) => k a s'
       | (s', None) => (s', None)
       end.
Definition get : M State := λ s, (s, Some s).
Definition modify (f : State → State) : M unit := λ s, (f s, Some tt).
Definition call (c : Call) : M unit := modify (emit c).
(** Read through a reference that may be [null] or [undefined]. *)
Definition deref {A} (o : option A) : M A :=
  match o with Some a => ret a | None => throw end.

Declare Scope js_scope.
Delimit Scope js_scope with js.
Notation "x <- m ;; k" := (bind m (λ x, k))
  (at level 100, m at next level, right associativity) : js_scope.
Notation "m ;;; k" := (bind m (λ _, k))
  (at level 100, right associativity) : js_scope.
Local Open Scope js_scope.

Fixpoint for_each {A} (l : list A) (body : A → M unit) : M unit :=
  match l with
  | [] => ret tt
  | x :: r => body x ;;; for_each r body
  end.

(** ** Collaborators

    What the script imports and what the browser provides, as an
    interface.  [fetchData] and [prepareData] are awaited: [None] is a
    rejected promise.  A handler is modelled as running to completion
    before the next event is handled. *)

Inductive RawData (P : Type) : Type :=
| data_object (files : list string)
| data_fetched (p : P).
Arguments data_object {P} files.
Arguments data_fetched {P} p.

Class Host : Type := {
  (* what [fetchData] resolves to *)
  Payload : Type;
  (* tl_graph.js *)
  getNodeDepth : Node → Z;
  (* tl_node_data.js *)
  fetchData : JVal → option Payload;
  prepareData : RawData Payload → bool → option (list Element);
  (* [node.style('background-color')] *)
  background_color : Node → string;
  (* the global [isNaN] and [Math.round], which coerce their argument *)
  isNaN : JVal → bool;
  Math_round : JVal → JVal;
  (* what the control [id] holds after jQuery's [.val(v)] *)
  val_written : string → JVal → JVal;
  (* tl_style.js: whether [setupStylesAndData(nodeData)] returns *)
  setupStylesAndData : option (list Element) → bool
}.

Section Script.

Context `{Host}.

(** ** Settings: [loadSettings], [onInputChange] *)

(** [extension_settings.timeline[key]]. *)
Definition timeline_get (key : string) : M JVal :=
  s <- get ;;
  tl <- deref (timeline s) ;;
  ret (default JUndefined (tl !! key)).

(** [idsToSettingsMap], lines 574-590. *)
Definition idsToSettingsMap : list (string * string) :=
  [ ("tl_node_width", "nodeWidth");
    ("tl_node_height", "nodeHeight");
    ("tl_node_separation", "nodeSeparation");
    ("tl_edge_separation", "edgeSeparation");
    ("tl_rank_separation", "rankSeparation");
    ("tl_spacing_factor", "spacingFactor");
    ("tl_node_shape", "nodeShape");
    ("tl_curve_style", "curveStyle");
    ("tl_avatar_as_root", "avatarAsRoot");
    ("tl_use_chat_colors", "useChatColors");
    ("tl_lock_nodes", "lockNodes");
    ("bookmark-color-picker", "bookmarkColor");
    ("edge-color-picker", "edgeColor");
    ("user-node-color-picker", "userNodeColor");
    ("char-node-color-picker", "charNodeColor") ].

(** [idsToSettingsMap[id]]. *)
Definition setting_of_id (id : string) : option string :=
  (list_to_map idsToSettingsMap : gmap string string) !! id.

(** The value [onInputChange] reads from the element that fired. *)
Definition input_value (element : Control) (rgbaValue : JVal) : JVal :=
  match ctl_kind element with
  | checkbox => JBool (ctl_checked element)
  | color_picker => rgbaValue
  | plain_input => ctl_value element
  end.

(** [onInputChange(element, settingName, rgbaValue = null)], lines 632-655;
    [id] is [element.attr('id')]. *)
Definition onInputChange (id : string) (element : Control)
    (settingName : string) (rgbaValue : JVal) : M unit :=
  let value := input_value element rgbaValue in
  s <- get ;;
  tl <- deref (timeline s) ;;
  modify (set_timeline (Some (<[settingName := value]> tl))) ;;;
  (if isNaN value then ret tt
   else call (set_label_text (id +:+ "_value") (Math_round value))) ;;;
  modify (set_lastContext None) ;;;
  call saveSettingsDebounced.

(** The listeners bound at lines 592-602: the colour pickers listen to
    [change], every other control to [input]. *)
Definition on_input (id : string) : M unit :=
  s <- get ;;
  match controls s !! id with
  | None => ret tt
  | Some element =>
      if includes id "color-picker" then ret tt
      else match setting_of_id id with
           | Some settingName => onInputChange id element settingName JNull
           | None => ret tt
           end
  end.

Definition on_change (id : string) (rgba : JVal) : M unit :=
  s <- get ;;
  match controls s !! id with
  | None => ret tt
  | Some element =>
      if includes id "color-picker" then
        match setting_of_id id with
        | Some settingName => onInputChange id element settingName rgba
        | None => ret tt
        end
      else ret tt
  end.

(** jQuery's [.val(v)], [.prop("checked", v)] and [.attr('color', v)] on
    [$("#id")]: nothing happens when the page has no such element.  With
    [undefined] for [v], [.prop] and [.attr] set nothing; [.attr] with
    [null] removes the attribute, and stores a string otherwise. *)
Definition jq_val (id : string) (v : JVal) : M unit :=
  modify (λ s, set_controls
    (alter (λ c, mkControl (ctl_kind c) (val_written id v) (ctl_checked c)
                   (ctl_color c)) id (controls s)) s).

Definition jq_prop_checked (id : string) (v : JVal) : M unit :=
  modify (λ s, set_controls
    (alter (λ c, mkControl (ctl_kind c) (ctl_value c)
                   (match v with
                    | JUndefined => ctl_checked c
                    | _ => truthy v
                    end)
                   (ctl_color c)) id (controls s)) s).

Definition jq_attr_color (id : string) (v : JVal) : M unit :=
  modify (λ s, set_controls
    (alter (λ c, mkControl (ctl_kind c) (ctl_value c) (ctl_checked c)
                   (match v with
                    | JUndefined => ctl_color c
                    | JNull => JUndefined
                    | _ => JStr (to_string v)
                    end))
       id (controls s)) s).

(** [$("#id").val(timeline[key]).trigger("input")] and its checkbox
    form. *)
Definition refresh_val (id key : string) : M unit :=
  v <- timeline_get key ;;
  jq_val id v ;;;
  on_input id.

Definition refresh_checked (id key : string) : M unit :=
  v <- timeline_get key ;;
  jq_prop_checked id v ;;;
  on_input id.

Definition refresh_color (id key : string) : M unit :=
  v <- timeline_get key ;;
  jq_attr_color id v.

(** Lines 98-110 of [loadSettings]: make the settings object, then merge
    each default that is not an own property. *)
Definition merge_default (entry : string * JVal) : M unit :=
  s <- get ;;
  tl <- deref (timeline s) ;;
  if decide (is_Some (tl !! entry.1)) then ret tt
  else
    call (console_log ("Setting default for: " +:+ entry.1)) ;;;
    modify (set_timeline (Some (<[entry.1 := entry.2]> tl))).

Definition loadSettings_merge : M unit :=
  s <- get ;;
  (match timeline s with
   | None =>
       call (console_log "Creating extension_settings.timeline") ;;;
       modify (set_timeline (Some ∅))
   | Some _ => ret tt
   end) ;;;
  for_each defaultSettings merge_default.

(** Lines 113-127 of [loadSettings]: update the controls. *)
Definition loadSettings_update_ui : M unit :=
  refresh_val "tl_node_width" "nodeWidth" ;;;
  refresh_val "tl_node_height" "nodeHeight" ;;;
  refresh_val "tl_node_separation" "nodeSeparation" ;;;
  refresh_val "tl_edge_separation" "edgeSeparation" ;;;
  refresh_val "tl_rank_separation" "rankSeparation" ;;;
  refresh_val "tl_spacing_factor" "spacingFactor" ;;;
  refresh_val "tl_node_shape" "nodeShape" ;;;
  refresh_val "tl_curve_style" "curveStyle" ;;;
  refresh_checked "tl_avatar_as_root" "avatarAsRoot" ;;;
  refresh_checked "tl_use_chat_colors" "useChatColors" ;;;
  refresh_checked "tl_lock_nodes" "lockNodes" ;;;
  refresh_color "bookmark-color-picker" "bookmarkColor" ;;;
  refresh_color "edge-color-picker" "edgeColor" ;;;
  refresh_color "user-node-color-picker" "userNodeColor" ;;;
  refresh_color "char-node-color-picker" "charNodeColor".

Definition loadSettings : M unit :=
  loadSettings_merge ;;;
  loadSettings_update_ui.

(** The click listener of [#resetSettingsBtn], lines 614-618. *)
Definition resetSettings : M unit :=
  modify (set_timeline (Some (list_to_map defaultSettings))) ;;;
  loadSettings ;;;
  call saveSettingsDebounced.

(** ** Node activation: [nodeClickHandler] and the [tap] listener *)

(** [chatSessions && chatSessions.length > 1]. *)
Definition more_than_one (chatSessions : option (list string)) : bool :=
  match chatSessions with
  | Some l => bool_decide (1 < length l)%nat
  | None => false
  end.

(** Lines 174-181. *)
Definition nodeClickHandler (node : Node) : M unit :=
  let depth := getNodeDepth node in
  let chatSessions := n_chat_sessions node in
  if negb (more_than_one chatSessions) then
    let chatSessionName := n_file_name node in
    call (navigateToMessage chatSessionName depth)
  else ret tt.

(** Lines 426-430. *)
Definition on_tap (node : Node) : M unit :=
  nodeClickHandler node ;;;
  call closeModal.

(** The [onClickFunction] of a chat-session menu item, lines 375-380. *)
Definition on_menu_session (session : string) (target : Node) : M unit :=
  let depth := getNodeDepth target in
  call (navigateToMessage (Some session) depth) ;;;
  call closeModal.

(** ** The legend: [createLegendItem], [createLegend] *)

Definition dquote : string := String (ascii_of_N 34) EmptyString.

(** An interpolated [${x}] of a template literal. *)
Definition interpolate (o : option string) : string :=
  default "undefined" o.

(** Line 256. *)
Definition selector_of (type : LegendType) (item : LegendEntry) : string :=
  match type with
  | circle => "node[name=" +:+ dquote +:+ le_text item +:+ dquote +:+ "]"
  | line =>
      "edge[color=" +:+ dquote +:+ interpolate (le_colorKey item)
        +:+ dquote +:+ "]"
  end.

(** [s.split(sep)[0]] for a non-empty [sep]: [s] up to the first [sep]. *)
Fixpoint split_first (sep s : string) : string :=
  if String.prefix sep s then EmptyString
  else match s with
       | EmptyString => EmptyString
       | String c r => String c (split_first sep r)
       end.

(** Lines 291-297. *)
Definition symbol_of (type : LegendType) (item : LegendEntry) : SymbolStyle :=
  match type with
  | circle => symbol_circle (le_color item)
  | line => symbol_line ("3px solid " +:+ le_color item) "5px" "25px"
  end.

(** [createLegendItem(cy, container, item, type)], lines 249-307: the
    element it builds and appends to [container].  Its three listeners
    are [legend_mouseover], [legend_mouseout] and [legend_click] below. *)
Definition createLegendItem (container : list LegendItem)
    (item : LegendEntry) (type : LegendType) : list LegendItem :=
  container ++
    [ mkItem (selector_of type item) (symbol_of type item)
        (split_first " - " (le_text item)) false ].

(** [s.replace(/\s+/g, '-')]. *)
Fixpoint replace_spaces (in_run : bool) (s : string) : string :=
  match s with
  | EmptyString => EmptyString
  | String c r =>
      if is_space c then
        if in_run then replace_spaces true r
        else String "-" (replace_spaces true r)
      else String c (replace_spaces false r)
  end.

(** The [forEach] over [cy.nodes()], lines 205-214. *)
Fixpoint legend_nodes (nodes : list Node) (nodeNames : gset string)
    (container : list LegendItem) : list LegendItem :=
  match nodes with
  | [] => container
  | node :: rest =>
      let color := background_color node in
      match n_name node with
      | Some name =>
          if (truthy_str (Some name) && negb (bool_decide (name ∈ nodeNames)))%bool
          then
            legend_nodes rest ({[name]} ∪ nodeNames)
              (createLegendItem container
                 (mkEntry color name
                    (Some (toLowerCase (replace_spaces false name))) None)
                 circle)
          else legend_nodes rest nodeNames container
      | None => legend_nodes rest nodeNames container
      end
  end.

(** [bookmarkName || `Path of ${color}`]. *)
Definition edge_label (bookmarkName : option string) (color : string)
  : string :=
  match bookmarkName with
  | Some b => if truthy_str (Some b) then b else "Path of " +:+ color
  | None => "Path of " +:+ color
  end.

(** The [forEach] over [cy.edges()], lines 219-228. *)
Fixpoint legend_edges (edges : list Edge)
    (edgeColors : gmap string (option string))
    (container : list LegendItem) : list LegendItem :=
  match edges with
  | [] => container
  | edge :: rest =>
      let bookmarkName := e_bookmarkName edge in
      match e_color edge with
      | Some color =>
          if (truthy_str (Some color)
              && negb (bool_decide (is_Some (edgeColors !! color))))%bool
          then
            legend_edges rest (<[color := bookmarkName]> edgeColors)
              (createLegendItem container
                 (mkEntry color (edge_label bookmarkName color) None
                    (Some color))
                 line)
          else legend_edges rest edgeColors container
      | None => legend_edges rest edgeColors container
      end
  end.

(** [createLegend(cy)], lines 197-229. *)
Definition createLegend (cy : Cy) : M unit :=
  s <- get ;;
  _ <- deref (legendDiv s) ;;
  modify (set_legendDiv (Some [])) ;;;
  modify (set_legendDiv
            (Some (legend_nodes (cy_nodes cy) ∅ []))) ;;;
  s <- get ;;
  container <- deref (legendDiv s) ;;
  modify (set_legendDiv
            (Some (legend_edges (cy_edges cy) ∅ container))).

(** The listeners of the legend item at position [i] of the legend,
    lines 259-289.  An event on a position that holds no item has no
    listener. *)
Definition set_active (b : bool) (it : LegendItem) : LegendItem :=
  mkItem (li_selector it) (li_symbol it) (li_text it) b.

Definition legend_item (i : nat) (s : State) : option LegendItem :=
  legendDiv s ≫= (λ items, items !! i).

Definition legend_mouseover (i : nat) (s : State) : State :=
  match legend_item i s with
  | None => s
  | Some legendItem =>
      let selector := li_selector legendItem in
      if (negb (li_active legendItem)
          && negb (bool_decide (currentlyHighlighted s = Some selector)))%bool
      then emit (highlightElements selector) s
      else s
  end.

Definition legend_mouseout (i : nat) (s : State) : State :=
  match legend_item i s with
  | None => s
  | Some legendItem =>
      let selector := li_selector legendItem in
      if (negb (li_active legendItem)
          && negb (bool_decide (currentlyHighlighted s = Some selector)))%bool
      then emit restoreElements s
      else s
  end.

(** [classList.add] and [classList.remove] on the item at [i], and the
    [forEach] over [querySelectorAll('.active-legend')]. *)
Definition classList_set (i : nat) (b : bool) (s : State) : State :=
  set_legendDiv (alter (set_active b) i <$> legendDiv s) s.

Definition clear_active_items (s : State) : State :=
  set_legendDiv (fmap (M := list) (set_active false) <$> legendDiv s) s.

Definition legend_click (i : nat) (s : State) : State :=
  match legend_item i s with
  | None => s
  | Some legendItem =>
      let selector := li_selector legendItem in
      if bool_decide (currentlyHighlighted s = Some selector) then
        set_currentlyHighlighted None
          (classList_set i false (emit restoreElements s))
      else
        let s1 :=
          if truthy_str (currentlyHighlighted s) then
            clear_active_items (emit restoreElements s)
          else s in
        set_currentlyHighlighted (Some selector)
          (classList_set i true (emit (highlightElements selector) s1))
  end.

(** ** Search: the [input] listener of [#transparent-search] *)

(** Lines 385-391. *)
Definition search_input (value : string) : M unit :=
  s <- get ;;
  _ <- deref (transparent_search s) ;;
  modify (set_transparent_search (Some value)) ;;;
  let query := toLowerCase value in
  call (highlightNodesByQuery query).

(** ** Tooltips: the [mouseover] and [mouseout] listeners of nodes *)

(** Lines 447-452, with the default [length = 100]. *)
Definition truncateMessage (msg : option string) : string :=
  match msg with
  | None => EmptyString
  | Some m =>
      if bool_decide (100 < String.length m)%nat
      then String.substring 0 97 m +:+ "..."
      else m
  end.

Definition tooltip_content (node : Node) : string :=
  let truncatedMsg := truncateMessage (n_msg node) in
  match n_name node with
  | Some name =>
      if truthy_str (Some name) then name +:+ ": " +:+ truncatedMsg
      else truncatedMsg
  | None => truncatedMsg
  end.

(** Lines 455-466: [setTimeout] hands out the host's next timer id. *)
Definition node_mouseover (node : Node) (s : State) : State :=
  let content := tooltip_content node in
  let id := next_timer s in
  set_showTimeout (Some id)
    (set_next_timer (id + 1)
       (set_timers (timers s ++ [(id, (node, content))]) s)).

(** The callback of lines 461-465, run by the host for a pending timer:
    [makeTippy], [tippy.show()], [node._tippy = tippy]. *)
Definition pending (id : Z) (s : State) : option (Node * string) :=
  snd <$> List.find (λ t, Z.eqb (fst t) id) (timers s).

Definition clearTimeout (id : Z) (s : State) : State :=
  set_timers (filter (λ t, fst t ≠ id) (timers s)) s.

Definition timer_fire (id : Z) (s : State) : State :=
  match pending id s with
  | None => s
  | Some (node, content) =>
      set_tippies (<[n_id node := mkTippy content true]> (tippies s))
        (clearTimeout id s)
  end.

(** Lines 469-480. *)
Definition node_mouseout (node : Node) (s : State) : State :=
  let s1 :=
    match showTimeout s with
    | Some id => if truthy (JNum id) then clearTimeout id s else s
    | None => s
    end in
  match tippies s1 !! n_id node with
  | Some tip =>
      set_tippies (<[n_id node := mkTippy (tip_content tip) false]> (tippies s1)) s1
  | None => s1
  end.

(** ** Rendering: [initializeCytoscape], [setupEventHandlers],
       [renderCytoscapeDiagram] *)

(** The elements of a new instance: [nodeData] by group; nothing for
    [null]. *)
Definition cytoscape (nodeData : option (list Element)) : Cy :=
  let elements := default [] nodeData in
  mkCy (omap (λ e, match e with group_nodes d => Some d | _ => None end)
          elements)
       (omap (λ e, match e with group_edges d => Some d | _ => None end)
          elements).

(** Lines 323-343. *)
Definition initializeCytoscape (nodeData : option (list Element))
  : M (option Cy) :=
  s <- get ;;
  if negb (myDiagramDiv s) then
    call (console_error
      ("Unable to find element with id " +:+ dquote +:+ "myDiagramDiv"
       +:+ dquote
       +:+ ". Please ensure the element exists at the time of calling this function.")) ;;;
    ret None
  else
    call (cytoscape_use "cytoscapeDagre") ;;;
    call (cytoscape_use "cytoscapeContextMenus") ;;;
    call (cytoscape_use "cytoscapePopper") ;;;
    call cytoscape_new ;;;
    ret (Some (cytoscape nodeData)).

(** [[...new Set(l)]]: the distinct members of [l], each at its first
    occurrence. *)
Fixpoint set_spread_from (seen : gset string) (l : list string)
  : list string :=
  match l with
  | [] => []
  | x :: r =>
      if bool_decide (x ∈ seen) then set_spread_from seen r
      else x :: set_spread_from ({[x]} ∪ seen) r
  end.

Definition set_spread (l : list string) : list string :=
  set_spread_from ∅ l.

(** Lines 361-367. *)
Definition allChatSessions (nodeData : list Element) : list string :=
  set_spread
    (concat
       (omap (λ e, match e with
                   | group_nodes d => n_chat_sessions d
                   | group_edges _ => None
                   end) nodeData)).

(** The ids of [menuItems], lines 370-412. *)
Definition menuItemIds (nodeData : list Element) : list string :=
  imap (λ index (_ : string), "chat-session-" +:+ pretty index)
    (allChatSessions nodeData)
  ++ ["no-chat-session"; "rotate-graph"].

(** The [ready] callback, lines 421-424. *)
Definition on_ready (cy : Cy) : M unit :=
  createLegend cy ;;;
  call closeOpenDrawers.

(** [setupEventHandlers(cy, nodeData)], lines 360-481: what it registers,
    and the [ready] callback.  The instance comes from
    [initializeCytoscape], which hands the constructor its elements and
    its layout directly, so it is ready when the constructor returns; and
    [cy.ready(fn)] on a ready instance calls [fn] before it returns.  So
    [on_ready] runs here, between the registration of the context menu
    and that of the [tap] listener, and a throw of it leaves
    [setupEventHandlers] at that point.  The other listeners, which run
    on later events, are [search_input], [on_menu_session], [on_tap],
    [on_render], [node_mouseover] and [node_mouseout]. *)
Definition setupEventHandlers (cy : Cy) (nodeData : option (list Element))
  : M unit :=
  nodeData <- deref nodeData ;;
  let ids := menuItemIds nodeData in
  s <- get ;;
  _ <- deref (transparent_search s) ;;
  call (addEventListener "transparent-search" "input") ;;;
  call (cy_contextMenus ids) ;;;
  call cy_ready ;;;
  on_ready cy ;;;
  call (cy_on "tap" "node") ;;;
  call (cy_on "render" EmptyString) ;;;
  call (cy_on "mouseover" "node") ;;;
  call (cy_on "mouseout" "node").

(** [renderCytoscapeDiagram(nodeData)], lines 490-497. *)
Definition renderCytoscapeDiagram (nodeData : option (list Element))
  : M unit :=
  (if setupStylesAndData nodeData then call call_setupStylesAndData
   else call call_setupStylesAndData ;;; throw) ;;;
  cy <- initializeCytoscape nodeData ;;
  match cy with
  | Some cy => setupEventHandlers cy nodeData
  | None => ret tt
  end.

(** ** Rebuild: [updateTimelineDataIfNeeded] *)

(** The property name a value indexes with. *)
Definition to_property_key (v : JVal) : string := to_string v.

(** [!lastContext || lastContext.characterId !== context.characterId]. *)
Definition rebuild_needed (last : option Context) (context : Context)
  : bool :=
  match last with
  | None => true
  | Some l => negb (strict_eq (characterId l) (characterId context))
  end.

(** Lines 510-528: obtain [lastTimelineData] for [context]. *)
Definition load_timeline_data (context : Context) : M unit :=
  if negb (truthy (characterId context)) then
    let groupID := groupId context in
    if truthy groupID then
      group <- deref (List.find (λ group, strict_eq (g_id group) groupID)
                        (groups context)) ;;
      for_each (g_chats group) (λ chat, call (console_log chat)) ;;;
      call (await_prepareData true) ;;;
      data <- deref (prepareData (data_object (g_chats group)) true) ;;
      modify (set_lastTimelineData (Some data))
    else ret tt
  else
    character <- deref (characters context
                          !! to_property_key (characterId context)) ;;
    call (await_fetchData (avatar character)) ;;;
    payload <- deref (fetchData (avatar character)) ;;
    call (await_prepareData false) ;;;
    data <- deref (prepareData (data_fetched payload) false) ;;
    modify (set_lastTimelineData (Some data)).

(** [updateTimelineDataIfNeeded()], lines 507-545; [context] is what
    [getContext()] returned. *)
Definition updateTimelineDataIfNeeded (context : Context) : M bool :=
  s <- get ;;
  if rebuild_needed (lastContext s) context then
    load_timeline_data context ;;;
    modify (set_lastContext (Some context)) ;;;
    call (console_log "Timeline data updated") ;;;
    nodeSep <- timeline_get "nodeSeparation" ;;
    edgeSep <- timeline_get "edgeSeparation" ;;
    rankSep <- timeline_get "rankSeparation" ;;
    spacingFactor <- timeline_get "spacingFactor" ;;
    modify (set_layout (layout_dagre nodeSep edgeSep rankSep spacingFactor)) ;;;
    ret true
  else ret false.

End Script.

(** ** More of the script: the context menu and the [render] listener *)

Section ScriptRest.

(** An entry of [menuItems], lines 370-412: [session] is the variable its
    [onClickFunction] closes over, for the entries that open a chat
    session. *)
Record MenuItem : Type := mkMenuItem {
  mi_id : string;
  mi_content : string;
  mi_selector : string;
  mi_session : option string;
  mi_coreAsWell : bool;
  mi_hasTrailingDivider : bool
}.

(** The callback of [allChatSessions.map], lines 370-383. *)
Definition session_menu_item (index : nat) (session : string) : MenuItem :=
  mkMenuItem ("chat-session-" +:+ pretty index)
    ("Open chat session " +:+ session)
    ("node[chat_sessions_str *= " +:+ dquote +:+ ";" +:+ session +:+ ";"
       +:+ dquote +:+ "]")
    (Some session) false true.

(** [menuItems] when [cy.contextMenus] is called, line 414. *)
Definition menuItems (nodeData : list Element) : list MenuItem :=
  (imap session_menu_item (allChatSessions nodeData)
   ++ [ mkMenuItem "no-chat-session" "No chat sessions available"
          "node[!chat_sessions_str]" None false true;
        mkMenuItem "rotate-graph" "Rotate Graph" "core" None true true ])%list.

(** The variables the [render] listener of one [setupEventHandlers] call
    works on: its flag [hasSetOrientation], and what it has asked of the
    collaborators so far: the number of calls of
    [setGraphOrientationBasedOnViewport] and the ids of the nodes it
    called [lock()] on, oldest first. *)
Record RenderClosure : Type := mkRenderClosure {
  hasSetOrientation : bool;
  orientation_calls : nat;
  lock_calls : list string
}.

(** The [render] listener, lines 434-444, given
    [extension_settings.timeline] at the time of the event.  The result
    is [None] when it threw. *)
Definition on_render (settings : option Settings) (cy : Cy)
    (r : RenderClosure) : RenderClosure * option unit :=
  if negb (hasSetOrientation r) then
    let r1 := mkRenderClosure true (S (orientation_calls r)) (lock_calls r) in
    match settings with
    | None => (r1, None)
    | Some tl =>
        if truthy (default JUndefined (tl !! "lockNodes")) then
          (mkRenderClosure true (S (orientation_calls r))
             (lock_calls r ++ (n_id <$> cy_nodes cy)),
           Some tt)
        else (r1, Some tt)
    end
  else (r, Some tt).

End ScriptRest.

(** ** A concrete host, for evaluating the script on examples

    The collaborators of [tl_graph.js], [tl_node_data.js] and
    [tl_style.js] are stand-ins; [isNaN] and [Math.round] are the
    browser's; the controls of the page are text inputs, which hold the
    string form of what [.val(v)] writes, the empty string for [null] and
    [undefined]. *)

Definition demo_host : Host :=
  {| Payload := list string;
     getNodeDepth := λ node, Z.of_nat (String.length (n_id node));
     fetchData := λ avatar,
       match avatar with JStr a => Some [a] | _ => None end;
     prepareData := λ data isGroup,
       match data with
       | data_object files =>
           Some ((λ f, group_nodes (mkNode f None None (Some f) (Some [f])))
                   <$> files)
       | data_fetched p =>
           Some ((λ f, group_nodes (mkNode f (Some f) None (Some f) (Some [f])))
                   <$> p)
       end;
     background_color := λ node, "#ADD8E6";
     isNaN := global_isNaN;
     Math_round := global_Math_round;
     val_written := λ id v,
       JStr (match v with
             | JUndefined | JNull => EmptyString
             | _ => to_string v
             end);
     setupStylesAndData := λ nodeData, true |}.

(** * Notions used by the properties *)

Section Notions.

Context `{Host}.

(** The calls a handler issued, given the state before and after. *)
Definition issued (before after : State) : list Call :=
  drop (length (calls before)) (calls after).

(** The node is associated with more than one chat session. *)
Definition several_sessions (node : Node) : Prop :=
  ∃ l, n_chat_sessions node = Some l ∧ (1 < length l)%nat.

(** The node is associated with exactly one chat session. *)
Definition single_session (node : Node) : Prop :=
  ∃ session, n_chat_sessions node = Some [session].

(** A tap on [node] in state [s] asks the navigation collaborator for a
    message. *)
Definition tap_navigates (node : Node) (s : State) : Prop :=
  ∃ name depth,
    navigateToMessage name depth ∈ issued s (on_tap node s).1.

Inductive RefreshKind : Type := by_val | by_checked | by_color.

Definition refresh (r : RefreshKind * (string * string)) : M unit :=
  match r with
  | (by_val, (id, key)) => refresh_val id key
  | (by_checked, (id, key)) => refresh_checked id key
  | (by_color, (id, key)) => refresh_color id key
  end.

(** Lines 113-127 as a table. *)
Definition ui_refreshes : list (RefreshKind * (string * string)) :=
  [ (by_val, ("tl_node_width", "nodeWidth"));
    (by_val, ("tl_node_height", "nodeHeight"));
    (by_val, ("tl_node_separation", "nodeSeparation"));
    (by_val, ("tl_edge_separation", "edgeSeparation"));
    (by_val, ("tl_rank_separation", "rankSeparation"));
    (by_val, ("tl_spacing_factor", "spacingFactor"));
    (by_val, ("tl_node_shape", "nodeShape"));
    (by_val, ("tl_curve_style", "curveStyle"));
    (by_checked, ("tl_avatar_as_root", "avatarAsRoot"));
    (by_checked, ("tl_use_chat_colors", "useChatColors"));
    (by_checked, ("tl_lock_nodes", "lockNodes"));
    (by_color, ("bookmark-color-picker", "bookmarkColor"));
    (by_color, ("edge-color-picker", "edgeColor"));
    (by_color, ("user-node-color-picker", "userNodeColor"));
    (by_color, ("char-node-color-picker", "charNodeColor")) ].

Definition settings_get (m : Settings) (key : string) : JVal :=
  default JUndefined (m !! key).

(** What the [input] listener reads from the control right after the
    refresh wrote [v] to it. *)
Definition read_back (r : RefreshKind) (id : string) (v : JVal)
    (c : Control) : JVal :=
  match r with
  | by_val =>
      input_value
        (mkControl (ctl_kind c) (val_written id v) (ctl_checked c) (ctl_color c))
        JNull
  | by_checked =>
      input_value
        (mkControl (ctl_kind c) (ctl_value c)
           (match v with JUndefined => ctl_checked c | _ => truthy v end)
           (ctl_color c))
        JNull
  | by_color => v
  end.

(** The control of a refresh, if the page has it, reads back the setting
    it was refreshed with. *)
Definition reads_back (m : Settings) (page : gmap string Control)
    (r : RefreshKind * (string * string)) : Prop :=
  ∀ c, page !! r.2.1 = Some c →
       read_back r.1 r.2.1 (settings_get m r.2.2) c = settings_get m r.2.2.

(** The control of a refresh is wired to the setting the refresh reads. *)
Definition wired (r : RefreshKind * (string * string)) : Prop :=
  match r.1 with
  | by_color => True
  | _ =>
      includes r.2.1 "color-picker" = false
      ∧ setting_of_id r.2.1 = Some r.2.2
  end.

(** The settings a refresh list writes back through an [input]
    listener. *)
Definition written_back (l : list (RefreshKind * (string * string)))
  : list string :=
  omap (λ r, match r.1 with by_color => None | _ => Some r.2.2 end) l.

(** A property that counts only when it is a non-empty string. *)
Definition truthy_key (o : option string) : option string :=
  match o with
  | Some k => if truthy_str (Some k) then Some k else None
  | None => None
  end.

Definition node_key (node : Node) : option string := truthy_key (n_name node).
Definition edge_key (edge : Edge) : option string := truthy_key (e_color edge).

Definition has_key {A} (key : A → option string) (k : string) (x : A)
  : bool :=
  bool_decide (key x = Some k).

(** The members of [l] that carry a key, each key once, at its first
    occurrence. *)
Fixpoint first_by {A} (key : A → option string) (l : list A) : list A :=
  match l with
  | [] => []
  | x :: r =>
      match key x with
      | Some k => x :: List.filter (λ y, negb (has_key key k y)) (first_by key r)
      | None => first_by key r
      end
  end.

(** The loop shared by the two halves of [createLegend]: keep a member
    when its key is not among those seen. *)
Fixpoint dedup_loop {A} (key : A → option string) (l : list A)
    (seen : gset string) : list A :=
  match l with
  | [] => []
  | x :: r =>
      match key x with
      | Some k =>
          if bool_decide (k ∈ seen) then dedup_loop key r seen
          else x :: dedup_loop key r ({[k]} ∪ seen)
      | None => dedup_loop key r seen
      end
  end.

Definition fresh (seen : gset string) (o : option string) : bool :=
  match o with
  | Some k => bool_decide (k ∉ seen)
  | None => false
  end.

(** [l'] lists the first occurrences in [l]: in the order of [l], no key
    twice, every member the first of [l] with its key, no key of [l]
    left out. *)
Definition first_occurrences {A} (key : A → option string)
    (l l' : list A) : Prop :=
  sublist l' l
  ∧ NoDup (key <$> l')
  ∧ (∀ x, x ∈ l' →
       ∃ k, key x = Some k ∧ List.find (has_key key k) l = Some x)
  ∧ (∀ x k, x ∈ l → key x = Some k → ∃ y, y ∈ l' ∧ key y = Some k).

(** The argument [createLegend] passes to [createLegendItem] for a node
    and for an edge that it lists. *)
Definition node_entry (node : Node) : LegendEntry :=
  let name := default EmptyString (node_key node) in
  mkEntry (background_color node) name
    (Some (toLowerCase (replace_spaces false name))) None.

Definition edge_entry (edge : Edge) : LegendEntry :=
  let color := default EmptyString (edge_key edge) in
  mkEntry color (edge_label (e_bookmarkName edge) color) None (Some color).

(** [sep] occurs in [t]. *)
Definition occurs (sep t : string) : Prop :=
  ∃ before after, t = before +:+ sep +:+ after.

(** [shown] is [label] up to the first [sep]: the whole label when [sep]
    does not occur in it; otherwise [sep] follows [shown] in the label,
    does not occur in [shown], and no occurrence of [sep] in the label
    starts before the end of [shown]. *)
Definition cut_at_first (sep label shown : string) : Prop :=
  (¬ occurs sep label → shown = label)
  ∧ (occurs sep label → ∃ rest, label = shown +:+ sep +:+ rest)
  ∧ ¬ occurs sep shown
  ∧ (∀ pre rest, label = pre +:+ sep +:+ rest →
       ∃ more, pre = shown +:+ more).

(** The element [createLegendItem] appends. *)
Definition item_of (type : LegendType) (item : LegendEntry) : LegendItem :=
  mkItem (selector_of type item) (symbol_of type item)
    (split_first " - " (le_text item)) false.

(** What can happen to the legend between two renders, and a render. *)
Inductive LegendEvent : Type :=
| ev_mouseover (i : nat)
| ev_mouseout (i : nat)
| ev_click (i : nat)
| ev_createLegend (cy : Cy)
| ev_search (value : string).

Definition legend_step (s : State) (e : LegendEvent) : State :=
  match e with
  | ev_mouseover i => legend_mouseover i s
  | ev_mouseout i => legend_mouseout i s
  | ev_click i => legend_click i s
  | ev_createLegend cy => (createLegend cy s).1
  | ev_search value => (search_input value s).1
  end.

Definition legend_run (events : list LegendEvent) (s : State) : State :=
  foldl legend_step s events.

(** The lock and the legend agree: the locked selector is a non-empty
    string; the items of the legend have pairwise distinct, non-empty
    selectors; an item carries [active-legend] only if its selector is the
    locked one. *)
Definition lock_consistent (s : State) : Prop :=
  (∀ sel, currentlyHighlighted s = Some sel → sel ≠ EmptyString)
  ∧ ∀ items, legendDiv s = Some items →
      NoDup (li_selector <$> items)
      ∧ (∀ it, it ∈ items → li_selector it ≠ EmptyString)
      ∧ (∀ it, it ∈ items → li_active it = true →
           currentlyHighlighted s = Some (li_selector it)).

(** At most one item of the legend carries [active-legend]. *)
Definition at_most_one_active (s : State) : Prop :=
  ∀ i j a b,
    legend_item i s = Some a → legend_item j s = Some b →
    li_active a = true → li_active b = true → i = j.

Definition node_selector (name : string) : string :=
  "node[name=" +:+ dquote +:+ name +:+ dquote +:+ "]".

Definition edge_selector (color : string) : string :=
  "edge[color=" +:+ dquote +:+ color +:+ dquote +:+ "]".

(** Modelled from the spec: what "case-insensitive" compares.  The
    capital of a code unit: a small letter (a-z, and in the Latin-1 range
    the letters 224-246 and 248-254) has its capital 32 below, every other
    code unit is its own.  Two code units are the same letter when their
    capitals agree.  Nothing here refers to [toLowerCase]. *)
Definition capital (c : ascii) : N :=
  let n := N_of_ascii c in
  if ((N.leb 97 n && N.leb n 122)
      || (N.leb 224 n && N.leb n 246)
      || (N.leb 248 n && N.leb n 254))%bool
  then (n - 32)%N else n.

Definition is_capital (c : ascii) : bool :=
  let n := N_of_ascii c in
  ((N.leb 65 n && N.leb n 90)
   || (N.leb 192 n && N.leb n 214)
   || (N.leb 216 n && N.leb n 222))%bool.

Definition same_letter (a b : ascii) : Prop := capital a = capital b.

(** [a] and [b] are equal up to the case of letters. *)
Fixpoint eq_ignore_case (a b : string) : Prop :=
  match a, b with
  | EmptyString, EmptyString => True
  | String c a', String d b' => same_letter c d ∧ eq_ignore_case a' b'
  | _, _ => False
  end.

(** [q] is [v] in small letters: unit by unit the same letter, and no
    capital left. *)
Fixpoint in_small_letters (v q : string) : Prop :=
  match v, q with
  | EmptyString, EmptyString => True
  | String c v', String d q' =>
      same_letter c d ∧ is_capital d = false ∧ in_small_letters v' q'
  | _, _ => False
  end.

(** [t] holds [q] up to the case of letters: some contiguous part of [t]
    equals [q] up to case. *)
Definition ci_substring (q t : string) : Prop :=
  ∃ before part after,
    t = before +:+ part +:+ after ∧ eq_ignore_case part q.

Definition ci_contains (text : option string) (q : string) : Prop :=
  ∃ t, text = Some t ∧ ci_substring q t.

(** Modelled from the spec: the case-insensitive substring match of
    [highlightNodesByQuery], as a test. *)
Fixpoint ci_prefix (q t : string) : bool :=
  match q, t with
  | EmptyString, _ => true
  | String c q', String d t' =>
      N.eqb (capital d) (capital c) && ci_prefix q' t'
  | String _ _, EmptyString => false
  end.

Fixpoint ci_includes (t q : string) : bool :=
  ci_prefix q t ||
  match t with
  | EmptyString => false
  | String _ r => ci_includes r q
  end.

Definition text_matches (text : option string) (query : string) : bool :=
  match text with
  | Some t => ci_includes t query
  | None => false
  end.

(** Modelled from the spec: [highlightNodesByQuery] of [tl_graph.js],
    which is not among the sources.  The spec (4.3,
    [onSearchQueryChanged]) says that it "highlights all nodes whose name
    or message text contains the query (case-insensitive substring
    match); an empty query clears highlighting".  The result is the list
    of the nodes left highlighted, in the order of [cy.nodes()], [[]] when
    highlighting is cleared.  The match is [text_matches] above, which
    compares capitals and does not rely on the query having been
    lowered. *)
Definition highlightNodesByQuery_spec (cy : Cy) (query : string)
  : list Node :=
  if decide (query = EmptyString) then []
  else
    List.filter
      (λ node, text_matches (n_name node) query
               || text_matches (n_msg node) query)
      (cy_nodes cy).

Inductive TooltipEvent : Type :=
| ev_node_mouseover (node : Node)
| ev_node_mouseout (node : Node)
| ev_timer (id : Z).

Definition tooltip_step (s : State) (e : TooltipEvent) : State :=
  match e with
  | ev_node_mouseover node => node_mouseover node s
  | ev_node_mouseout node => node_mouseout node s
  | ev_timer id => timer_fire id s
  end.

Definition tooltip_run (events : list TooltipEvent) (s : State) : State :=
  foldl tooltip_step s events.

(** The host hands out positive timer ids, each once. *)
Definition timers_fresh (s : State) : Prop :=
  0 < next_timer s ∧ ∀ t, t ∈ timers s → t.1 < next_timer s.

(** While the pointer stays on the node and the delay of timer [t] has
    not elapsed: no other node is entered and [t] does not fire. *)
Definition quiet (t : Z) (e : TooltipEvent) : Prop :=
  match e with
  | ev_node_mouseover _ => False
  | ev_node_mouseout _ => True
  | ev_timer id => id ≠ t
  end.

(** A timer that is cancelled stays cancelled: later timers get larger
    ids. *)
Definition cancelled (t : Z) (s : State) : Prop :=
  t < next_timer s ∧ t ∉ (timers s).*1.

(** The calls that construct a diagram or attach a listener. *)
Definition builds_or_registers (c : Call) : bool :=
  match c with
  | cytoscape_use _ | cytoscape_new | addEventListener _ _
  | cy_contextMenus _ | cy_ready | cy_on _ _ => true
  | _ => false
  end.

Definition missing_container_message : string :=
  "Unable to find element with id " +:+ dquote +:+ "myDiagramDiv" +:+ dquote
  +:+ ". Please ensure the element exists at the time of calling this function.".

(** The store was never built, or was built for another context: there
    is no stored context, or its identifier is not the incoming one. *)
Definition context_differs (s : State) (context : Context) : Prop :=
  lastContext s = None
  ∨ ∃ last, lastContext s = Some last
            ∧ characterId last ≠ characterId context.

(** The collaborators deliver the data of [context]: the character or the
    group it names exists, and the awaited calls resolve. *)
Definition data_available (context : Context) : Prop :=
  if truthy (characterId context) then
    ∃ character payload data,
      characters context !! to_property_key (characterId context)
        = Some character
      ∧ fetchData (avatar character) = Some payload
      ∧ prepareData (data_fetched payload) false = Some data
  else if truthy (groupId context) then
    ∃ group data,
      List.find (λ group, strict_eq (g_id group) (groupId context))
        (groups context) = Some group
      ∧ prepareData (data_object (g_chats group)) true = Some data
  else True.

(** The calls [load_timeline_data] makes when the data is delivered. *)
Definition load_calls (context : Context) : list Call :=
  if truthy (characterId context) then
    match characters context !! to_property_key (characterId context) with
    | Some character =>
        [await_fetchData (avatar character); await_prepareData false]
    | None => []
    end
  else if truthy (groupId context) then
    match List.find (λ group, strict_eq (g_id group) (groupId context))
            (groups context) with
    | Some group =>
        ((console_log <$> g_chats group) ++ [await_prepareData true])%list
    | None => []
    end
  else [].

(** The listener lines 592-602 bind to the control [id]. *)
Definition listener (id : string) (rgba : JVal) : M unit :=
  if includes id "color-picker" then on_change id rgba else on_input id.


(** The calls the legend and the search field make. *)
Definition highlight_call (c : Call) : bool :=
  match c with
  | highlightElements _ | restoreElements | highlightNodesByQuery _ => true
  | _ => false
  end.

(** Two states agree on everything but the tooltip machinery
    ([showTimeout], the timers, the next timer id, the tooltips). *)
Definition same_outside_tooltips (s s' : State) : Prop :=
  timeline s' = timeline s
  ∧ currentlyHighlighted s' = currentlyHighlighted s
  ∧ lastContext s' = lastContext s
  ∧ layout s' = layout s
  ∧ lastTimelineData s' = lastTimelineData s
  ∧ myDiagramDiv s' = myDiagramDiv s
  ∧ legendDiv s' = legendDiv s
  ∧ transparent_search s' = transparent_search s
  ∧ controls s' = controls s
  ∧ calls s' = calls s.

(** Two states agree on everything but the legend, the lock, the search
    field and the calls logged. *)
Definition same_outside_legend (s s' : State) : Prop :=
  timeline s' = timeline s
  ∧ lastContext s' = lastContext s
  ∧ layout s' = layout s
  ∧ lastTimelineData s' = lastTimelineData s
  ∧ myDiagramDiv s' = myDiagramDiv s
  ∧ controls s' = controls s
  ∧ showTimeout s' = showTimeout s
  ∧ timers s' = timers s
  ∧ next_timer s' = next_timer s
  ∧ tippies s' = tippies s.

(** From [s] to [s'] only the legend, the lock and the search field may
    have changed, and only highlight calls were made. *)
Definition legend_effect (s s' : State) : Prop :=
  same_outside_legend s s'
  ∧ ∃ l, calls s' = (calls s ++ l)%list
         ∧ Forall (λ c, highlight_call c = true) l.

(** What [initializeCytoscape] asks of Cytoscape when the container is
    there. *)
Definition construction_calls : list Call :=
  [ cytoscape_use "cytoscapeDagre";
    cytoscape_use "cytoscapeContextMenus";
    cytoscape_use "cytoscapePopper";
    cytoscape_new ].

(** What [setupEventHandlers] asks for up to [cy.ready], and the four
    listeners it binds to the graph after the [ready] callback has
    returned. *)
Definition calls_until_ready (nodeData : list Element) : list Call :=
  [ addEventListener "transparent-search" "input";
    cy_contextMenus (menuItemIds nodeData);
    cy_ready ].

Definition graph_listener_calls : list Call :=
  [ cy_on "tap" "node";
    cy_on "render" EmptyString;
    cy_on "mouseover" "node";
    cy_on "mouseout" "node" ].

(** A refresh triggers an [input] listener: it is not the refresh of a
    colour picker, and the page has its control. *)
Definition triggers (page : gmap string Control)
    (r : RefreshKind * (string * string)) : bool :=
  match r.1 with
  | by_color => false
  | _ => bool_decide (is_Some (page !! r.2.1))
  end.

(** The [render] listener over a series of [render] events, each with the
    settings of its time. *)
Definition render_run (events : list (option Settings)) (cy : Cy)
    (r : RenderClosure) : RenderClosure :=
  foldl (λ r settings, (on_render settings cy r).1) r events.

(** [extension_settings.timeline.lockNodes] is truthy. *)
Definition lockNodes_on (settings : option Settings) : bool :=
  match settings with
  | Some tl => truthy (default JUndefined (tl !! "lockNodes"))
  | None => false
  end.

End Notions.

(** * Worked examples

    A small graph with a root node that belongs to no chat session, a node
    shared by two sessions, a name that occurs twice and a colour that
    occurs twice. *)

Definition n_root : Node := mkNode "root" None None None None.
Definition n_a : Node :=
  mkNode "a" (Some "Alice") (Some "Hello there") (Some "chat1")
    (Some ["chat1"]).
Definition n_b : Node :=
  mkNode "b" (Some "Bob") (Some "General Kenobi") (Some "chat1")
    (Some ["chat1"; "chat2"]).
Definition n_c : Node :=
  mkNode "c" (Some "Alice") (Some "Again") (Some "chat2") (Some ["chat2"]).

Definition demo_cy : Cy :=
  mkCy [n_root; n_a; n_b; n_c]
    [ mkEdge (Some "#555") None;
      mkEdge (Some "#ff0000") (Some "Bookmark - 1");
      mkEdge (Some "#555") (Some "late") ].

(** A page with the modal open: the containers and the search field are
    there, the legend is empty, the settings exist. *)
Definition demo_page : State :=
  mkState (Some ∅) None None layout_empty None true (Some []) (Some EmptyString)
    ∅ None [] 1 ∅ [].

Definition demo_context : Context :=
  mkContext (JStr "0") JUndefined []
    {[ "0" := mkCharacter (JStr "alice.png") ]}.

(** The legend of [demo_cy] built on [demo_page], its first row clicked,
    and the second row of that legend. *)
Definition demo_locked : State :=
  @legend_run demo_host [ev_createLegend demo_cy; ev_click 0] demo_page.

Definition demo_item : LegendItem :=
  default (mkItem EmptyString (symbol_circle EmptyString) EmptyString false)
    (legend_item 1 demo_locked).

Definition demo_control : Control :=
  mkControl plain_input (JStr "30") false JUndefined.

(** The legend of [demo_cy] freshly built on [demo_page], and its second
    row. *)
Definition demo_built : State :=
  @legend_run demo_host [ev_createLegend demo_cy] demo_page.

Definition demo_row : LegendItem :=
  default (mkItem EmptyString (symbol_circle EmptyString) EmptyString false)
    (legend_item 1 demo_built).

(** [demo_page] with the width slider on it. *)
Definition demo_settings_page : State :=
  set_controls {[ "tl_node_width" := demo_control ]} demo_page.

(** A context whose character is not among the characters, and one with
    neither character nor group. *)
Definition demo_missing_context : Context :=
  mkContext (JStr "7") JUndefined [] ∅.

Definition demo_empty_context : Context :=
  mkContext (JNum 0) JUndefined [] ∅.

(** What [demo_host] prepares for [demo_context]. *)
Definition demo_data : list Element :=
  [ group_nodes
      (mkNode "alice.png" (Some "alice.png") None (Some "alice.png")
         (Some ["alice.png"])) ].

(** Two group chats: in a group chat [characterId] is [undefined] and
    [groupId] names the group. *)
Definition demo_groups : list Group :=
  [ mkGroup (JStr "g1") ["g1-chat"];
    mkGroup (JStr "g2") ["g2-chat-a"; "g2-chat-b"] ].

Definition demo_group1 : Context :=
  mkContext JUndefined (JStr "g1") demo_groups ∅.

Definition demo_group2 : Context :=
  mkContext JUndefined (JStr "g2") demo_groups ∅.

(** What [demo_host] prepares for the first group. *)
Definition demo_group1_data : list Element :=
  [ group_nodes
      (mkNode "g1-chat" None None (Some "g1-chat") (Some ["g1-chat"])) ].

(** A page with the width and the spacing controls, and stored settings
    that hold a node width of 40 and nothing else. *)
Definition demo_stored_page : State :=
  set_timeline (Some {[ "nodeWidth" := JNum 40 ]})
    (set_controls
       {[ "tl_node_width" := demo_control;
          "tl_spacing_factor" := demo_control ]}
       demo_page).

(** * Properties *)

Section Properties.

Context `{Host}.

(** ** Bookkeeping *)

Lemma issued_emit s c : issued s (emit c s) = [c].
Proof. unfold issued; simpl. by rewrite drop_app_length. Qed.

Lemma issued_emit2 s c d : issued s (emit d (emit c s)) = [c; d].
Proof.
  unfold issued; simpl. rewrite <- app_assoc. by rewrite drop_app_length.
Qed.

Lemma issued_refl s : issued s s = [].
Proof. unfold issued. by rewrite drop_all. Qed.

(** ** Strings *)

Lemma string_app_nil b : EmptyString +:+ b = b.
Proof. reflexivity. Qed.

Lemma string_app_cons c a b : String c a +:+ b = String c (a +:+ b).
Proof. reflexivity. Qed.

Lemma prefix_spec q : ∀ s,
  String.prefix q s = true ↔ ∃ rest, s = q +:+ rest.
Proof.
  induction q as [|c q IH]; intros s.
  - assert (String.prefix EmptyString s = true) as -> by (by destruct s).
    split; [intros _; by exists s | done].
  - destruct s as [|d s]; cbn [String.prefix].
    + split; [done | intros (rest & Hrest); done].
    + destruct (ascii_dec c d) as [->|Hne].
      * rewrite IH. split.
        -- intros (rest & ->). by exists rest.
        -- intros (rest & Heq). rewrite string_app_cons in Heq.
           injection Heq as ->. by exists rest.
      * split; [done|]. intros (rest & Heq).
        rewrite string_app_cons in Heq. by injection Heq as <- _.
Qed.

Lemma includes_spec q : ∀ s,
  includes s q = true ↔ ∃ before after, s = before +:+ q +:+ after.
Proof.
  induction s as [|c s IH]; cbn [includes].
  - rewrite orb_false_r, prefix_spec. split.
    + intros (rest & Hrest). by exists EmptyString, rest.
    + intros ([|d before] & after & Heq); [by exists after | done].
  - rewrite orb_true_iff, prefix_spec, IH. split.
    + intros [(rest & Hrest)|(before & after & ->)].
      * by exists EmptyString, rest.
      * by exists (String c before), after.
    + intros ([|d before] & after & Heq).
      * left. by exists after.
      * right. rewrite string_app_cons in Heq.
        injection Heq as <- ->. by exists before, after.
Qed.

Lemma list_ascii_app a b :
  list_ascii_of_string (a +:+ b)
  = (list_ascii_of_string a ++ list_ascii_of_string b)%list.
Proof. induction a as [|c a IH]; simpl; [done | by rewrite IH]. Qed.

Lemma list_ascii_inj a b :
  list_ascii_of_string a = list_ascii_of_string b → a = b.
Proof.
  intros Heq.
  rewrite <- (string_of_list_ascii_of_string a),
    <- (string_of_list_ascii_of_string b). by rewrite Heq.
Qed.

Lemma split_first_prefix sep : ∀ s,
  ∃ rest, s = split_first sep s +:+ rest.
Proof.
  induction s as [|c s IH]; cbn [split_first].
  - exists EmptyString. by destruct (String.prefix sep EmptyString).
  - destruct (String.prefix sep (String c s)).
    + by exists (String c s).
    + destruct IH as (rest & Hrest). exists rest.
      rewrite string_app_cons. by rewrite <- Hrest.
Qed.

Lemma prefix_empty_false sep :
  sep ≠ EmptyString → String.prefix sep EmptyString = false.
Proof. by destruct sep. Qed.

Lemma split_first_earliest sep : ∀ s pre rest,
  s = pre +:+ sep +:+ rest →
  ∃ more, pre = split_first sep s +:+ more.
Proof.
  induction s as [|c s IH]; intros pre rest Hs; cbn [split_first].
  - destruct (String.prefix sep EmptyString); [by exists pre|].
    destruct pre; [by exists EmptyString | done].
  - destruct (String.prefix sep (String c s)) eqn:Hpre; [by exists pre|].
    destruct pre as [|c' pre].
    + assert (String.prefix sep (String c s) = true); [|congruence].
      apply prefix_spec. by exists rest.
    + rewrite string_app_cons in Hs. injection Hs as <- Hs.
      destruct (IH _ _ Hs) as (more & Hmore). exists more.
      by rewrite string_app_cons, <- Hmore.
Qed.

(** What [split_first] returns for a non-empty separator. *)
Lemma split_first_cut sep s :
  sep ≠ EmptyString →
  (includes s sep = false → split_first sep s = s)
  ∧ (includes s sep = true →
       ∃ rest, s = split_first sep s +:+ sep +:+ rest)
  ∧ includes (split_first sep s) sep = false.
Proof.
  intros Hsep.
  induction s as [|c s (IH1 & IH2 & IH3)].
  - cbn [split_first includes]. rewrite prefix_empty_false by done.
    cbn [includes]. rewrite prefix_empty_false by done. by split_and!.
  - cbn [split_first includes].
    destruct (String.prefix sep (String c s)) eqn:Hpre.
    + cbn [orb includes]. rewrite prefix_empty_false by done.
      split_and!; try done.
      intros _. apply prefix_spec in Hpre as (rest & Hrest). by exists rest.
    + cbn [orb]. split_and!.
      * intros Hinc. by rewrite IH1.
      * intros Hinc. destruct (IH2 Hinc) as (rest & Hrest). exists rest.
        rewrite string_app_cons. by rewrite <- Hrest.
      * cbn [includes]. rewrite IH3, orb_false_r.
        destruct (String.prefix sep (String c (split_first sep s))) eqn:Hp;
          [|done].
        apply prefix_spec in Hp as (x & Hx).
        destruct (split_first_prefix sep s) as (y & Hy).
        assert (String.prefix sep (String c s) = true) as Hcontra; [|congruence].
        apply prefix_spec. exists (x +:+ y).
        rewrite Hy at 1. rewrite <- string_app_cons, Hx.
        apply list_ascii_inj. rewrite !list_ascii_app. by rewrite app_assoc.
Qed.

(** The row text is the label cut at the first separator. *)
Lemma split_first_cut_at_first sep s :
  sep ≠ EmptyString → cut_at_first sep s (split_first sep s).
Proof.
  intros Hsep. destruct (split_first_cut sep s Hsep) as (Habs & Hocc & Hfree).
  unfold cut_at_first, occurs. split_and!.
  - intros Hno. apply Habs. apply not_true_is_false.
    by rewrite includes_spec.
  - intros Hyes. apply Hocc. by apply includes_spec.
  - intros Hin. apply includes_spec in Hin. congruence.
  - apply split_first_earliest.
Qed.

(** ** Node activation *)

Lemma more_than_one_spec node :
  more_than_one (n_chat_sessions node) = true ↔ several_sessions node.
Proof.
  unfold more_than_one, several_sessions.
  destruct (n_chat_sessions node) as [l|].
  - rewrite bool_decide_eq_true. split.
    + intros Hl. by exists l.
    + intros (l' & [= <-] & Hl). done.
  - split; [done | intros (l & Hl & _); done].
Qed.

Lemma on_tap_unfold node s :
  on_tap node s =
    (emit closeModal
       (if more_than_one (n_chat_sessions node) then s
        else emit (navigateToMessage (n_file_name node) (getNodeDepth node)) s),
     Some tt).
Proof.
  unfold on_tap, nodeClickHandler, bind, call, modify, ret.
  by destruct (more_than_one (n_chat_sessions node)).
Qed.

Lemma single_not_several node : single_session node → ¬ several_sessions node.
Proof.
  intros (session & Hone) (l & Hl & Hlen).
  rewrite Hone in Hl. injection Hl as <-. simpl in Hlen. lia.
Qed.

Lemma sessionless_not_several node :
  n_chat_sessions node = None ∨ n_chat_sessions node = Some [] →
  ¬ several_sessions node.
Proof.
  intros [Hnone|Hnil] (l & Hl & Hlen).
  - congruence.
  - rewrite Hnil in Hl. injection Hl as <-. simpl in Hlen. lia.
Qed.

(** C1 (amended): a tap on a node always returns, changes nothing but the
    calls logged, and always ends with [closeModal].  It asks for
    navigation exactly when the node is not associated with more than one
    chat session (one session, an empty list, or no [chat_sessions] at
    all), and then its calls are the one request, for [(file_name, depth)]
    of the node, followed by [closeModal]; with more than one session the
    only call is [closeModal]. *)
Theorem tap_navigates_unless_several_sessions (node : Node) (s : State) :
  (on_tap node s).2 = Some tt
  ∧ (tap_navigates node s ↔ ¬ several_sessions node)
  ∧ (¬ several_sessions node →
       issued s (on_tap node s).1 =
         [navigateToMessage (n_file_name node) (getNodeDepth node);
          closeModal])
  ∧ (several_sessions node → issued s (on_tap node s).1 = [closeModal])
  ∧ (single_session node ∨ n_chat_sessions node = None
     ∨ n_chat_sessions node = Some [] →
       issued s (on_tap node s).1 =
         [navigateToMessage (n_file_name node) (getNodeDepth node);
          closeModal])
  ∧ (on_tap node s).1 =
      mkState (timeline s) (currentlyHighlighted s) (lastContext s)
        (layout s) (lastTimelineData s) (myDiagramDiv s) (legendDiv s)
        (transparent_search s) (controls s) (showTimeout s) (timers s)
        (next_timer s) (tippies s)
        (calls s ++ issued s (on_tap node s).1).
Proof.
  unfold tap_navigates. rewrite on_tap_unfold. simpl.
  pose proof (more_than_one_spec node) as Hspec.
  destruct (more_than_one (n_chat_sessions node)) eqn:Hm.
  - assert (several_sessions node) as Hsev by (by apply Hspec).
    rewrite issued_emit. split_and!.
    + done.
    + split; [|done].
      intros (name & depth & Hin). apply list_elem_of_singleton in Hin. done.
    + done.
    + done.
    + intros [Hone|Hnone].
      * by apply single_not_several in Hone.
      * by apply sessionless_not_several in Hnone.
    + done.
  - assert (¬ several_sessions node) as Hnot.
    { intros Hsev. apply Hspec in Hsev. congruence. }
    rewrite issued_emit2. split_and!.
    + done.
    + split; [done|]. intros _. eexists _, _. apply list_elem_of_here.
    + done.
    + intros Hsev. done.
    + done.
    + unfold emit. cbn. by rewrite <- app_assoc.
Qed.

(** ** Settings *)

Lemma merge_default_spec entry s tl :
  timeline s = Some tl →
  ∃ s', merge_default entry s = (s', Some tt)
    ∧ timeline s' =
        Some (if decide (is_Some (tl !! entry.1)) then tl
              else <[entry.1 := entry.2]> tl)
    ∧ controls s' = controls s.
Proof.
  intros Htl. unfold merge_default, bind, get, deref, call, modify, ret.
  rewrite Htl. destruct (decide (is_Some (tl !! entry.1))); eauto.
Qed.

(** The merge loop: a key that is present keeps its value; a key that is
    missing takes the first default listed for it, if any. *)
Lemma for_each_merge_default l : ∀ s tl,
  timeline s = Some tl →
  ∃ s' m, for_each l merge_default s = (s', Some tt)
    ∧ timeline s' = Some m
    ∧ controls s' = controls s
    ∧ ∀ k, m !! k = match tl !! k with
                    | Some v => Some v
                    | None => (list_to_map l : Settings) !! k
                    end.
Proof.
  induction l as [|[k0 v0] l IH]; intros s tl Htl.
  - exists s, tl. split_and!; try done. intros k. by destruct (tl !! k).
  - destruct (merge_default_spec (k0, v0) s tl Htl) as (s1 & Hrun & Htl1 & Hc1).
    simpl in Htl1.
    destruct (IH s1 _ Htl1) as (s' & m & Hrun' & Hm & Hc' & Hlook).
    exists s', m. split_and!.
    + simpl. unfold bind at 1. by rewrite Hrun.
    + done.
    + congruence.
    + intros k. rewrite Hlook. simpl.
      destruct (decide (is_Some (tl !! k0))) as [[v Hv]|Hnone].
      * destruct (decide (k = k0)) as [->|Hne].
        -- by rewrite Hv.
        -- by rewrite lookup_insert_ne.
      * apply eq_None_not_Some in Hnone.
        destruct (decide (k = k0)) as [->|Hne].
        -- by rewrite Hnone, !lookup_insert_eq.
        -- by rewrite !lookup_insert_ne.
Qed.

Lemma loadSettings_merge_spec s :
  ∃ s1 m, loadSettings_merge s = (s1, Some tt)
    ∧ timeline s1 = Some m
    ∧ controls s1 = controls s
    ∧ ∀ k, m !! k = match default ∅ (timeline s) !! k with
                    | Some v => Some v
                    | None => (list_to_map defaultSettings : Settings) !! k
                    end.
Proof.
  unfold loadSettings_merge, bind at 1, get.
  destruct (timeline s) as [tl|] eqn:Htl.
  - unfold bind, ret at 1.
    destruct (for_each_merge_default defaultSettings s tl Htl)
      as (s' & m & Hrun & Hm & Hc & Hlook).
    exists s', m. by rewrite Hrun.
  - unfold bind, call, modify.
    cbn -[for_each defaultSettings set_timeline emit].
    set (s0 := set_timeline (Some ∅)
                 (emit (console_log "Creating extension_settings.timeline") s)).
    destruct (for_each_merge_default defaultSettings s0 ∅ eq_refl)
      as (s' & m & Hrun & Hm & Hc & Hlook).
    exists s', m. by rewrite Hrun.
Qed.

(** *** The refresh of the controls *)

Lemma bind_ret_tt (m : M unit) s : bind m (λ _, ret tt) s = m s.
Proof. unfold bind, ret. by destruct (m s) as [s' [[]|]]. Qed.

Lemma bind_ext {A B} (m : M A) (k1 k2 : A → M B) s :
  (∀ a s', k1 a s' = k2 a s') → bind m k1 s = bind m k2 s.
Proof. intros Hk. unfold bind. destruct (m s) as [s' [a|]]; auto. Qed.

Lemma loadSettings_update_ui_table s :
  loadSettings_update_ui s = for_each ui_refreshes refresh s.
Proof.
  unfold loadSettings_update_ui, ui_refreshes.
  cbn [for_each refresh].
  repeat (apply bind_ext; intros _ ?).
  symmetry. apply bind_ret_tt.
Qed.

Lemma onInputChange_spec id element settingName rgbaValue s tl :
  timeline s = Some tl →
  ∃ s', onInputChange id element settingName rgbaValue s = (s', Some tt)
    ∧ timeline s' = Some (<[settingName := input_value element rgbaValue]> tl)
    ∧ lastContext s' = None
    ∧ controls s' = controls s.
Proof.
  intros Htl.
  unfold onInputChange, bind, get, deref, ret, modify, call. rewrite Htl.
  destruct (isNaN (input_value element rgbaValue)); eauto.
Qed.

Lemma on_input_spec id key s tl :
  timeline s = Some tl →
  includes id "color-picker" = false →
  setting_of_id id = Some key →
  ∃ s', on_input id s = (s', Some tt)
    ∧ timeline s' =
        Some (match controls s !! id with
              | Some c => <[key := input_value c JNull]> tl
              | None => tl
              end)
    ∧ controls s' = controls s.
Proof.
  intros Htl Hcp Hmap. unfold on_input, bind at 1, get.
  destruct (controls s !! id) as [c|] eqn:Hc.
  - rewrite Hcp, Hmap.
    destruct (onInputChange_spec id c key JNull s tl Htl)
      as (s' & Hrun & Ht & _ & Hctl).
    exists s'. by rewrite Hrun.
  - by exists s.
Qed.

Lemma refresh_spec r s m :
  timeline s = Some m →
  wired r →
  ∃ s', refresh r s = (s', Some tt)
    ∧ timeline s' =
        Some (match r.1, controls s !! r.2.1 with
              | by_color, _ | _, None => m
              | k, Some c =>
                  <[r.2.2 := read_back k r.2.1 (settings_get m r.2.2) c]> m
              end)
    ∧ ∀ id', id' ≠ r.2.1 → controls s' !! id' = controls s !! id'.
Proof.
  intros Hm Hw. destruct r as [k [id key]].
  destruct k; unfold wired in Hw; cbn [fst snd] in *.
  - destruct Hw as [Hcp Hmap].
    unfold refresh, refresh_val, timeline_get, jq_val, bind, get, deref,
      ret, modify.
    rewrite Hm. cbn beta iota.
    match goal with |- context [on_input id ?s1] =>
      destruct (on_input_spec id key s1 m Hm Hcp Hmap)
        as (s' & Hrun & Ht & Hctl); rewrite Hrun end.
    exists s'. split; [done|]. split.
    + rewrite Ht. cbn [controls set_controls]. rewrite lookup_alter_eq.
      by destruct (controls s !! id).
    + intros id' Hne. rewrite Hctl. cbn [controls set_controls].
      by rewrite lookup_alter_ne.
  - destruct Hw as [Hcp Hmap].
    unfold refresh, refresh_checked, timeline_get, jq_prop_checked, bind, get,
      deref, ret, modify.
    rewrite Hm. cbn beta iota.
    match goal with |- context [on_input id ?s1] =>
      destruct (on_input_spec id key s1 m Hm Hcp Hmap)
        as (s' & Hrun & Ht & Hctl); rewrite Hrun end.
    exists s'. split; [done|]. split.
    + rewrite Ht. cbn [controls set_controls]. rewrite lookup_alter_eq.
      by destruct (controls s !! id).
    + intros id' Hne. rewrite Hctl. cbn [controls set_controls].
      by rewrite lookup_alter_ne.
  - unfold refresh, refresh_color, timeline_get, bind, get, deref, ret,
      jq_attr_color, modify.
    rewrite Hm.
    eexists. split; [reflexivity|]. split; [done|].
    intros id' Hne. cbn [controls set_controls]. by rewrite lookup_alter_ne.
Qed.

(** Whatever the controls read back, the refresh returns and touches no
    setting other than those it writes back. *)
Lemma for_each_refresh_runs l : ∀ s m,
  timeline s = Some m →
  Forall wired l →
  ∃ s' m', for_each l refresh s = (s', Some tt)
    ∧ timeline s' = Some m'
    ∧ ∀ k, k ∉ written_back l → m' !! k = m !! k.
Proof.
  induction l as [|r l IH]; intros s m Hm Hw.
  - by exists s, m.
  - apply Forall_cons in Hw as [Hr Hw].
    destruct (refresh_spec r s m Hm Hr) as (s1 & Hrun & Ht1 & _).
    destruct (IH s1 _ Ht1 Hw) as (s' & m' & Hrun' & Ht' & Hframe).
    exists s', m'. split_and!.
    + cbn [for_each]. unfold bind at 1. by rewrite Hrun.
    + done.
    + intros k Hk. rewrite Hframe.
      * destruct r as [[] [id key]]; cbn [fst snd] in *;
          try done; destruct (controls s !! id); try done;
          rewrite lookup_insert_ne; try done;
          intros ->; apply Hk; unfold written_back; cbn; left.
      * intros Hin. apply Hk. unfold written_back in *.
        destruct r as [[] [id key]]; cbn; try done; by right.
Qed.

(** When every control reads back what was written to it, the refresh
    leaves the settings as they were. *)
Lemma for_each_refresh_faithful l : ∀ s m,
  timeline s = Some m →
  NoDup (l.*2.*1) →
  Forall wired l →
  Forall (λ r, is_Some (m !! r.2.2)) l →
  Forall (reads_back m (controls s)) l →
  ∃ s', for_each l refresh s = (s', Some tt) ∧ timeline s' = Some m.
Proof.
  induction l as [|r l IH]; intros s m Hm Hnd Hw Hkeys Hrb.
  - by exists s.
  - apply Forall_cons in Hw as [Hr Hw].
    apply Forall_cons in Hkeys as [[v Hv] Hkeys].
    apply Forall_cons in Hrb as [Hrb1 Hrb].
    rewrite !fmap_cons in Hnd. apply NoDup_cons in Hnd as [Hnotin Hnd].
    destruct (refresh_spec r s m Hm Hr) as (s1 & Hrun & Ht1 & Hctl).
    assert (timeline s1 = Some m) as Hm1.
    { rewrite Ht1. f_equal. unfold reads_back in Hrb1.
      destruct r as [k [id key]]; cbn [fst snd] in *.
      destruct k; try done; destruct (controls s !! id) as [c|]; try done;
        rewrite (Hrb1 c eq_refl); apply insert_id;
        unfold settings_get; by rewrite Hv. }
    destruct (IH s1 m Hm1 Hnd Hw Hkeys) as (s' & Hrun' & Ht').
    { apply Forall_forall. intros r' Hin.
      rewrite Forall_forall in Hrb. pose proof (Hrb r' Hin) as Hold.
      intros c Hc. apply Hold. rewrite <- Hctl; [done|].
      intros Heq. apply Hnotin. rewrite <- Heq.
      apply list_elem_of_fmap. exists r'.2. split; [done|].
      apply list_elem_of_fmap. by exists r'. }
    exists s'. split; [|done].
    cbn [for_each]. unfold bind at 1. by rewrite Hrun.
Qed.

Lemma ui_refreshes_wired : Forall wired ui_refreshes.
Proof.
  unfold ui_refreshes.
  repeat (apply Forall_cons; split; [by vm_compute|]).
  apply Forall_nil_2.
Qed.

Lemma ui_refreshes_NoDup : NoDup (ui_refreshes.*2.*1).
Proof. apply (bool_decide_unpack _). by vm_compute. Qed.

Lemma ui_refreshes_have_defaults :
  Forall (λ r : RefreshKind * (string * string),
            is_Some ((list_to_map defaultSettings : Settings) !! r.2.2))
    ui_refreshes.
Proof. apply (bool_decide_unpack _). by vm_compute. Qed.

Lemma ui_refreshes_keys_NoDup : NoDup (ui_refreshes.*2.*2).
Proof. apply (bool_decide_unpack _). by vm_compute. Qed.

Lemma written_back_keys l k : k ∈ written_back l → k ∈ l.*2.*2.
Proof.
  unfold written_back. intros (r & Hr & Hk)%list_elem_of_omap.
  apply list_elem_of_fmap. exists r.2. split.
  - by destruct r as [[] [id key]]; simplify_eq/=.
  - apply list_elem_of_fmap. by exists r.
Qed.

(** What a refresh leaves under the other settings and under its own. *)
Lemma refresh_lookup r s m :
  timeline s = Some m →
  wired r →
  ∃ s' m1, refresh r s = (s', Some tt)
    ∧ timeline s' = Some m1
    ∧ (∀ id', id' ≠ r.2.1 → controls s' !! id' = controls s !! id')
    ∧ (∀ k, k ≠ r.2.2 → m1 !! k = m !! k)
    ∧ m1 !! r.2.2 =
        match r.1, controls s !! r.2.1 with
        | by_color, _ | _, None => m !! r.2.2
        | kind, Some c =>
            Some (read_back kind r.2.1 (settings_get m r.2.2) c)
        end.
Proof.
  intros Hm Hw.
  destruct (refresh_spec r s m Hm Hw) as (s' & Hrun & Ht & Hctl).
  eexists s', _. split; [done|]. split; [exact Ht|]. split; [done|].
  destruct r as [kind [id key]]; cbn [fst snd] in *.
  destruct kind, (controls s !! id); split; try done;
    try (intros k Hk; by rewrite lookup_insert_ne);
    by rewrite lookup_insert_eq.
Qed.

(** The refresh of the controls, setting by setting: a setting that no
    refresh writes back is as before; the setting of a value control or
    of a checkbox that the page has is what the control reads back after
    the setting was written to it. *)
Lemma for_each_refresh_exact l : ∀ s m,
  timeline s = Some m →
  NoDup (l.*2.*1) →
  NoDup (l.*2.*2) →
  Forall wired l →
  ∃ s' m', for_each l refresh s = (s', Some tt)
    ∧ timeline s' = Some m'
    ∧ (∀ k, k ∉ l.*2.*2 → m' !! k = m !! k)
    ∧ (∀ r, r ∈ l →
         m' !! r.2.2 =
           match r.1, controls s !! r.2.1 with
           | by_color, _ | _, None => m !! r.2.2
           | kind, Some c =>
               Some (read_back kind r.2.1 (settings_get m r.2.2) c)
           end).
Proof.
  induction l as [|r l IH]; intros s m Hm Hids Hkeys Hw.
  - exists s, m. split_and!; try done. by intros r ?%elem_of_nil.
  - apply Forall_cons in Hw as [Hr Hw].
    rewrite !fmap_cons in Hids, Hkeys.
    apply NoDup_cons in Hids as [Hid Hids].
    apply NoDup_cons in Hkeys as [Hkey Hkeys].
    destruct (refresh_lookup r s m Hm Hr)
      as (s1 & m1 & Hrun & Ht1 & Hctl & Hother & Hown).
    destruct (IH s1 m1 Ht1 Hids Hkeys Hw)
      as (s' & m' & Hrun' & Ht' & Hframe & Hexact).
    exists s', m'. split_and!.
    + cbn [for_each]. unfold bind at 1. by rewrite Hrun.
    + done.
    + intros k Hk. rewrite !fmap_cons, not_elem_of_cons in Hk.
      destruct Hk as [Hne Hk]. by rewrite Hframe, Hother.
    + intros r' [->|Hin]%elem_of_cons.
      * by rewrite Hframe, Hown.
      * assert (r'.2.1 ≠ r.2.1) as Hne_id.
        { intros Heq. apply Hid. rewrite <- Heq.
          apply list_elem_of_fmap. exists r'.2. split; [done|].
          apply list_elem_of_fmap. by exists r'. }
        assert (r'.2.2 ≠ r.2.2) as Hne_key.
        { intros Heq. apply Hkey. rewrite <- Heq.
          apply list_elem_of_fmap. exists r'.2. split; [done|].
          apply list_elem_of_fmap. by exists r'. }
        rewrite (Hexact r' Hin), (Hctl _ Hne_id), (Hother _ Hne_key).
        unfold settings_get. by rewrite (Hother _ Hne_key).
Qed.

(** C8 (amended): loading settings on any settings object, also an absent
    one, returns.  Its merge (lines 98-110) keeps the value of every key
    that was present and gives a missing key its default when it is an
    option key and nothing otherwise.  The refresh of the controls that
    follows (lines 113-127) leaves every setting as merged but the eleven
    bound to a value control or a checkbox: such a setting, when the page
    has its control, is replaced by what the control reads back after the
    merged value was written to it, and is left as merged when the page
    has not: for a value control the setting becomes what [.val()]
    returns after [.val(v)], for a checkbox the truthiness of the value.
    So the settings are as merged when the page has none of these
    controls, or when each reads back the very value written. *)
Theorem loadSettings_fills_missing_and_rereads_controls (s : State) :
  let pre : Settings := default ∅ (timeline s) in
  ∃ s1 m,
    loadSettings_merge s = (s1, Some tt)
    ∧ timeline s1 = Some m
    ∧ (∀ k v, pre !! k = Some v → m !! k = Some v)
    ∧ (∀ k, pre !! k = None →
            m !! k = (list_to_map defaultSettings : Settings) !! k)
    ∧ (∃ s2 m2,
         loadSettings s = (s2, Some tt)
         ∧ timeline s2 = Some m2
         ∧ (∀ k, k ∉ written_back ui_refreshes → m2 !! k = m !! k)
         ∧ (∀ kind id key,
              (kind, (id, key)) ∈ ui_refreshes → kind ≠ by_color →
              m2 !! key =
                match controls s !! id with
                | Some c => Some (read_back kind id (settings_get m key) c)
                | None => m !! key
                end)
         ∧ (∀ id key c,
              (by_val, (id, key)) ∈ ui_refreshes →
              controls s !! id = Some c → ctl_kind c = plain_input →
              m2 !! key = Some (val_written id (settings_get m key)))
         ∧ (∀ id key c,
              (by_checked, (id, key)) ∈ ui_refreshes →
              controls s !! id = Some c → ctl_kind c = checkbox →
              settings_get m key ≠ JUndefined →
              m2 !! key = Some (JBool (truthy (settings_get m key))))
         ∧ ((∀ r, r ∈ ui_refreshes → triggers (controls s) r = false) →
            m2 = m)
         ∧ (Forall (reads_back m (controls s)) ui_refreshes → m2 = m)).
Proof.
  intros pre.
  destruct (loadSettings_merge_spec s) as (s1 & m & Hrun & Hm & Hctl & Hlook).
  fold pre in Hlook.
  exists s1, m. split_and!; try done.
  - intros k v Hk. by rewrite Hlook, Hk.
  - intros k Hk. by rewrite Hlook, Hk.
  - destruct (for_each_refresh_exact ui_refreshes s1 m Hm
                ui_refreshes_NoDup ui_refreshes_keys_NoDup ui_refreshes_wired)
      as (s2 & m2 & Hrun2 & Hm2 & Hframe & Hexact).
    exists s2, m2.
    assert (loadSettings s = (s2, Some ())) as Hload.
    { unfold loadSettings, bind. rewrite Hrun.
      by rewrite loadSettings_update_ui_table. }
    assert (∀ k, k ∉ written_back ui_refreshes → m2 !! k = m !! k) as Hrest.
    { intros k Hk.
      destruct (decide (k ∈ ui_refreshes.*2.*2)) as [Hin|Hnot];
        [|by apply Hframe].
      apply list_elem_of_fmap in Hin as (idkey & -> & Hin).
      apply list_elem_of_fmap in Hin as (r & -> & Hin).
      rewrite (Hexact r Hin).
      destruct r as [kind [id key]]; cbn [fst snd] in *.
      destruct kind; try done; exfalso; apply Hk; unfold written_back;
        apply list_elem_of_omap; by eexists (_, (id, key)). }
    assert (∀ kind id key,
              (kind, (id, key)) ∈ ui_refreshes → kind ≠ by_color →
              m2 !! key =
                match controls s !! id with
                | Some c => Some (read_back kind id (settings_get m key) c)
                | None => m !! key
                end) as Hown.
    { intros kind id key Hin Hkind. pose proof (Hexact _ Hin) as Hkey.
      cbn [fst snd] in Hkey. rewrite Hkey, Hctl.
      by destruct kind, (controls s !! id). }
    split_and!; try done.
    + intros id key c Hin Hc Hkind.
      rewrite (Hown _ _ _ Hin) by done. rewrite Hc.
      unfold read_back, input_value. cbn [ctl_kind ctl_value].
      by rewrite Hkind.
    + intros id key c Hin Hc Hkind Hdef.
      rewrite (Hown _ _ _ Hin) by done. rewrite Hc.
      unfold read_back, input_value. cbn [ctl_kind ctl_checked].
      rewrite Hkind. by destruct (settings_get m key).
    + intros Hnone. apply map_eq. intros k.
      destruct (decide (k ∈ written_back ui_refreshes)) as [Hin|Hnot];
        [|by apply Hrest].
      apply list_elem_of_omap in Hin as ([kind [id key]] & Hin & Hk).
      pose proof (Hnone _ Hin) as Htrig. unfold triggers in Htrig.
      cbn [fst snd] in *.
      destruct kind; simplify_eq/=; rewrite (Hown _ _ _ Hin) by done;
        apply bool_decide_eq_false in Htrig;
        destruct (controls s !! id) eqn:Hc; try done;
        exfalso; apply Htrig; by eexists.
    + intros Hrb.
      destruct (for_each_refresh_faithful ui_refreshes s1 m Hm
                  ui_refreshes_NoDup ui_refreshes_wired)
        as (s2' & Hrun2' & Hm2').
      * eapply Forall_impl; [exact ui_refreshes_have_defaults|].
        intros r [v Hv]. rewrite Hlook.
        destruct (pre !! r.2.2); [done|]. by rewrite Hv.
      * by rewrite Hctl.
      * rewrite Hrun2 in Hrun2'. injection Hrun2' as ->. congruence.
Qed.

(** ** The legend builder *)

Lemma filter_filter_bool {A} (p q : A → bool) l :
  List.filter p (List.filter q l) = List.filter (λ x, p x && q x) l.
Proof.
  induction l as [|x l IH]; [done|]. simpl.
  destruct (q x); simpl; rewrite ?andb_true_r, ?andb_false_r.
  - destruct (p x); by rewrite IH.
  - done.
Qed.

Lemma filter_all_true {A} (p : A → bool) l :
  (∀ x, x ∈ l → p x = true) → List.filter p l = l.
Proof.
  induction l as [|x l IH]; intros Hall; [done|]. simpl.
  rewrite (Hall x) by apply list_elem_of_here.
  f_equal. apply IH. intros y Hy. apply Hall. by apply list_elem_of_further.
Qed.

Lemma elem_of_filter_bool {A} (p : A → bool) l x :
  x ∈ List.filter p l ↔ x ∈ l ∧ p x = true.
Proof. rewrite !list_elem_of_In. apply filter_In. Qed.

Lemma dedup_loop_first_by {A} (key : A → option string) l : ∀ seen,
  dedup_loop key l seen = List.filter (λ x, fresh seen (key x)) (first_by key l).
Proof.
  induction l as [|x l IH]; intros seen; [done|].
  simpl. destruct (key x) as [k|] eqn:Hk; [|apply IH].
  simpl. rewrite Hk. simpl. rewrite filter_filter_bool.
  case_bool_decide as Hseen.
  - rewrite bool_decide_false by (intros Hn; by apply Hn).
    rewrite IH. apply List.filter_ext. intros y. unfold has_key.
    destruct (key y) as [k'|]; simpl; [|done].
    destruct (decide (k' = k)) as [->|Hne].
    + rewrite (bool_decide_true (Some k = Some k)) by done.
      simpl. rewrite andb_false_r.
      apply bool_decide_false. intros Hn. by apply Hn.
    + rewrite (bool_decide_false (Some k' = Some k)) by congruence.
      simpl. by rewrite andb_true_r.
  - rewrite bool_decide_true by done. f_equal.
    rewrite IH. apply List.filter_ext. intros y. unfold has_key.
    destruct (key y) as [k'|]; simpl; [|done].
    destruct (decide (k' = k)) as [->|Hne].
    + rewrite (bool_decide_true (Some k = Some k)) by done.
      simpl. rewrite andb_false_r.
      apply bool_decide_false. intros Hn. apply Hn.
      apply elem_of_union_l. by apply elem_of_singleton.
    + rewrite (bool_decide_false (Some k' = Some k)) by congruence.
      simpl. rewrite andb_true_r. apply bool_decide_ext.
      rewrite not_elem_of_union, not_elem_of_singleton. tauto.
Qed.

Lemma first_by_keyed {A} (key : A → option string) l x :
  x ∈ first_by key l → x ∈ l ∧ is_Some (key x).
Proof.
  induction l as [|y l IH]; simpl; [by intros ?%elem_of_nil|].
  destruct (key y) as [k|] eqn:Hk.
  - intros [->|Hin]%elem_of_cons.
    + split; [apply list_elem_of_here | by rewrite Hk].
    + apply elem_of_filter_bool in Hin as [Hin _].
      destruct (IH Hin). split; [by apply list_elem_of_further | done].
  - intros Hin. destruct (IH Hin).
    split; [by apply list_elem_of_further | done].
Qed.

Lemma dedup_loop_empty {A} (key : A → option string) l :
  dedup_loop key l ∅ = first_by key l.
Proof.
  rewrite dedup_loop_first_by. apply filter_all_true.
  intros x [_ [k Hk]]%first_by_keyed. rewrite Hk. simpl.
  apply bool_decide_true. apply not_elem_of_empty.
Qed.

Lemma sublist_filter_bool {A} (p : A → bool) l :
  sublist (List.filter p l) l.
Proof.
  induction l as [|x l IH]; simpl; [constructor|].
  destruct (p x); by constructor.
Qed.

Lemma first_by_sublist {A} (key : A → option string) l :
  sublist (first_by key l) l.
Proof.
  induction l as [|x l IH]; simpl; [constructor|].
  destruct (key x).
  - apply sublist_skip. etrans; [apply sublist_filter_bool | exact IH].
  - by apply sublist_cons.
Qed.

Lemma first_by_NoDup {A} (key : A → option string) l :
  NoDup (key <$> first_by key l).
Proof.
  induction l as [|x l IH]; simpl; [constructor|].
  destruct (key x) as [k|] eqn:Hk; [|done].
  rewrite fmap_cons, Hk. apply NoDup_cons. split.
  - intros (y & Hy & Hin)%list_elem_of_fmap.
    apply elem_of_filter_bool in Hin as [_ Hp].
    unfold has_key in Hp. rewrite bool_decide_true in Hp by done. done.
  - eapply sublist_NoDup; [exact IH|].
    apply fmap_sublist, sublist_filter_bool.
Qed.

Lemma first_by_is_first {A} (key : A → option string) l x :
  x ∈ first_by key l →
  ∃ k, key x = Some k ∧ List.find (has_key key k) l = Some x.
Proof.
  induction l as [|y l IH]; simpl; [by intros ?%elem_of_nil|].
  destruct (key y) as [ky|] eqn:Hky.
  - intros [->|Hin]%elem_of_cons.
    + exists ky. split; [done|]. unfold has_key.
      by rewrite bool_decide_true.
    + apply elem_of_filter_bool in Hin as [Hin Hp].
      destruct (IH Hin) as (k & Hkx & Hfind). exists k. split; [done|].
      unfold has_key in *. rewrite Hkx in Hp.
      rewrite bool_decide_false; [done|].
      rewrite Hky. intros [= ->]. by rewrite bool_decide_true in Hp.
  - intros Hin. destruct (IH Hin) as (k & Hkx & Hfind).
    exists k. split; [done|]. unfold has_key in *.
    rewrite bool_decide_false; [done|]. by rewrite Hky.
Qed.

Lemma first_by_complete {A} (key : A → option string) l x k :
  x ∈ l → key x = Some k → ∃ y, y ∈ first_by key l ∧ key y = Some k.
Proof.
  induction l as [|z l IH]; simpl; [by intros ?%elem_of_nil|].
  intros Hin Hkx. destruct (key z) as [kz|] eqn:Hkz.
  - destruct (decide (kz = k)) as [->|Hne].
    + exists z. split; [apply list_elem_of_here | done].
    + apply elem_of_cons in Hin as [->|Hin]; [congruence|].
      destruct (IH Hin Hkx) as (y & Hy & Hky). exists y. split; [|done].
      apply list_elem_of_further, elem_of_filter_bool. split; [done|].
      unfold has_key. rewrite bool_decide_false; [done|]. congruence.
  - apply elem_of_cons in Hin as [->|Hin]; [congruence|]. by apply IH.
Qed.

Lemma first_by_first_occurrences {A} (key : A → option string) l :
  first_occurrences key l (first_by key l).
Proof.
  split_and!.
  - apply first_by_sublist.
  - apply first_by_NoDup.
  - apply first_by_is_first.
  - apply first_by_complete.
Qed.

Lemma truthy_key_Some o k :
  truthy_key o = Some k ↔ o = Some k ∧ k ≠ EmptyString.
Proof.
  unfold truthy_key, truthy_str. destruct o as [k'|].
  - destruct (String.eqb_spec k' EmptyString) as [->|Hne]; simpl.
    + split; [done | intros [[= <-] Hne]; done].
    + split; [intros [= <-]; done | intros [[= <-] _]; done].
  - split; [done | intros [? _]; done].
Qed.

Lemma legend_nodes_loop nodes : ∀ seen container,
  legend_nodes nodes seen container =
    (container ++ ((λ n, item_of circle (node_entry n))
                     <$> dedup_loop node_key nodes seen))%list.
Proof.
  induction nodes as [|node nodes IH]; intros seen container;
    cbn [legend_nodes dedup_loop].
  - by rewrite app_nil_r.
  - unfold node_key at 1, truthy_key.
    destruct (n_name node) as [name|] eqn:Hname; [|apply IH].
    destruct (truthy_str (Some name)) eqn:Ht; cbn [andb]; [|apply IH].
    case_bool_decide as Hseen; cbn [negb]; [apply IH|].
    rewrite IH. unfold createLegendItem. rewrite <- app_assoc.
    rewrite fmap_cons. cbn [app].
    do 2 f_equal. unfold item_of, node_entry, node_key, truthy_key.
    by rewrite Hname, Ht.
Qed.

Lemma legend_edges_loop edges : ∀ (edgeColors : gmap string (option string))
    container,
  legend_edges edges edgeColors container =
    (container ++ ((λ e, item_of line (edge_entry e))
                     <$> dedup_loop edge_key edges (dom edgeColors)))%list.
Proof.
  induction edges as [|edge edges IH]; intros edgeColors container;
    cbn [legend_edges dedup_loop].
  - by rewrite app_nil_r.
  - unfold edge_key at 1, truthy_key.
    destruct (e_color edge) as [color|] eqn:Hcolor; [|apply IH].
    destruct (truthy_str (Some color)) eqn:Ht; cbn [andb]; [|apply IH].
    rewrite (bool_decide_ext (is_Some (edgeColors !! color))
               (color ∈ dom edgeColors)) by (by rewrite elem_of_dom).
    case_bool_decide as Hseen; cbn [negb]; [apply IH|].
    rewrite IH, dom_insert_L. unfold createLegendItem.
    rewrite <- app_assoc. rewrite fmap_cons. cbn [app].
    do 2 f_equal. unfold item_of, edge_entry, edge_key, truthy_key.
    by rewrite Hcolor, Ht.
Qed.

Lemma edge_label_spec bookmarkName color :
  edge_label bookmarkName color =
    match bookmarkName with
    | Some b => if decide (b = EmptyString) then "Path of " +:+ color else b
    | None => "Path of " +:+ color
    end.
Proof.
  unfold edge_label, truthy_str. destruct bookmarkName as [b|]; [|done].
  destruct (String.eqb_spec b EmptyString); by case_decide.
Qed.

(** C4 (amended): on a page that has the legend container, [createLegend]
    returns and replaces whatever the container held: the new content does
    not depend on the old.  It holds first one row per distinct non-empty
    node name, in the order the names are first seen among the nodes, then
    one row per distinct non-empty edge colour, in first-seen order.  The
    row of a name selects the nodes of that name; the row of a colour
    selects the edges of that colour, and its label is the [bookmarkName]
    of the first edge of that colour, or ["Path of " + colour] when that
    edge has no [bookmarkName] (none, or the empty string).  What a row
    shows is its label up to the first [" - "]: the whole label when
    [" - "] does not occur in it, and otherwise the part of the label
    before the first occurrence.  No row is marked active, and nothing
    else of the state changes. *)
Theorem createLegend_regenerates (cy : Cy) (s : State)
    (old : list LegendItem) :
  legendDiv s = Some old →
  ∃ s' nodes edges,
    createLegend cy s = (s', Some tt)
    ∧ first_occurrences node_key (cy_nodes cy) nodes
    ∧ first_occurrences edge_key (cy_edges cy) edges
    ∧ legendDiv s' =
        Some (((λ n, item_of circle (node_entry n)) <$> nodes)
              ++ ((λ e, item_of line (edge_entry e)) <$> edges))%list
    ∧ (∀ node, node ∈ nodes →
         ∃ name,
           n_name node = Some name ∧ name ≠ EmptyString
           ∧ let row := item_of circle (node_entry node) in
             li_selector row = node_selector name
             ∧ li_symbol row = symbol_circle (background_color node)
             ∧ li_text row = split_first " - " name
             ∧ cut_at_first " - " name (li_text row)
             ∧ li_active row = false)
    ∧ (∀ edge, edge ∈ edges →
         ∃ color label,
           e_color edge = Some color ∧ color ≠ EmptyString
           ∧ label =
               match e_bookmarkName edge with
               | Some b =>
                   if decide (b = EmptyString) then "Path of " +:+ color
                   else b
               | None => "Path of " +:+ color
               end
           ∧ let row := item_of line (edge_entry edge) in
             li_selector row = edge_selector color
             ∧ li_symbol row =
                 symbol_line ("3px solid " +:+ color) "5px" "25px"
             ∧ li_text row = split_first " - " label
             ∧ cut_at_first " - " label (li_text row)
             ∧ li_active row = false)
    ∧ s' = set_legendDiv (legendDiv s') s.
Proof.
  intros Hold.
  exists (set_legendDiv
            (Some (legend_edges (cy_edges cy) ∅
                     (legend_nodes (cy_nodes cy) ∅ []))) s),
    (first_by node_key (cy_nodes cy)), (first_by edge_key (cy_edges cy)).
  split_and!.
  - unfold createLegend, bind, get, deref, ret, modify. by rewrite Hold.
  - apply first_by_first_occurrences.
  - apply first_by_first_occurrences.
  - cbn [legendDiv set_legendDiv]. f_equal.
    rewrite legend_edges_loop, legend_nodes_loop, dom_empty_L.
    by rewrite !dedup_loop_empty.
  - intros node (k & Hk & _)%first_by_is_first.
    exists k. unfold node_entry. rewrite Hk.
    apply truthy_key_Some in Hk as [Hname Hne].
    split_and!; try done.
    cbn [item_of selector_of symbol_of le_text le_color li_text default
         from_option id].
    by apply split_first_cut_at_first.
  - intros edge (k & Hk & _)%first_by_is_first.
    exists k, (edge_label (e_bookmarkName edge) k).
    unfold edge_entry. rewrite Hk.
    apply truthy_key_Some in Hk as [Hc Hne].
    split_and!; try done.
    + apply edge_label_spec.
    + cbn [item_of selector_of symbol_of le_text le_color li_text default
           from_option id].
      by apply split_first_cut_at_first.
  - done.
Qed.

(** ** The legend lock *)

Lemma string_app_inv_tail a b suffix :
  a +:+ suffix = b +:+ suffix → a = b.
Proof.
  intros Heq. apply list_ascii_inj.
  apply (f_equal list_ascii_of_string) in Heq.
  rewrite !list_ascii_app in Heq. by apply app_inv_tail in Heq.
Qed.

Lemma string_app_inv_head prefix a b :
  prefix +:+ a = prefix +:+ b → a = b.
Proof.
  intros Heq. apply list_ascii_inj.
  apply (f_equal list_ascii_of_string) in Heq.
  rewrite !list_ascii_app in Heq. by apply app_inv_head in Heq.
Qed.

Lemma node_selector_inj a b : node_selector a = node_selector b → a = b.
Proof.
  unfold node_selector. intros Heq.
  do 2 apply string_app_inv_head in Heq.
  by apply string_app_inv_tail in Heq.
Qed.

Lemma edge_selector_inj a b : edge_selector a = edge_selector b → a = b.
Proof.
  unfold edge_selector. intros Heq.
  do 2 apply string_app_inv_head in Heq.
  by apply string_app_inv_tail in Heq.
Qed.

Lemma node_edge_selector a b : node_selector a ≠ edge_selector b.
Proof.
  unfold node_selector, edge_selector. intros Heq.
  apply (f_equal list_ascii_of_string) in Heq.
  rewrite !list_ascii_app in Heq. simpl in Heq. congruence.
Qed.

Lemma node_selector_nonempty a : node_selector a ≠ EmptyString.
Proof.
  unfold node_selector. intros Heq.
  apply (f_equal list_ascii_of_string) in Heq.
  rewrite !list_ascii_app in Heq. simpl in Heq. congruence.
Qed.

Lemma edge_selector_nonempty a : edge_selector a ≠ EmptyString.
Proof.
  unfold edge_selector. intros Heq.
  apply (f_equal list_ascii_of_string) in Heq.
  rewrite !list_ascii_app in Heq. simpl in Heq. congruence.
Qed.

Lemma selectors_NoDup {A} (key : A → option string) (sel : string → string)
    (l : list A) :
  (∀ a b, sel a = sel b → a = b) →
  (∀ x, x ∈ l → is_Some (key x)) →
  NoDup (key <$> l) →
  NoDup ((λ x, sel (default EmptyString (key x))) <$> l).
Proof.
  intros Hinj Hkeyed Hnd.
  change (NoDup ((λ x, (λ o, sel (default EmptyString o)) (key x)) <$> l)).
  rewrite (list_fmap_compose key (λ o, sel (default EmptyString o))).
  apply NoDup_fmap_2_strong; [|done].
  intros x y Hx Hy Heq. apply Hinj in Heq.
  apply list_elem_of_fmap in Hx as (x' & -> & Hx').
  apply list_elem_of_fmap in Hy as (y' & -> & Hy').
  destruct (Hkeyed x' Hx') as [a Ha], (Hkeyed y' Hy') as [b Hb].
  rewrite Ha, Hb in *. simpl in Heq. by rewrite Heq.
Qed.

(** The legend [createLegend] builds has pairwise distinct, non-empty
    selectors and no active item. *)
Lemma built_legend_selectors nodes edges :
  let items :=
    (((λ n, item_of circle (node_entry n)) <$> first_by node_key nodes)
     ++ ((λ e, item_of line (edge_entry e)) <$> first_by edge_key edges))%list
  in
  NoDup (li_selector <$> items)
  ∧ (∀ it, it ∈ items → li_selector it ≠ EmptyString ∧ li_active it = false).
Proof.
  intros items. subst items. split.
  - rewrite fmap_app, <- !list_fmap_compose. apply NoDup_app. split_and!.
    + apply (selectors_NoDup node_key node_selector);
        [apply node_selector_inj | | apply first_by_NoDup].
      intros x Hx. by apply first_by_keyed in Hx as [_ ?].
    + intros sel (n & -> & _)%list_elem_of_fmap (e & Heq & _)%list_elem_of_fmap.
      by apply node_edge_selector in Heq.
    + apply (selectors_NoDup edge_key edge_selector);
        [apply edge_selector_inj | | apply first_by_NoDup].
      intros x Hx. by apply first_by_keyed in Hx as [_ ?].
  - intros it [Hin|Hin]%elem_of_app;
      apply list_elem_of_fmap in Hin as (x & -> & _); by split.
Qed.

Lemma createLegend_unfold cy s old :
  legendDiv s = Some old →
  createLegend cy s =
    (set_legendDiv
       (Some (((λ n, item_of circle (node_entry n))
                 <$> first_by node_key (cy_nodes cy))
              ++ ((λ e, item_of line (edge_entry e))
                    <$> first_by edge_key (cy_edges cy)))%list) s,
     Some tt).
Proof.
  intros Hold. unfold createLegend, bind, get, deref, ret, modify.
  rewrite Hold. cbn [legendDiv set_legendDiv].
  rewrite legend_edges_loop, legend_nodes_loop, dom_empty_L.
  by rewrite !dedup_loop_empty.
Qed.

Lemma legend_item_Some i s it :
  legend_item i s = Some it ↔
  ∃ items, legendDiv s = Some items ∧ items !! i = Some it.
Proof.
  unfold legend_item. destruct (legendDiv s) as [items|]; simpl.
  - split; [by exists items | by intros (? & [= <-] & ?)].
  - split; [done | by intros (? & ? & ?)].
Qed.

(** The three cases of a click on the item at [i]. *)
Lemma click_locked i s items it :
  legendDiv s = Some items → items !! i = Some it →
  currentlyHighlighted s = Some (li_selector it) →
  legend_click i s =
    set_currentlyHighlighted None
      (set_legendDiv (Some (alter (set_active false) i items))
         (emit restoreElements s)).
Proof.
  intros Hitems Hit Hcur. unfold legend_click, legend_item.
  rewrite Hitems. simpl. rewrite Hit, Hcur.
  rewrite bool_decide_true by done.
  unfold classList_set. simpl. by rewrite Hitems.
Qed.

Lemma click_other i s items it prev :
  legendDiv s = Some items → items !! i = Some it →
  currentlyHighlighted s = Some prev → prev ≠ EmptyString →
  prev ≠ li_selector it →
  legend_click i s =
    set_currentlyHighlighted (Some (li_selector it))
      (set_legendDiv
         (Some (alter (set_active true) i (set_active false <$> items)))
         (emit (highlightElements (li_selector it))
            (emit restoreElements s))).
Proof.
  intros Hitems Hit Hcur Hne Hsel. unfold legend_click, legend_item.
  rewrite Hitems. simpl. rewrite Hit, Hcur.
  rewrite bool_decide_false by congruence.
  unfold truthy_str.
  destruct (String.eqb_spec prev EmptyString) as [|_]; [done|].
  unfold classList_set, clear_active_items. simpl. by rewrite Hitems.
Qed.

Lemma click_unlocked i s items it :
  legendDiv s = Some items → items !! i = Some it →
  currentlyHighlighted s = None →
  legend_click i s =
    set_currentlyHighlighted (Some (li_selector it))
      (set_legendDiv (Some (alter (set_active true) i items))
         (emit (highlightElements (li_selector it)) s)).
Proof.
  intros Hitems Hit Hcur. unfold legend_click, legend_item.
  rewrite Hitems. simpl. rewrite Hit, Hcur.
  rewrite bool_decide_false by done.
  unfold classList_set. simpl. by rewrite Hitems.
Qed.

Lemma selectors_alter b (i : nat) (items : list LegendItem) :
  li_selector <$> alter (set_active b) i items = li_selector <$> items.
Proof.
  apply list_eq. intros j. rewrite !list_lookup_fmap.
  destruct (decide (i = j)) as [->|Hne].
  - rewrite list_lookup_alter_eq. by destruct (items !! j).
  - by rewrite list_lookup_alter_ne.
Qed.

Lemma selectors_clear (items : list LegendItem) :
  li_selector <$> (set_active false <$> items) = li_selector <$> items.
Proof. rewrite <- list_fmap_compose. by apply list_fmap_ext. Qed.

Lemma lookup_alter_active b (i j : nat) (items : list LegendItem) it :
  alter (set_active b) i items !! j = Some it →
  ∃ it0, items !! j = Some it0 ∧ li_selector it = li_selector it0
         ∧ li_active it = (if decide (i = j) then b else li_active it0).
Proof.
  intros Hl. destruct (decide (i = j)) as [->|Hne].
  - rewrite list_lookup_alter_eq in Hl.
    destruct (items !! j) as [it0|]; simplify_eq/=. by exists it0.
  - rewrite list_lookup_alter_ne in Hl by done. by exists it.
Qed.

Lemma lock_consistent_same s s' :
  currentlyHighlighted s' = currentlyHighlighted s →
  legendDiv s' = legendDiv s →
  lock_consistent s → lock_consistent s'.
Proof. unfold lock_consistent. by intros -> ->. Qed.

Lemma locked_item_unique s items i j a b :
  lock_consistent s → legendDiv s = Some items →
  items !! i = Some a → items !! j = Some b →
  li_selector a = li_selector b → i = j.
Proof.
  intros [_ Hinv] Hitems Ha Hb Hsel.
  destruct (Hinv items Hitems) as (Hnd & _ & _).
  apply (NoDup_lookup _ i j (li_selector a) Hnd);
    rewrite list_lookup_fmap; [by rewrite Ha | by rewrite Hb, Hsel].
Qed.

(** After a click on the locked item no item is active. *)
Lemma click_locked_post i s items it :
  lock_consistent s → legendDiv s = Some items → items !! i = Some it →
  currentlyHighlighted s = Some (li_selector it) →
  ∀ j b, alter (set_active false) i items !! j = Some b → li_active b = false.
Proof.
  intros Hinv Hitems Hit Hcur j b Hb.
  apply lookup_alter_active in Hb as (b0 & Hb0 & Hsel & Hact).
  destruct (decide (i = j)) as [->|Hne]; [done|].
  destruct (li_active b) eqn:Hb; [|done]. exfalso. apply Hne.
  destruct Hinv as [Hcurne Hleg].
  destruct (Hleg items Hitems) as (_ & _ & Hactive).
  assert (currentlyHighlighted s = Some (li_selector b0)) as Hcur'.
  { apply Hactive; [by eapply list_elem_of_lookup_2 | congruence]. }
  rewrite Hcur in Hcur'. injection Hcur' as Hcur'.
  by eapply (locked_item_unique s items i j it b0).
Qed.

(** After a click on another item, with the old active items cleared,
    the clicked item alone is active. *)
Lemma click_other_post (i : nat) (items : list LegendItem) it :
  items !! i = Some it →
  ∀ j b, alter (set_active true) i (set_active false <$> items) !! j = Some b →
         (li_active b = true ↔ j = i)
         ∧ (j = i → li_selector b = li_selector it).
Proof.
  intros Hit j b Hb.
  apply lookup_alter_active in Hb as (b0 & Hb0 & Hsel & Hact).
  rewrite list_lookup_fmap in Hb0.
  destruct (items !! j) as [b1|] eqn:Hb1; simplify_eq/=.
  destruct (decide (i = j)) as [->|Hne].
  - rewrite Hit in Hb1. injection Hb1 as <-. by rewrite Hact, Hsel.
  - rewrite Hact. split; [split; [done | by intros ->] | by intros ->].
Qed.

(** After a click while nothing is locked the clicked item alone is
    active. *)
Lemma click_unlocked_post i s items it :
  lock_consistent s → legendDiv s = Some items → items !! i = Some it →
  currentlyHighlighted s = None →
  ∀ j b, alter (set_active true) i items !! j = Some b →
         (li_active b = true ↔ j = i)
         ∧ (j = i → li_selector b = li_selector it).
Proof.
  intros [_ Hleg] Hitems Hit Hcur j b Hb.
  destruct (Hleg items Hitems) as (_ & _ & Hactive).
  apply lookup_alter_active in Hb as (b0 & Hb0 & Hsel & Hact).
  destruct (decide (i = j)) as [->|Hne].
  - rewrite Hit in Hb0. injection Hb0 as <-. by rewrite Hact, Hsel.
  - rewrite Hact. split; [split; [|by intros ->] | by intros ->].
    intros Hb0act. exfalso.
    assert (currentlyHighlighted s = Some (li_selector b0)) as Hcur'.
    { apply Hactive; [by eapply list_elem_of_lookup_2 | done]. }
    congruence.
Qed.

Lemma lock_consistent_click i s :
  lock_consistent s → lock_consistent (legend_click i s).
Proof.
  intros Hinv. destruct (legend_item i s) as [it|] eqn:Hitem.
  2:{ unfold legend_click. by rewrite Hitem. }
  apply legend_item_Some in Hitem as (items & Hitems & Hit).
  pose proof Hinv as [Hcurne Hleg].
  destruct (Hleg items Hitems) as (Hnd & Hnonempty & Hactive).
  assert (li_selector it ≠ EmptyString) as Hitne.
  { apply Hnonempty. by eapply list_elem_of_lookup_2. }
  destruct (currentlyHighlighted s) as [prev|] eqn:Hcur.
  - destruct (decide (prev = li_selector it)) as [->|Hne].
    + rewrite (click_locked i s items it) by done. split; [done|].
      cbn [legendDiv set_currentlyHighlighted set_legendDiv].
      intros items' [= <-]. rewrite selectors_alter. split_and!.
      * done.
      * intros b (j & Hb)%list_elem_of_lookup.
        apply lookup_alter_active in Hb as (b0 & Hb0 & -> & _).
        apply Hnonempty. by eapply list_elem_of_lookup_2.
      * intros b (j & Hb)%list_elem_of_lookup Hact.
        rewrite (click_locked_post i s items it Hinv Hitems Hit Hcur j b Hb)
          in Hact. done.
    + rewrite (click_other i s items it prev) by (by try apply Hcurne).
      split.
      * cbn [currentlyHighlighted set_currentlyHighlighted].
        by intros sel [= <-].
      * cbn [legendDiv currentlyHighlighted set_currentlyHighlighted
               set_legendDiv].
        intros items' [= <-]. rewrite selectors_alter, selectors_clear.
        split_and!; [done| |].
        -- intros b (j & Hb)%list_elem_of_lookup.
           apply lookup_alter_active in Hb as (b0 & Hb0 & -> & _).
           rewrite list_lookup_fmap in Hb0.
           destruct (items !! j) as [b1|] eqn:Hb1; simplify_eq/=.
           apply Hnonempty. by eapply list_elem_of_lookup_2.
        -- intros b (j & Hb)%list_elem_of_lookup Hact.
           destruct (click_other_post i items it Hit j b Hb) as [Hiff Hsel].
           f_equal. symmetry. apply Hsel. by apply Hiff.
  - rewrite (click_unlocked i s items it) by done. split.
    + cbn [currentlyHighlighted set_currentlyHighlighted].
      by intros sel [= <-].
    + cbn [legendDiv currentlyHighlighted set_currentlyHighlighted
             set_legendDiv].
      intros items' [= <-]. rewrite selectors_alter.
      split_and!; [done| |].
      * intros b (j & Hb)%list_elem_of_lookup.
        apply lookup_alter_active in Hb as (b0 & Hb0 & -> & _).
        apply Hnonempty. by eapply list_elem_of_lookup_2.
      * intros b (j & Hb)%list_elem_of_lookup Hact.
        destruct (click_unlocked_post i s items it Hinv Hitems Hit Hcur j b Hb)
          as [Hiff Hsel].
        f_equal. symmetry. apply Hsel. by apply Hiff.
Qed.

Lemma lock_consistent_mouseover i s :
  lock_consistent s → lock_consistent (legend_mouseover i s).
Proof.
  unfold legend_mouseover. destruct (legend_item i s) as [it|]; [|done].
  by destruct (_ && _).
Qed.

Lemma lock_consistent_mouseout i s :
  lock_consistent s → lock_consistent (legend_mouseout i s).
Proof.
  unfold legend_mouseout. destruct (legend_item i s) as [it|]; [|done].
  by destruct (_ && _).
Qed.

Lemma lock_consistent_search value s :
  lock_consistent s → lock_consistent (search_input value s).1.
Proof.
  unfold search_input, bind, get, deref, ret, modify, call, throw.
  by destruct (transparent_search s).
Qed.

Lemma lock_consistent_createLegend cy s :
  lock_consistent s → lock_consistent (createLegend cy s).1.
Proof.
  intros Hinv. destruct (legendDiv s) as [old|] eqn:Hold.
  - rewrite (createLegend_unfold cy s old Hold). cbn [fst].
    destruct Hinv as [Hcur _]. split; [done|].
    cbn [legendDiv set_legendDiv]. intros items [= <-].
    destruct (built_legend_selectors (cy_nodes cy) (cy_edges cy))
      as [Hnd Hall].
    split_and!; [done| |].
    + intros it Hit. by apply Hall.
    + intros it Hit Hact. destruct (Hall it Hit) as [_ Hinactive]. congruence.
  - unfold createLegend, bind, get, deref, throw. by rewrite Hold.
Qed.

Lemma lock_consistent_step s e :
  lock_consistent s → lock_consistent (legend_step s e).
Proof.
  destruct e; simpl.
  - apply lock_consistent_mouseover.
  - apply lock_consistent_mouseout.
  - apply lock_consistent_click.
  - apply lock_consistent_createLegend.
  - apply lock_consistent_search.
Qed.

Lemma lock_consistent_run events : ∀ s,
  lock_consistent s → lock_consistent (legend_run events s).
Proof.
  unfold legend_run. induction events as [|e events IH]; intros s Hinv.
  - done.
  - simpl. by apply IH, lock_consistent_step.
Qed.

Lemma lock_consistent_at_most_one s :
  lock_consistent s → at_most_one_active s.
Proof.
  intros Hinv i j a b Ha Hb Hacta Hactb.
  apply legend_item_Some in Ha as (items & Hitems & Ha).
  apply legend_item_Some in Hb as (items' & Hitems' & Hb).
  rewrite Hitems in Hitems'. injection Hitems' as <-.
  destruct Hinv as [Hcur Hleg].
  destruct (Hleg items Hitems) as (_ & _ & Hactive).
  assert (Some (li_selector a) = Some (li_selector b)) as [= Hsel].
  { rewrite <- (Hactive a), <- (Hactive b);
      [done | by eapply list_elem_of_lookup_2 | done
       | by eapply list_elem_of_lookup_2 | done]. }
  by eapply (locked_item_unique s items i j a b).
Qed.

(** The state in which the script starts is consistent, and a render
    keeps it so whatever the page held. *)
Lemma lock_consistent_initial : lock_consistent initial_state.
Proof. split; [by intros sel | by intros items]. Qed.

(** C3: start from a state in which the lock and the legend agree, as
    when the script starts and after every [createLegend], and let any
    sequence of legend events happen: clicks, hovers, searches, rebuilds
    of the legend.  Then the lock and the legend still agree, and at most
    one item of the legend is active.  A click on the row of the locked
    item issues [restoreElements], leaves nothing locked and no item
    active.  A click on another row while a selector is locked issues
    [restoreElements] and then [highlightElements] for the new selector,
    which becomes the locked one, its row the only active one.  A click
    while nothing is locked issues [highlightElements] alone and locks. *)
Theorem legend_click_toggles_lock (s0 : State) (events : list LegendEvent) :
  lock_consistent s0 →
  let s := legend_run events s0 in
  lock_consistent s
  ∧ at_most_one_active s
  ∧ (∀ i it, legend_item i s = Some it →
       currentlyHighlighted s = Some (li_selector it) →
       let s' := legend_click i s in
       currentlyHighlighted s' = None
       ∧ issued s s' = [restoreElements]
       ∧ ∀ j b, legend_item j s' = Some b → li_active b = false)
  ∧ (∀ i it prev, legend_item i s = Some it →
       currentlyHighlighted s = Some prev → prev ≠ li_selector it →
       let s' := legend_click i s in
       currentlyHighlighted s' = Some (li_selector it)
       ∧ issued s s' = [restoreElements; highlightElements (li_selector it)]
       ∧ ∀ j b, legend_item j s' = Some b → (li_active b = true ↔ j = i))
  ∧ (∀ i it, legend_item i s = Some it →
       currentlyHighlighted s = None →
       let s' := legend_click i s in
       currentlyHighlighted s' = Some (li_selector it)
       ∧ issued s s' = [highlightElements (li_selector it)]
       ∧ ∀ j b, legend_item j s' = Some b → (li_active b = true ↔ j = i)).
Proof.
  intros Hinv0 s.
  assert (lock_consistent s) as Hinv by (by apply lock_consistent_run).
  split_and!.
  - done.
  - by apply lock_consistent_at_most_one.
  - intros i it (items & Hitems & Hit)%legend_item_Some Hcur s'.
    subst s'. rewrite (click_locked i s items it) by done.
    split_and!.
    + done.
    + apply issued_emit.
    + intros j b (items' & [= <-] & Hb)%legend_item_Some.
      by eapply click_locked_post.
  - intros i it prev (items & Hitems & Hit)%legend_item_Some Hcur Hne s'.
    subst s'.
    rewrite (click_other i s items it prev)
      by (try done; by apply (proj1 Hinv)).
    split_and!.
    + done.
    + apply issued_emit2.
    + intros j b (items' & [= <-] & Hb)%legend_item_Some.
      by apply (click_other_post i items it Hit j b Hb).
  - intros i it (items & Hitems & Hit)%legend_item_Some Hcur s'.
    subst s'. rewrite (click_unlocked i s items it) by done.
    split_and!.
    + done.
    + apply issued_emit.
    + intros j b (items' & [= <-] & Hb)%legend_item_Some.
      by apply (click_unlocked_post i s items it Hinv Hitems Hit Hcur j b Hb).
Qed.

(** C6: in a state in which the lock and the legend agree, hovering a
    legend item whose selector is not the locked one issues
    [highlightElements] for its selector, and leaving it issues
    [restoreElements]; neither changes anything else.  When its selector
    is the locked one, hovering and leaving change nothing at all. *)
Theorem legend_hover_previews_unless_locked (s : State) (i : nat)
    (it : LegendItem) :
  lock_consistent s →
  legend_item i s = Some it →
  (currentlyHighlighted s ≠ Some (li_selector it) →
     legend_mouseover i s = emit (highlightElements (li_selector it)) s
     ∧ legend_mouseout i s = emit restoreElements s
     ∧ legend_mouseout i (legend_mouseover i s) =
         emit restoreElements (emit (highlightElements (li_selector it)) s))
  ∧ (currentlyHighlighted s = Some (li_selector it) →
       legend_mouseover i s = s ∧ legend_mouseout i s = s).
Proof.
  intros Hinv Hitem.
  pose proof Hitem as (items & Hitems & Hit)%legend_item_Some.
  destruct Hinv as [_ Hleg].
  destruct (Hleg items Hitems) as (_ & _ & Hactive).
  split.
  - intros Hne.
    assert (li_active it = false) as Hinactive.
    { destruct (li_active it) eqn:Hact; [|done]. exfalso. apply Hne.
      apply Hactive; [by eapply list_elem_of_lookup_2 | done]. }
    assert (legend_mouseover i s
            = emit (highlightElements (li_selector it)) s) as Hover.
    { unfold legend_mouseover. rewrite Hitem, Hinactive.
      by rewrite bool_decide_false. }
    split_and!.
    + done.
    + unfold legend_mouseout. rewrite Hitem, Hinactive.
      by rewrite bool_decide_false.
    + rewrite Hover. unfold legend_mouseout, legend_item in *.
      cbn [legendDiv currentlyHighlighted emit].
      rewrite Hitem, Hinactive. by rewrite bool_decide_false.
  - intros Hcur. unfold legend_mouseover, legend_mouseout.
    rewrite Hitem. rewrite bool_decide_true by done.
    by rewrite andb_false_r.
Qed.

(** ** Search *)

Lemma same_letter_lower c : capital (lower_unit c) = capital c.
Proof. destruct c as [[] [] [] [] [] [] [] []]; reflexivity. Qed.

Lemma lower_unit_small c : is_capital (lower_unit c) = false.
Proof. destruct c as [[] [] [] [] [] [] [] []]; reflexivity. Qed.

Lemma toLowerCase_in_small_letters v : in_small_letters v (toLowerCase v).
Proof.
  induction v as [|c v IH]; cbn [toLowerCase in_small_letters]; [done|].
  split_and!; [|apply lower_unit_small | exact IH].
  unfold same_letter. symmetry. apply same_letter_lower.
Qed.

Lemma toLowerCase_empty s : toLowerCase s = EmptyString ↔ s = EmptyString.
Proof. destruct s; simpl; split; congruence. Qed.

(** Lowering the query does not change what equals it up to case. *)
Lemma eq_ignore_case_lower part : ∀ v,
  eq_ignore_case part (toLowerCase v) ↔ eq_ignore_case part v.
Proof.
  induction part as [|c part IH]; intros [|d v];
    cbn [toLowerCase eq_ignore_case]; try done.
  unfold same_letter. by rewrite same_letter_lower, IH.
Qed.

Lemma ci_prefix_spec q : ∀ t,
  ci_prefix q t = true ↔
  ∃ part rest, t = part +:+ rest ∧ eq_ignore_case part q.
Proof.
  induction q as [|c q IH]; intros t; cbn [ci_prefix].
  - split; [intros _; by exists EmptyString, t | done].
  - destruct t as [|d t].
    + split; [done|]. intros ([|? ?] & rest & Heq & Hci); done.
    + rewrite andb_true_iff, N.eqb_eq, IH. split.
      * intros (Hcd & part & rest & -> & Hci).
        exists (String d part), rest. by rewrite string_app_cons.
      * intros ([|d' part] & rest & Heq & Hci); [done|].
        rewrite string_app_cons in Heq. injection Heq as <- ->.
        destruct Hci as [Hcd Hci]. split; [done | by exists part, rest].
Qed.

Lemma ci_includes_spec q : ∀ t,
  ci_includes t q = true ↔ ci_substring q t.
Proof.
  unfold ci_substring.
  induction t as [|c t IH]; cbn [ci_includes].
  - rewrite orb_false_r, ci_prefix_spec. split.
    + intros (part & rest & Heq & Hci). by exists EmptyString, part, rest.
    + intros ([|? ?] & part & after & Heq & Hci); [|done].
      by exists part, after.
  - rewrite orb_true_iff, ci_prefix_spec, IH. split.
    + intros [(part & rest & Heq & Hci)|(before & part & after & -> & Hci)].
      * by exists EmptyString, part, rest.
      * by exists (String c before), part, after.
    + intros ([|d before] & part & after & Heq & Hci).
      * left. by exists part, after.
      * right. rewrite string_app_cons in Heq. injection Heq as <- ->.
        by exists before, part, after.
Qed.

(** Matching the lowered query is matching the query up to case. *)
Lemma text_matches_lowered text v :
  text_matches text (toLowerCase v) = true ↔ ci_contains text v.
Proof.
  unfold text_matches, ci_contains. destruct text as [t|].
  - rewrite ci_includes_spec. unfold ci_substring. split.
    + intros (before & part & after & Heq & Hci). exists t. split; [done|].
      exists before, part, after. by rewrite <- eq_ignore_case_lower.
    + intros (t' & [= <-] & before & part & after & Heq & Hci).
      exists before, part, after. by rewrite eq_ignore_case_lower.
  - split; [done | by intros (t & ? & _)].
Qed.

(** C5: with the search field on the page, the [input] listener returns
    whatever is locked or highlighted; it sets the field, hands the query
    in small letters to [highlightNodesByQuery], and touches neither the
    lock nor the legend.  With [highlightNodesByQuery] as the spec
    describes it, an empty query leaves no node highlighted, and a
    non-empty query leaves highlighted exactly the nodes whose name or
    message text holds the query up to the case of letters, in the order
    of the graph. *)
Theorem search_input_highlights_matches (cy : Cy) (s : State)
    (value current : string) :
  transparent_search s = Some current →
  ∃ s' query,
    search_input value s = (s', Some tt)
    ∧ issued s s' = [highlightNodesByQuery query]
    ∧ in_small_letters value query
    ∧ transparent_search s' = Some value
    ∧ currentlyHighlighted s' = currentlyHighlighted s
    ∧ legendDiv s' = legendDiv s
    ∧ (value = EmptyString → highlightNodesByQuery_spec cy query = [])
    ∧ (value ≠ EmptyString →
         sublist (highlightNodesByQuery_spec cy query) (cy_nodes cy)
         ∧ ∀ node,
             node ∈ highlightNodesByQuery_spec cy query ↔
             node ∈ cy_nodes cy
             ∧ (ci_contains (n_name node) value
                ∨ ci_contains (n_msg node) value)).
Proof.
  intros Hfield.
  exists (emit (highlightNodesByQuery (toLowerCase value))
            (set_transparent_search (Some value) s)), (toLowerCase value).
  split_and!.
  - unfold search_input, bind, get, deref, ret, modify, call.
    by rewrite Hfield.
  - apply (issued_emit (set_transparent_search (Some value) s)).
  - apply toLowerCase_in_small_letters.
  - done.
  - done.
  - done.
  - intros ->. reflexivity.
  - intros Hne. unfold highlightNodesByQuery_spec.
    rewrite decide_False by (by rewrite toLowerCase_empty).
    split; [apply sublist_filter_bool|]. intros node.
    rewrite elem_of_filter_bool, orb_true_iff.
    by rewrite !text_matches_lowered.
Qed.

(** ** Tooltips *)

Lemma pending_None id s :
  pending id s = None ↔ id ∉ (timers s).*1.
Proof.
  unfold pending. generalize (timers s) as l.
  induction l as [|[id' x] l IH]; simpl.
  - split; [intros _; apply not_elem_of_nil | done].
  - destruct (Z.eqb_spec id' id) as [->|Hne]; simpl.
    + split; [done | intros Hnot; exfalso; apply Hnot, list_elem_of_here].
    + rewrite IH, not_elem_of_cons.
      split; [intros ?; split; [congruence | done] | by intros [_ ?]].
Qed.

Lemma clearTimeout_ids id s :
  ∀ t, t ∈ (timers (clearTimeout id s)).*1 ↔ t ∈ (timers s).*1 ∧ t ≠ id.
Proof.
  intros t. unfold clearTimeout. cbn [timers set_timers].
  rewrite !list_elem_of_fmap. split.
  - intros (x & -> & Hx). apply list_elem_of_filter in Hx as [Hne Hx].
    split; [by exists x | done].
  - intros [(x & -> & Hx) Hne]. exists x. split; [done|].
    by apply list_elem_of_filter.
Qed.

Lemma timer_fire_not_pending id s : pending id s = None → timer_fire id s = s.
Proof. unfold timer_fire. by intros ->. Qed.

Lemma timer_fire_timers id s :
  ∀ t, t ∈ (timers (timer_fire id s)).*1 → t ∈ (timers s).*1.
Proof.
  intros t. unfold timer_fire. destruct (pending id s) as [[node content]|].
  - cbn [timers set_tippies]. rewrite clearTimeout_ids. tauto.
  - done.
Qed.

Lemma node_mouseout_timers node s :
  ∀ t, t ∈ (timers (node_mouseout node s)).*1 → t ∈ (timers s).*1.
Proof.
  intros t. unfold node_mouseout.
  set (s1 := match showTimeout s with
             | Some id => if truthy (JNum id) then clearTimeout id s else s
             | None => s
             end).
  assert (t ∈ (timers s1).*1 → t ∈ (timers s).*1) as Hs1.
  { subst s1. destruct (showTimeout s) as [id|]; [|done].
    destruct (truthy (JNum id)); [|done]. rewrite clearTimeout_ids. tauto. }
  by destruct (tippies s1 !! n_id node).
Qed.

Lemma cancelled_step t s e : cancelled t s → cancelled t (tooltip_step s e).
Proof.
  intros [Hlt Hnot]. destruct e as [node|node|id]; simpl.
  - unfold node_mouseover, cancelled.
    cbn [next_timer timers set_showTimeout set_next_timer set_timers].
    split; [lia|]. rewrite fmap_app, not_elem_of_app. split; [done|].
    simpl. apply not_elem_of_cons. split; [lia | apply not_elem_of_nil].
  - split.
    + unfold node_mouseout.
      destruct (showTimeout s) as [id|]; [destruct (truthy (JNum id))|];
        match goal with |- context [tippies ?s1 !! _] =>
          destruct (tippies s1 !! n_id node) end; done.
    + intros Hin. by apply Hnot, (node_mouseout_timers node).
  - split.
    + unfold timer_fire. by destruct (pending id s) as [[? ?]|].
    + intros Hin. by apply Hnot, (timer_fire_timers id).
Qed.

Lemma cancelled_run t events : ∀ s,
  cancelled t s → cancelled t (tooltip_run events s).
Proof.
  unfold tooltip_run. induction events as [|e events IH]; intros s Hc.
  - done.
  - simpl. by apply IH, cancelled_step.
Qed.

(** While it is quiet, [showTimeout] keeps the id of the hover and no
    id is handed out. *)
Lemma quiet_run t events : ∀ s,
  Forall (quiet t) events →
  showTimeout (tooltip_run events s) = showTimeout s
  ∧ next_timer (tooltip_run events s) = next_timer s.
Proof.
  unfold tooltip_run. induction events as [|e events IH]; intros s Hq.
  - done.
  - apply Forall_cons in Hq as [He Hq]. simpl.
    destruct (IH (tooltip_step s e) Hq) as [-> ->].
    destruct e as [node|node|id]; simpl in *.
    + done.
    + unfold node_mouseout.
      destruct (showTimeout s) as [id|] eqn:Hst;
        [destruct (truthy (JNum id))|];
        match goal with |- context [tippies ?s1 !! _] =>
          destruct (tippies s1 !! n_id node) end;
        by rewrite ?Hst.
    + unfold timer_fire. by destruct (pending id s) as [[? ?]|].
Qed.

Lemma tooltip_run_app a b s :
  tooltip_run (a ++ b) s = tooltip_run b (tooltip_run a s).
Proof. unfold tooltip_run. apply foldl_app. Qed.

Lemma timers_fresh_initial : timers_fresh initial_state.
Proof. split; [done | by intros t ?%elem_of_nil]. Qed.

Lemma timers_fresh_step s e : timers_fresh s → timers_fresh (tooltip_step s e).
Proof.
  intros [Hpos Hall].
  assert (∀ s', next_timer s' = next_timer s →
            (∀ t, t ∈ (timers s').*1 → t ∈ (timers s).*1) →
            timers_fresh s') as Hkeep.
  { intros s' Hn Hsub. split; [by rewrite Hn|]. intros t Ht. rewrite Hn.
    assert (t.1 ∈ (timers s).*1) as (t' & -> & Ht')%list_elem_of_fmap.
    { apply Hsub, list_elem_of_fmap. by exists t. }
    by apply Hall. }
  destruct e as [node|node|id]; simpl.
  - unfold node_mouseover, timers_fresh.
    cbn [next_timer timers set_showTimeout set_next_timer set_timers].
    split; [lia|]. intros t [Ht|Ht]%elem_of_app.
    + specialize (Hall t Ht). lia.
    + apply list_elem_of_singleton in Ht as ->. simpl. lia.
  - apply Hkeep; [|apply node_mouseout_timers].
    unfold node_mouseout.
    destruct (showTimeout s) as [id|]; [destruct (truthy (JNum id))|];
      match goal with |- context [tippies ?s1 !! _] =>
        destruct (tippies s1 !! n_id node) end; done.
  - apply Hkeep; [|apply timer_fire_timers].
    unfold timer_fire. by destruct (pending id s) as [[? ?]|].
Qed.

(** C9: let a node be hovered in a state whose timer ids are fresh, and
    let the pointer leave before the delay elapses: until then no other
    node is entered and the timer of this hover does not fire.  The hover
    leaves its tooltip pending under the id [setTimeout] returned; the
    pointer-out cancels it; and whatever happens later, that timer is
    never pending again, so its callback, which alone would show the
    tooltip, cannot run. *)
Theorem pointer_out_cancels_pending_tooltip (s : State) (node left : Node)
    (between later : list TooltipEvent) :
  timers_fresh s →
  let t := next_timer s in
  Forall (quiet t) between →
  let hovered := node_mouseover node s in
  let gone :=
    tooltip_run (ev_node_mouseover node :: between ++ [ev_node_mouseout left])
      s in
  let after := tooltip_run later gone in
  showTimeout hovered = Some t
  ∧ pending t hovered = Some (node, tooltip_content node)
  ∧ pending t gone = None
  ∧ pending t after = None
  ∧ timer_fire t after = after.
Proof.
  intros [Hpos Hfresh] t Hquiet hovered gone after.
  assert (pending t hovered = Some (node, tooltip_content node)) as Hpend.
  { subst hovered. unfold pending, node_mouseover.
    cbn [timers set_showTimeout set_next_timer set_timers].
    fold t. generalize (timers s), Hfresh. intros l Hl.
    induction l as [|x l IH]; simpl.
    - by rewrite Z.eqb_refl.
    - destruct (Z.eqb_spec x.1 t) as [Heq|Hne].
      + specialize (Hl x (list_elem_of_here _ _)). lia.
      + apply IH. intros y Hy. by apply Hl, list_elem_of_further. }
  assert (cancelled t gone) as Hgone.
  { subst gone.
    change (ev_node_mouseover node :: between ++ [ev_node_mouseout left])
      with ([ev_node_mouseover node] ++ between ++ [ev_node_mouseout left])%list.
    rewrite !tooltip_run_app.
    change (tooltip_run [ev_node_mouseover node] s) with hovered.
    destruct (quiet_run t between hovered Hquiet) as [Hshow Hnext].
    set (s1 := tooltip_run between hovered) in *.
    change (showTimeout hovered) with (Some t) in Hshow.
    change (next_timer hovered) with (t + 1) in Hnext.
    change (tooltip_run [ev_node_mouseout left] s1)
      with (node_mouseout left s1).
    split.
    - unfold node_mouseout. rewrite Hshow.
      destruct (truthy (JNum t));
        match goal with |- context [tippies ?s2 !! _] =>
          destruct (tippies s2 !! n_id left) end;
        cbn [next_timer set_tippies clearTimeout set_timers];
        rewrite Hnext; lia.
    - unfold node_mouseout. rewrite Hshow.
      assert (truthy (JNum t) = true) as ->.
      { simpl. apply negb_true_iff, Z.eqb_neq. lia. }
      assert (t ∉ (timers (clearTimeout t s1)).*1) as Hnot.
      { rewrite clearTimeout_ids. tauto. }
      by destruct (tippies (clearTimeout t s1) !! n_id left). }
  assert (cancelled t after) as Hafter by (by apply cancelled_run).
  split_and!; try done.
  - by apply pending_None, Hgone.
  - by apply pending_None, Hafter.
  - by apply timer_fire_not_pending, pending_None, Hafter.
Qed.

(** ** Rendering without a container *)

(** C7: when the page has no [myDiagramDiv], [initializeCytoscape]
    reports it with [console.error] and returns [null], and
    [renderCytoscapeDiagram] stops there: it issues no call that builds a
    diagram or attaches a listener, and leaves the state as it was but
    for the calls logged.  When [setupStylesAndData] returns, the render
    returns too and its calls are [setupStylesAndData] and the
    [console.error]. *)
Theorem render_aborts_without_container (nodeData : option (list Element))
    (s : State) :
  myDiagramDiv s = false →
  initializeCytoscape nodeData s =
    (emit (console_error missing_container_message) s, Some None)
  ∧ Forall (λ c, builds_or_registers c = false)
      (issued s (renderCytoscapeDiagram nodeData s).1)
  ∧ (∃ log, (renderCytoscapeDiagram nodeData s).1 =
              mkState (timeline s) (currentlyHighlighted s) (lastContext s)
                (layout s) (lastTimelineData s) (myDiagramDiv s) (legendDiv s)
                (transparent_search s) (controls s) (showTimeout s) (timers s)
                (next_timer s) (tippies s) log)
  ∧ (setupStylesAndData nodeData = true →
       (renderCytoscapeDiagram nodeData s).2 = Some tt
       ∧ issued s (renderCytoscapeDiagram nodeData s).1 =
           [call_setupStylesAndData;
            console_error missing_container_message]).
Proof.
  intros Hdiv.
  assert (initializeCytoscape nodeData s =
            (emit (console_error missing_container_message) s, Some None))
    as Hinit.
  { unfold initializeCytoscape, bind, get, call, modify, ret.
    by rewrite Hdiv. }
  split; [done|].
  unfold renderCytoscapeDiagram.
  destruct (setupStylesAndData nodeData) eqn:Hstyles.
  - assert (bind (call call_setupStylesAndData)
              (λ _, bind (initializeCytoscape nodeData)
                      (λ cy, match cy with
                             | Some cy => setupEventHandlers cy nodeData
                             | None => ret ()
                             end)) s
            = (emit (console_error missing_container_message)
                 (emit call_setupStylesAndData s), Some tt)) as ->.
    { unfold bind at 1, call at 1, modify at 1. unfold bind.
      unfold initializeCytoscape, bind, get, call, modify, ret.
      cbn [myDiagramDiv emit]. by rewrite Hdiv. }
    cbn [fst snd]. rewrite issued_emit2. split_and!.
    + by repeat constructor.
    + by eexists.
    + done.
  - assert (bind (bind (call call_setupStylesAndData) (λ _, throw))
              (λ _, bind (initializeCytoscape nodeData)
                      (λ cy, match cy with
                             | Some cy => setupEventHandlers cy nodeData
                             | None => ret ()
                             end)) s
            = (emit call_setupStylesAndData s, None)) as -> by done.
    cbn [fst snd]. rewrite issued_emit. split_and!.
    + by repeat constructor.
    + by eexists.
    + done.
Qed.

(** ** The rebuild decision *)

Lemma rebuild_needed_spec s context :
  rebuild_needed (lastContext s) context = true ↔ context_differs s context.
Proof.
  unfold rebuild_needed, context_differs, strict_eq.
  destruct (lastContext s) as [last|].
  - rewrite negb_true_iff, bool_decide_eq_false. split.
    + intros Hne. right. by exists last.
    + intros [|(last' & [= <-] & Hne)]; done.
  - split; [by left | done].
Qed.

Lemma issued_app s s' l : calls s' = (calls s ++ l)%list → issued s s' = l.
Proof. unfold issued. intros ->. by rewrite drop_app_length. Qed.

Lemma for_each_console_log (l : list string) : ∀ s,
  ∃ s', for_each l (λ chat, call (console_log chat)) s = (s', Some tt)
    ∧ timeline s' = timeline s
    ∧ lastContext s' = lastContext s
    ∧ calls s' = (calls s ++ (console_log <$> l))%list.
Proof.
  induction l as [|chat l IH]; intros s.
  - exists s. split_and!; try done. by rewrite app_nil_r.
  - destruct (IH (emit (console_log chat) s)) as (s' & Hrun & Ht & Hl & Hc).
    exists s'. split_and!; try done.
    rewrite Hc. cbn [calls emit]. by rewrite <- app_assoc.
Qed.

Lemma load_timeline_data_ok context s :
  data_available context →
  ∃ s1, load_timeline_data context s = (s1, Some tt)
    ∧ timeline s1 = timeline s
    ∧ lastContext s1 = lastContext s
    ∧ calls s1 = (calls s ++ load_calls context)%list.
Proof.
  unfold data_available, load_timeline_data, load_calls.
  destruct (truthy (characterId context)); cbn [negb].
  - intros (character & payload & data & Hch & Hfetch & Hprep).
    unfold bind, deref, ret, call, modify. rewrite Hch.
    cbn beta iota. rewrite Hfetch. cbn beta iota. rewrite Hprep.
    eexists. split; [reflexivity|]. split_and!; try done.
    cbn [calls emit set_lastTimelineData]. by rewrite <- app_assoc.
  - destruct (truthy (groupId context)).
    + intros (group & data & Hfind & Hprep).
      unfold bind at 1, deref at 1. rewrite Hfind. unfold ret at 1.
      unfold bind at 1.
      destruct (for_each_console_log (g_chats group) s)
        as (s1 & Hrun & Ht & Hl & Hc).
      rewrite Hrun. unfold bind, deref, ret, call, modify. rewrite Hprep.
      eexists. split; [reflexivity|]. split_and!; try done.
      cbn [calls emit set_lastTimelineData]. rewrite Hc.
      by rewrite <- app_assoc.
    + intros _. exists s. split_and!; try done. by rewrite app_nil_r.
Qed.

Lemma bind_modify {B} f (k : unit → M B) s :
  bind (modify f) k s = k tt (f s).
Proof. reflexivity. Qed.

Lemma bind_call {B} c (k : unit → M B) s :
  bind (call c) k s = k tt (emit c s).
Proof. reflexivity. Qed.

Lemma bind_timeline_get {B} key (k : JVal → M B) s tl :
  timeline s = Some tl →
  bind (timeline_get key) k s = k (settings_get tl key) s.
Proof.
  intros Htl. unfold timeline_get, bind, get, deref, ret. by rewrite Htl.
Qed.

Lemma bind_timeline_get_None {B} key (k : JVal → M B) s :
  timeline s = None → bind (timeline_get key) k s = (s, None).
Proof.
  intros Htl. unfold timeline_get, bind, get, deref, throw. by rewrite Htl.
Qed.

Lemma update_not_needed context s :
  rebuild_needed (lastContext s) context = false →
  updateTimelineDataIfNeeded context s = (s, Some false).
Proof.
  intros Hno. unfold updateTimelineDataIfNeeded, bind at 1, get.
  by rewrite Hno.
Qed.

Lemma update_rebuilds context s tl :
  rebuild_needed (lastContext s) context = true →
  data_available context →
  timeline s = Some tl →
  ∃ s', updateTimelineDataIfNeeded context s = (s', Some true)
    ∧ lastContext s' = Some context
    ∧ timeline s' = Some tl
    ∧ layout s' =
        layout_dagre (settings_get tl "nodeSeparation")
          (settings_get tl "edgeSeparation")
          (settings_get tl "rankSeparation")
          (settings_get tl "spacingFactor")
    ∧ calls s' =
        (calls s ++ load_calls context
           ++ [console_log "Timeline data updated"])%list.
Proof.
  intros Hneed Hdata Htl.
  unfold updateTimelineDataIfNeeded, bind at 1, get. rewrite Hneed.
  destruct (load_timeline_data_ok context s Hdata)
    as (s1 & Hrun & Ht1 & Hl1 & Hc1).
  unfold bind at 1. rewrite Hrun.
  rewrite bind_modify, bind_call.
  assert (timeline s1 = Some tl) as Htl1 by congruence.
  rewrite !(bind_timeline_get _ _ _ tl) by exact Htl1.
  rewrite bind_modify. unfold ret.
  eexists. split; [reflexivity|]. split_and!; try done.
  cbn [calls set_layout emit set_lastContext]. rewrite Hc1.
  by rewrite <- app_assoc.
Qed.

Lemma update_returned context s s' (didRebuild : bool) :
  updateTimelineDataIfNeeded context s = (s', Some didRebuild) →
  didRebuild = rebuild_needed (lastContext s) context
  ∧ (if didRebuild then lastContext s' = Some context else s' = s).
Proof.
  unfold updateTimelineDataIfNeeded, bind at 1, get.
  destruct (rebuild_needed (lastContext s) context).
  - unfold bind at 1.
    destruct (load_timeline_data context s) as [s1 [[]|]]; [|done].
    rewrite bind_modify, bind_call.
    destruct (timeline s1) as [tl|] eqn:Htl1.
    + rewrite !(bind_timeline_get _ _ _ tl) by exact Htl1.
      rewrite bind_modify. unfold ret. by intros [= <- <-].
    + by rewrite bind_timeline_get_None.
  - unfold ret. by intros [= <- <-].
Qed.

(** The decision as line 509 takes it.  [updateTimelineDataIfNeeded]
    returns [false], changing nothing, when there is a stored context with
    the [characterId] of the incoming one.  Otherwise (no stored context,
    or another [characterId]) it takes the rebuild branch and, when the
    collaborators deliver the data and the settings exist, returns [true]
    with the incoming context stored.  A call that follows a returned
    call with a context of the same [characterId] returns [false] and
    changes nothing. *)
Lemma rebuild_iff_characterId_differs (context : Context) (s : State) :
  (¬ context_differs s context →
     updateTimelineDataIfNeeded context s = (s, Some false))
  ∧ (context_differs s context → data_available context →
     is_Some (timeline s) →
     ∃ s', updateTimelineDataIfNeeded context s = (s', Some true)
           ∧ lastContext s' = Some context)
  ∧ (∀ s' didRebuild,
       updateTimelineDataIfNeeded context s = (s', Some didRebuild) →
       (didRebuild = true ↔ context_differs s context)
       ∧ ∀ again, characterId again = characterId context →
           updateTimelineDataIfNeeded again s' = (s', Some false)).
Proof.
  split_and!.
  - intros Hsame. apply update_not_needed.
    rewrite <- rebuild_needed_spec in Hsame.
    by destruct (rebuild_needed (lastContext s) context).
  - intros Hdiff Hdata [tl Htl]. apply rebuild_needed_spec in Hdiff.
    destruct (update_rebuilds context s tl Hdiff Hdata Htl)
      as (s' & Hrun & Hlast & _).
    by exists s'.
  - intros s' didRebuild Hrun.
    apply update_returned in Hrun as [Hres Hpost]. split.
    + by rewrite Hres, rebuild_needed_spec.
    + intros again Hid. apply update_not_needed.
      unfold rebuild_needed, strict_eq. destruct didRebuild.
      * rewrite Hpost. rewrite Hid. by rewrite bool_decide_true.
      * subst s'. symmetry in Hres. unfold rebuild_needed, strict_eq in Hres.
        destruct (lastContext s) as [last|]; [|done].
        by rewrite Hid.
Qed.

Lemma update_after_load context s s1 tl :
  rebuild_needed (lastContext s) context = true →
  load_timeline_data context s = (s1, Some tt) →
  timeline s1 = Some tl →
  updateTimelineDataIfNeeded context s =
    (set_layout
       (layout_dagre (settings_get tl "nodeSeparation")
          (settings_get tl "edgeSeparation")
          (settings_get tl "rankSeparation")
          (settings_get tl "spacingFactor"))
       (emit (console_log "Timeline data updated")
          (set_lastContext (Some context) s1)),
     Some true).
Proof.
  intros Hneed Hload Htl.
  unfold updateTimelineDataIfNeeded, bind at 1, get. rewrite Hneed.
  unfold bind at 1. rewrite Hload.
  rewrite bind_modify, bind_call.
  rewrite !(bind_timeline_get _ _ _ tl) by exact Htl.
  by rewrite bind_modify.
Qed.

(** C2: the decision looks at [characterId] alone, where the context is a
    character or a group.  In a group chat [characterId] is [undefined]
    and the group is told apart by [groupId]: after the timeline of one
    group has been built, [updateTimelineDataIfNeeded] for another group
    returns [false] and changes nothing, so the stored context and the
    timeline data are still those of the first group, although the
    incoming context differs from the stored one. *)
Theorem group_switch_is_not_rebuilt (first second : Context) (s : State)
    (tl : Settings) (group : Group) (data : list Element) :
  timeline s = Some tl →
  context_differs s first →
  truthy (characterId first) = false →
  truthy (groupId first) = true →
  List.find (λ g, strict_eq (g_id g) (groupId first)) (groups first)
    = Some group →
  prepareData (data_object (g_chats group)) true = Some data →
  characterId second = characterId first →
  groupId second ≠ groupId first →
  ∃ s1,
    updateTimelineDataIfNeeded first s = (s1, Some true)
    ∧ lastContext s1 = Some first
    ∧ lastTimelineData s1 = Some data
    ∧ second ≠ first
    ∧ updateTimelineDataIfNeeded second s1 = (s1, Some false).
Proof.
  intros Htl Hdiff Hchar Hgroup Hfind Hprep Hid Hgid.
  apply rebuild_needed_spec in Hdiff.
  destruct (for_each_console_log (g_chats group) s)
    as (s0 & Hrun & Ht & Hl & Hc).
  assert (load_timeline_data first s =
            (set_lastTimelineData (Some data)
               (emit (await_prepareData true) s0), Some tt)) as Hload.
  { unfold load_timeline_data. rewrite Hchar, Hgroup. cbn [negb].
    unfold bind at 1, deref at 1. rewrite Hfind. unfold ret at 1.
    unfold bind at 1. rewrite Hrun.
    unfold call, bind, deref, ret, modify. by rewrite Hprep. }
  rewrite (update_after_load first s _ tl Hdiff Hload)
    by (cbn [timeline set_lastTimelineData emit]; congruence).
  eexists. split; [reflexivity|]. split_and!; try done.
  - intros Heq. apply Hgid. by rewrite Heq.
  - apply update_not_needed.
    cbn [lastContext set_layout emit set_lastContext].
    unfold rebuild_needed, strict_eq. rewrite Hid.
    by rewrite bool_decide_true.
Qed.

(** ** Settings changes invalidate the stored context *)

Lemma idsToSettingsMap_lookup id key :
  (id, key) ∈ idsToSettingsMap → setting_of_id id = Some key.
Proof.
  intros Hin. unfold setting_of_id.
  apply elem_of_list_to_map_1; [|done].
  apply (bool_decide_unpack _). by vm_compute.
Qed.

Lemma listener_runs_onInputChange id key rgba element s :
  (id, key) ∈ idsToSettingsMap →
  controls s !! id = Some element →
  listener id rgba s =
    onInputChange id element key
      (if includes id "color-picker" then rgba else JNull) s.
Proof.
  intros Hin Hctl. apply idsToSettingsMap_lookup in Hin.
  unfold listener, on_change, on_input, bind, get.
  destruct (includes id "color-picker") eqn:Hcp; by rewrite Hctl, ?Hcp, Hin.
Qed.


(** ** Tooltip text *)

Lemma string_length_app a b :
  String.length (a +:+ b) = (String.length a + String.length b)%nat.
Proof.
  induction a as [|c a IH]; [done|].
  rewrite string_app_cons. cbn [String.length]. by rewrite IH.
Qed.

Lemma string_length_substring n : ∀ s,
  (n ≤ String.length s)%nat → String.length (String.substring 0 n s) = n.
Proof.
  induction n as [|n IH]; intros s Hn.
  - by destruct s.
  - destruct s as [|c s]; cbn [String.length] in *; [lia|].
    cbn [String.substring String.length]. rewrite IH; lia.
Qed.

Lemma truncateMessage_cut_length m :
  (100 < String.length m)%nat →
  String.length (String.substring 0 97 m +:+ "...") = 100%nat.
Proof.
  intros Hm. rewrite string_length_app, string_length_substring by lia.
  reflexivity.
Qed.

Lemma truncateMessage_length msg :
  (String.length (truncateMessage msg) ≤ 100)%nat.
Proof.
  destruct msg as [m|]; cbn [truncateMessage]; [|cbn; lia].
  case_bool_decide as Hm; [rewrite truncateMessage_cut_length by done|]; lia.
Qed.

(** X1: [truncateMessage] never returns more than 100 characters.  A
    missing message gives the empty string, a message of at most 100
    characters is returned as it is, and a longer one is cut to its first
    97 characters followed by three dots, 100 characters in all. *)
Theorem truncateMessage_bounded (msg : option string) :
  (String.length (truncateMessage msg) ≤ 100)%nat
  ∧ (msg = None → truncateMessage msg = EmptyString)
  ∧ (∀ m, msg = Some m → (String.length m ≤ 100)%nat →
          truncateMessage msg = m)
  ∧ (∀ m, msg = Some m → (100 < String.length m)%nat →
          truncateMessage msg = String.substring 0 97 m +:+ "..."
          ∧ String.length (truncateMessage msg) = 100%nat).
Proof.
  split_and!.
  - apply truncateMessage_length.
  - by intros ->.
  - intros m -> Hm. cbn [truncateMessage].
    rewrite bool_decide_false by lia. done.
  - intros m -> Hm. cbn [truncateMessage].
    rewrite bool_decide_true by done.
    split; [done | by apply truncateMessage_cut_length].
Qed.

(** ** The context menu *)

Lemma set_spread_from_spec l : ∀ seen,
  NoDup (set_spread_from seen l)
  ∧ sublist (set_spread_from seen l) l
  ∧ ∀ x, x ∈ set_spread_from seen l ↔ x ∈ l ∧ x ∉ seen.
Proof.
  induction l as [|y l IH]; intros seen; cbn [set_spread_from].
  - split_and!; [constructor | constructor |].
    intros x. split; [by intros ?%elem_of_nil | by intros [?%elem_of_nil _]].
  - case_bool_decide as Hy.
    + destruct (IH seen) as (Hnd & Hsub & Hin). split_and!.
      * done.
      * by apply sublist_cons.
      * intros x. rewrite Hin, elem_of_cons. split.
        -- intros [? ?]. split; [by right | done].
        -- intros [[->|?] ?]; [done | by split].
    + destruct (IH ({[y]} ∪ seen)) as (Hnd & Hsub & Hin). split_and!.
      * apply NoDup_cons. split; [|done].
        rewrite Hin. intros [_ Hnot]. apply Hnot.
        apply elem_of_union_l. by apply elem_of_singleton.
      * by apply sublist_skip.
      * intros x. rewrite !elem_of_cons, Hin, not_elem_of_union,
          not_elem_of_singleton.
        split.
        -- intros [->|(? & ? & ?)]; [by split; [left|] | by split; [right|]].
        -- intros [[->|?] ?]; [by left|].
           destruct (decide (x = y)) as [->|?]; [by left | by right].
Qed.

Lemma elem_of_concat {A} (x : A) (ls : list (list A)) :
  x ∈ concat ls ↔ ∃ l, x ∈ l ∧ l ∈ ls.
Proof.
  rewrite list_elem_of_In, in_concat. split.
  - intros (l & Hl & Hx). exists l. by rewrite !list_elem_of_In.
  - intros (l & Hx & Hl). exists l. by rewrite <- !list_elem_of_In.
Qed.

Lemma allChatSessions_NoDup (nodeData : list Element) :
  NoDup (allChatSessions nodeData).
Proof.
  unfold allChatSessions, set_spread.
  match goal with |- context [set_spread_from ∅ ?l] =>
    by destruct (set_spread_from_spec l ∅) as (Hnd & _ & _) end.
Qed.

(** X2: the sessions the context menu is built from are the sessions of
    the nodes of [nodeData], each once: a session is listed exactly when
    some node element has it among its [chat_sessions]; edge elements and
    nodes without [chat_sessions] contribute nothing. *)
Theorem allChatSessions_distinct_sessions (nodeData : list Element) :
  NoDup (allChatSessions nodeData)
  ∧ ∀ session,
      session ∈ allChatSessions nodeData ↔
      ∃ node sessions,
        group_nodes node ∈ nodeData
        ∧ n_chat_sessions node = Some sessions
        ∧ session ∈ sessions.
Proof.
  unfold allChatSessions, set_spread.
  match goal with |- context [set_spread_from ∅ ?l] =>
    destruct (set_spread_from_spec l ∅) as (Hnd & _ & Hin) end.
  split; [done|]. intros session. rewrite Hin, elem_of_concat. split.
  - intros [(sessions & Hs & Hl) _].
    apply list_elem_of_omap in Hl as ([node|edge] & He & Hf); [|done].
    by exists node, sessions.
  - intros (node & sessions & He & Hn & Hs).
    split; [|apply not_elem_of_empty].
    exists sessions. split; [done|].
    apply list_elem_of_omap. by exists (group_nodes node).
Qed.

Lemma session_item_lookup (sessions : list string) i item :
  imap session_menu_item sessions !! i = Some item →
  ∃ session, sessions !! i = Some session
             ∧ item = session_menu_item i session.
Proof.
  rewrite list_lookup_imap. destruct (sessions !! i) as [session|]; [|done].
  intros [= <-]. by exists session.
Qed.

Lemma menuItems_lookup nodeData i item session :
  menuItems nodeData !! i = Some item →
  mi_session item = Some session →
  allChatSessions nodeData !! i = Some session
  ∧ item = session_menu_item i session.
Proof.
  unfold menuItems. intros Hl Hs.
  apply lookup_app_Some in Hl as [Hl|[_ Hl]].
  - apply session_item_lookup in Hl as (session' & Hl & ->).
    cbn in Hs. injection Hs as ->. done.
  - destruct (i - length (imap session_menu_item (allChatSessions nodeData)))%nat
      as [|[|?]]; cbn in Hl; simplify_eq; cbn in Hs; done.
Qed.

Lemma chat_session_id_inj (i j : nat) :
  "chat-session-" +:+ pretty i = "chat-session-" +:+ pretty j → i = j.
Proof.
  intros Heq. apply string_app_inv_head in Heq.
  by apply (inj pretty) in Heq.
Qed.

(** X3: the context menu has one entry per session of [nodeData] and two
    fixed entries after them, and the ids of its entries are pairwise
    distinct.  The entry of a session carries that session in its content
    and in its selector, which matches [;session;] in
    [chat_sessions_str]; activating it on any target, also one that
    belongs to several sessions, asks for navigation to that session at
    the depth of the target and then closes the modal. *)
Theorem menuItems_one_per_session (nodeData : list Element) :
  let items := menuItems nodeData in
  mi_id <$> items = menuItemIds nodeData
  ∧ length items = (length (allChatSessions nodeData) + 2)%nat
  ∧ NoDup (mi_id <$> items)
  ∧ (∀ session,
       session ∈ allChatSessions nodeData ↔
       ∃ item, item ∈ items ∧ mi_session item = Some session)
  ∧ (∀ i j a b session,
       items !! i = Some a → items !! j = Some b →
       mi_session a = Some session → mi_session b = Some session → i = j)
  ∧ (∀ item session,
       item ∈ items → mi_session item = Some session →
       mi_content item = "Open chat session " +:+ session
       ∧ mi_selector item =
           "node[chat_sessions_str *= " +:+ dquote +:+ ";" +:+ session
             +:+ ";" +:+ dquote +:+ "]"
       ∧ ∀ target s,
           on_menu_session session target s =
             (emit closeModal
                (emit (navigateToMessage (Some session) (getNodeDepth target))
                   s),
              Some tt)).
Proof.
  intros items. subst items.
  assert (mi_id <$> menuItems nodeData = menuItemIds nodeData) as Hids.
  { unfold menuItems, menuItemIds. rewrite fmap_app, fmap_imap. f_equal. }
  pose proof (allChatSessions_NoDup nodeData) as Hnd.
  split_and!.
  - done.
  - unfold menuItems. rewrite length_app, length_imap. done.
  - rewrite Hids. unfold menuItemIds. apply NoDup_app. split_and!.
    + apply NoDup_alt. intros i j id Hi Hj.
      rewrite list_lookup_imap in Hi, Hj.
      destruct (allChatSessions nodeData !! i); [|done].
      destruct (allChatSessions nodeData !! j); [|done].
      cbn in Hi, Hj. apply chat_session_id_inj. congruence.
    + intros id (i & session & -> & _)%elem_of_lookup_imap Hin.
      apply elem_of_cons in Hin as [Heq|Hin].
      * apply (f_equal list_ascii_of_string) in Heq.
        rewrite list_ascii_app in Heq. cbn in Heq. congruence.
      * apply list_elem_of_singleton in Hin as Heq.
        apply (f_equal list_ascii_of_string) in Heq.
        rewrite list_ascii_app in Heq. cbn in Heq. congruence.
    + apply (bool_decide_unpack _). by vm_compute.
  - intros session. split.
    + intros (i & Hi)%list_elem_of_lookup.
      exists (session_menu_item i session). split; [|done].
      unfold menuItems. apply elem_of_app. left.
      by apply elem_of_lookup_imap_2.
    + intros (item & (i & Hi)%list_elem_of_lookup & Hs).
      destruct (menuItems_lookup nodeData i item session Hi Hs) as [Hl _].
      by eapply list_elem_of_lookup_2.
  - intros i j a b session Ha Hb Hsa Hsb.
    destruct (menuItems_lookup nodeData i a session Ha Hsa) as [Hi _].
    destruct (menuItems_lookup nodeData j b session Hb Hsb) as [Hj _].
    by eapply NoDup_lookup.
  - intros item session (i & Hi)%list_elem_of_lookup Hs.
    destruct (menuItems_lookup nodeData i item session Hi Hs) as [_ ->].
    split_and!; done.
Qed.

(** ** More on tooltips *)

Lemma find_timer_fresh (l : list (Z * (Node * string))) t x :
  (∀ y, y ∈ l → y.1 < t) →
  List.find (λ y, Z.eqb y.1 t) (l ++ [(t, x)]) = Some (t, x).
Proof.
  intros Hl. induction l as [|y l IH]; cbn.
  - by rewrite Z.eqb_refl.
  - destruct (Z.eqb_spec y.1 t) as [Heq|Hne].
    + specialize (Hl y (list_elem_of_here _ _)). lia.
    + apply IH. intros z Hz. by apply Hl, list_elem_of_further.
Qed.

Lemma filter_timer_fresh (l : list (Z * (Node * string))) t :
  (∀ y, y ∈ l → y.1 < t) → filter (λ y, y.1 ≠ t) l = l.
Proof.
  intros Hl. induction l as [|y l IH]; [done|].
  rewrite filter_cons_True.
  - f_equal. apply IH. intros z Hz. by apply Hl, list_elem_of_further.
  - specialize (Hl y (list_elem_of_here _ _)). lia.
Qed.

Lemma pending_after_mouseover node s :
  timers_fresh s →
  pending (next_timer s) (node_mouseover node s)
  = Some (node, tooltip_content node).
Proof.
  intros [_ Hfresh]. unfold pending, node_mouseover.
  cbn [timers set_showTimeout set_next_timer set_timers].
  by rewrite find_timer_fresh.
Qed.

(** X4: a hover whose timer fires shows a tooltip with the text of the
    hovered node, stored under the id of the node; the pointer-out that
    follows hides that tooltip and leaves the pending timers as they were
    before the hover.  None of this calls a collaborator. *)
Theorem tooltip_shown_then_hidden (s : State) (node : Node) :
  timers_fresh s →
  let t := next_timer s in
  let shown := timer_fire t (node_mouseover node s) in
  let hidden := node_mouseout node shown in
  tippies shown !! n_id node = Some (mkTippy (tooltip_content node) true)
  ∧ pending t shown = None
  ∧ tippies hidden !! n_id node = Some (mkTippy (tooltip_content node) false)
  ∧ timers hidden = timers s
  ∧ calls hidden = calls s.
Proof.
  intros Hfresh t shown hidden.
  pose proof (pending_after_mouseover node s Hfresh) as Hpend. fold t in Hpend.
  destruct Hfresh as [Hpos Hfresh].
  assert (timers (clearTimeout t (node_mouseover node s)) = timers s) as Hclr.
  { unfold clearTimeout, node_mouseover.
    cbn [timers set_showTimeout set_next_timer set_timers].
    rewrite filter_app, filter_timer_fresh by done.
    rewrite filter_cons_False by (cbn; fold t; lia).
    by rewrite filter_nil, app_nil_r. }
  assert (shown =
            set_tippies
              (<[n_id node := mkTippy (tooltip_content node) true]> (tippies s))
              (clearTimeout t (node_mouseover node s))) as Hshown.
  { subst shown. unfold timer_fire. by rewrite Hpend. }
  assert (pending t shown = None) as Hnone.
  { apply pending_None. rewrite Hshown. cbn [timers set_tippies].
    rewrite Hclr. intros (y & Hy1 & Hy)%list_elem_of_fmap.
    specialize (Hfresh y Hy). fold t in Hfresh. lia. }
  assert (tippies shown !! n_id node
          = Some (mkTippy (tooltip_content node) true)) as Htip.
  { rewrite Hshown. cbn [tippies set_tippies]. apply lookup_insert_eq. }
  assert (showTimeout shown = Some t) as Hshow by (by rewrite Hshown).
  assert (truthy (JNum t) = true) as Htruthy.
  { cbn. apply negb_true_iff, Z.eqb_neq. subst t. lia. }
  assert (timers (clearTimeout t shown) = timers s) as Hclr2.
  { unfold clearTimeout at 1. cbn [timers set_timers]. rewrite Hshown.
    cbn [timers set_tippies]. rewrite Hclr.
    by apply filter_timer_fresh. }
  split_and!; try done.
  - subst hidden. unfold node_mouseout. rewrite Hshow, Htruthy.
    cbn [tippies clearTimeout set_timers]. rewrite Htip.
    cbn [tippies set_tippies tip_content]. apply lookup_insert_eq.
  - subst hidden. unfold node_mouseout. rewrite Hshow, Htruthy.
    cbn [tippies clearTimeout set_timers]. rewrite Htip.
    cbn [timers set_tippies]. exact Hclr2.
  - subst hidden. unfold node_mouseout. rewrite Hshow, Htruthy.
    cbn [tippies clearTimeout set_timers]. rewrite Htip.
    by rewrite Hshown.
Qed.

Lemma find_timer_app (l k : list (Z * (Node * string))) t x :
  List.find (λ y, Z.eqb y.1 t) l = Some x →
  List.find (λ y, Z.eqb y.1 t) (l ++ k) = Some x.
Proof.
  induction l as [|y l IH]; cbn; [done|].
  by destruct (Z.eqb y.1 t).
Qed.

Lemma find_timer_filter_ne (l : list (Z * (Node * string))) t u :
  t ≠ u →
  List.find (λ y, Z.eqb y.1 t) (filter (λ y, y.1 ≠ u) l)
  = List.find (λ y, Z.eqb y.1 t) l.
Proof.
  intros Hne. induction l as [|y l IH]; [done|].
  destruct (decide (y.1 = u)) as [Heq|Hyu].
  - rewrite filter_cons_False by (by intros ?). cbn.
    destruct (Z.eqb_spec y.1 t); [congruence | done].
  - rewrite filter_cons_True by done. cbn. by rewrite IH.
Qed.

(** X5: [showTimeout] holds one id only.  When a second node is hovered
    before the pointer-out of the first is handled, the pointer-out that
    follows cancels the timer of the second hover and leaves the timer
    of the first pending; when that timer fires, the tooltip of the first
    node is shown. *)
Theorem second_hover_leaves_first_timer_pending (s : State)
    (first second left : Node) :
  timers_fresh s →
  let t1 := next_timer s in
  let t2 := t1 + 1 in
  let out :=
    node_mouseout left (node_mouseover second (node_mouseover first s)) in
  pending t2 out = None
  ∧ pending t1 out = Some (first, tooltip_content first)
  ∧ tippies (timer_fire t1 out) !! n_id first
    = Some (mkTippy (tooltip_content first) true).
Proof.
  intros Hfresh t1 t2 out.
  pose proof (pending_after_mouseover first s Hfresh) as Hp1. fold t1 in Hp1.
  destruct Hfresh as [Hpos Hfresh].
  set (s2 := node_mouseover second (node_mouseover first s)) in *.
  assert (showTimeout s2 = Some t2) as Hshow by done.
  assert (truthy (JNum t2) = true) as Htruthy.
  { cbn. apply negb_true_iff, Z.eqb_neq. subst t2 t1. lia. }
  assert (pending t1 s2 = Some (first, tooltip_content first)) as Hp1'.
  { unfold pending in *. subst s2. unfold node_mouseover at 1.
    cbn [timers set_showTimeout set_next_timer set_timers].
    destruct (List.find _ (timers (node_mouseover first s)))
      as [x|] eqn:Hfind; [|done].
    by rewrite (find_timer_app _ _ _ x Hfind). }
  assert (timers out = timers (clearTimeout t2 s2)) as Htimers.
  { subst out. unfold node_mouseout. rewrite Hshow, Htruthy.
    by destruct (tippies (clearTimeout t2 s2) !! n_id left). }
  assert (pending t2 out = None) as Hp2.
  { apply pending_None. rewrite Htimers, clearTimeout_ids. tauto. }
  assert (pending t1 out = Some (first, tooltip_content first)) as Hp1out.
  { unfold pending in *. rewrite Htimers. unfold clearTimeout.
    cbn [timers set_timers].
    rewrite find_timer_filter_ne by (subst t2; lia). done. }
  split_and!; try done.
  unfold timer_fire. rewrite Hp1out. cbn [tippies set_tippies].
  apply lookup_insert_eq.
Qed.

(** X6: handling the same pointer-out twice is the same as handling it
    once. *)
Theorem node_mouseout_idempotent (node : Node) (s : State) :
  node_mouseout node (node_mouseout node s) = node_mouseout node s.
Proof.
  assert (∀ id s0, clearTimeout id (clearTimeout id s0) = clearTimeout id s0)
    as Hclr.
  { intros id s0. unfold clearTimeout. cbn [timers set_timers].
    rewrite list_filter_filter.
    rewrite (list_filter_iff _ (λ t, t.1 ≠ id)) by (intros x; tauto).
    reflexivity. }
  set (s1 := match showTimeout s with
             | Some id => if truthy (JNum id) then clearTimeout id s else s
             | None => s
             end).
  assert (match showTimeout s1 with
          | Some id => if truthy (JNum id) then clearTimeout id s1 else s1
          | None => s1
          end = s1) as Hs1.
  { subst s1. destruct (showTimeout s) as [id|] eqn:Hid.
    - destruct (truthy (JNum id)) eqn:Ht.
      + cbn [showTimeout clearTimeout set_timers]. rewrite Hid, Ht.
        apply Hclr.
      + by rewrite Hid, Ht.
    - by rewrite Hid. }
  assert (node_mouseout node s =
            match tippies s1 !! n_id node with
            | Some tip =>
                set_tippies
                  (<[n_id node := mkTippy (tip_content tip) false]> (tippies s1))
                  s1
            | None => s1
            end) as Hout by reflexivity.
  rewrite Hout. destruct (tippies s1 !! n_id node) as [tip|] eqn:Htip.
  - set (s2 := set_tippies _ s1).
    assert (match showTimeout s2 with
            | Some id => if truthy (JNum id) then clearTimeout id s2 else s2
            | None => s2
            end = s2) as Hs2.
    { change (showTimeout s2) with (showTimeout s1).
      destruct (showTimeout s1) as [id|] eqn:Hid; [|done].
      destruct (truthy (JNum id)) eqn:Ht; [|done].
      assert (filter (λ t, t.1 ≠ id) (timers s1) = timers s1) as Hf.
      { pose proof Hs1 as Hs1'. unfold clearTimeout in Hs1'.
        apply (f_equal timers) in Hs1'. exact Hs1'. }
      subst s2. unfold clearTimeout. cbn [timers set_tippies set_timers].
      by rewrite Hf. }
    unfold node_mouseout. rewrite Hs2. subst s2.
    cbn [tippies set_tippies]. rewrite lookup_insert_eq.
    cbn [tip_content]. unfold set_tippies. cbn. by rewrite insert_insert_eq.
  - unfold node_mouseout. by rewrite Hs1, Htip.
Qed.




Lemma same_outside_tooltips_step s0 s e :
  same_outside_tooltips s0 s → same_outside_tooltips s0 (tooltip_step s e).
Proof.
  intros Hs. destruct e as [node|node|id]; cbn [tooltip_step].
  - exact Hs.
  - unfold node_mouseout.
    destruct (showTimeout s) as [id|]; [destruct (truthy (JNum id))|];
      match goal with |- context [tippies ?s1 !! _] =>
        destruct (tippies s1 !! n_id node) end; exact Hs.
  - unfold timer_fire. destruct (pending id s) as [[? ?]|]; exact Hs.
Qed.

(** X8: the tooltip listeners keep to themselves.  No sequence of hovers,
    pointer-outs and timer events calls a collaborator or changes the
    settings, the stored context, the timeline data, the lock, the legend
    or the search field. *)
Theorem tooltips_touch_nothing_else (events : list TooltipEvent) (s : State) :
  same_outside_tooltips s (tooltip_run events s).
Proof.
  assert (∀ s', same_outside_tooltips s s' →
            same_outside_tooltips s (tooltip_run events s')) as Hgen.
  { unfold tooltip_run. induction events as [|e events IH]; intros s' Hs';
      [done|].
    cbn [foldl]. by apply IH, same_outside_tooltips_step. }
  apply Hgen. by repeat split.
Qed.

(** ** What the legend and the search leave alone *)

Lemma legend_effect_refl s : legend_effect s s.
Proof.
  split; [by repeat split|]. exists []. by rewrite app_nil_r.
Qed.

Lemma legend_effect_emit s s' c :
  highlight_call c = true → legend_effect s s' → legend_effect s (emit c s').
Proof.
  intros Hc [Hsame (l & Hl & Hall)]. split; [exact Hsame|].
  exists (l ++ [c])%list. split.
  - cbn [calls emit]. by rewrite Hl, app_assoc.
  - apply Forall_app. split; [done | by constructor].
Qed.

Lemma legend_effect_legendDiv s s' v :
  legend_effect s s' → legend_effect s (set_legendDiv v s').
Proof. intros [Hsame Hcalls]. by split. Qed.

Lemma legend_effect_lock s s' v :
  legend_effect s s' → legend_effect s (set_currentlyHighlighted v s').
Proof. intros [Hsame Hcalls]. by split. Qed.

Lemma legend_effect_search s s' v :
  legend_effect s s' → legend_effect s (set_transparent_search v s').
Proof. intros [Hsame Hcalls]. by split. Qed.

Lemma legend_effect_step s0 s e :
  legend_effect s0 s → legend_effect s0 (legend_step s e).
Proof.
  intros Hs. destruct e as [i|i|i|cy|value]; cbn [legend_step].
  - unfold legend_mouseover. destruct (legend_item i s) as [it|]; [|done].
    destruct (_ && _); [by apply legend_effect_emit | done].
  - unfold legend_mouseout. destruct (legend_item i s) as [it|]; [|done].
    destruct (_ && _); [by apply legend_effect_emit | done].
  - unfold legend_click. destruct (legend_item i s) as [it|]; [|done].
    case_bool_decide.
    + unfold classList_set.
      by apply legend_effect_lock, legend_effect_legendDiv, legend_effect_emit.
    + unfold classList_set.
      apply legend_effect_lock, legend_effect_legendDiv, legend_effect_emit;
        [done|].
      destruct (truthy_str (currentlyHighlighted s)); [|done].
      unfold clear_active_items.
      by apply legend_effect_legendDiv, legend_effect_emit.
  - destruct (legendDiv s) as [old|] eqn:Hold.
    + rewrite (createLegend_unfold cy s old Hold). cbn [fst].
      by apply legend_effect_legendDiv.
    + unfold createLegend, bind, get, deref, throw. by rewrite Hold.
  - unfold search_input, bind, get, deref, ret, modify, call, throw.
    destruct (transparent_search s); [|done]. cbn [fst].
    by apply legend_effect_emit, legend_effect_search.
Qed.

(** X9: the legend and the search field only highlight.  Whatever the
    state, no sequence of legend hovers, legend clicks, legend rebuilds
    and searches changes the settings, the stored context, the layout, the
    timeline data, the controls or the tooltips; the only calls made are
    [highlightElements], [restoreElements] and [highlightNodesByQuery];
    so the rebuild decision for any context is the same afterwards. *)
Theorem legend_events_only_highlight (events : list LegendEvent) (s : State) :
  let s' := legend_run events s in
  same_outside_legend s s'
  ∧ Forall (λ c, highlight_call c = true) (issued s s')
  ∧ ∀ context,
      rebuild_needed (lastContext s') context
      = rebuild_needed (lastContext s) context.
Proof.
  intros s'.
  assert (legend_effect s s') as [Hsame (l & Hl & Hall)].
  { subst s'. generalize (legend_effect_refl s). generalize s at 2 4.
    unfold legend_run. induction events as [|e events IH]; intros s1 Hs1;
      [done|].
    cbn [foldl]. by apply IH, legend_effect_step. }
  split_and!.
  - done.
  - by rewrite (issued_app s s' l Hl).
  - intros context. destruct Hsame as (_ & -> & _). done.
Qed.

Lemma set_active_inactive it :
  li_active it = false → set_active false it = it.
Proof. destruct it as [sel sym text act]. cbn. by intros ->. Qed.

(** X10: clicking a legend row twice is a round trip.  In a state in
    which the lock and the legend agree and nothing is locked, two clicks
    on the same row issue [highlightElements] for its selector and then
    [restoreElements], and leave the lock empty and the legend exactly
    as it was. *)
Theorem legend_double_click_round_trip (s : State) (i : nat)
    (it : LegendItem) :
  lock_consistent s →
  currentlyHighlighted s = None →
  legend_item i s = Some it →
  let s2 := legend_click i (legend_click i s) in
  currentlyHighlighted s2 = None
  ∧ legendDiv s2 = legendDiv s
  ∧ issued s s2 = [highlightElements (li_selector it); restoreElements].
Proof.
  intros Hinv Hcur (items & Hitems & Hit)%legend_item_Some s2.
  assert (∀ j b, items !! j = Some b → li_active b = false) as Hinactive.
  { intros j b Hb. destruct (li_active b) eqn:Hact; [|done].
    destruct Hinv as [_ Hleg]. destruct (Hleg items Hitems) as (_ & _ & Ha).
    rewrite (Ha b) in Hcur; [done | by eapply list_elem_of_lookup_2 | done]. }
  subst s2. rewrite (click_unlocked i s items it Hitems Hit Hcur).
  set (s1 := set_currentlyHighlighted _ _).
  assert (legendDiv s1 = Some (alter (set_active true) i items)) as Hitems1
    by done.
  assert (alter (set_active true) i items !! i = Some (set_active true it))
    as Hit1 by (by rewrite list_lookup_alter_eq, Hit).
  rewrite (click_locked i s1 _ (set_active true it) Hitems1 Hit1) by done.
  split_and!.
  - done.
  - cbn [legendDiv set_currentlyHighlighted set_legendDiv]. rewrite Hitems.
    f_equal. apply list_eq. intros j.
    destruct (decide (i = j)) as [<-|Hne].
    + rewrite !list_lookup_alter_eq, Hit. cbn. f_equal.
      rewrite <- (set_active_inactive it) at 2 by (by eapply Hinactive).
      done.
    + by rewrite !list_lookup_alter_ne.
  - apply issued_app. subst s1. cbn [calls emit set_currentlyHighlighted
      set_legendDiv]. by rewrite <- app_assoc.
Qed.

(** ** Rendering with a container *)

Lemma initializeCytoscape_with_container nodeData s :
  myDiagramDiv s = true →
  ∃ s', initializeCytoscape nodeData s = (s', Some (Some (cytoscape nodeData)))
        ∧ calls s' = (calls s ++ construction_calls)%list
        ∧ transparent_search s' = transparent_search s
        ∧ legendDiv s' = legendDiv s
        ∧ currentlyHighlighted s' = currentlyHighlighted s.
Proof.
  intros Hdiv. unfold initializeCytoscape, bind, get, call, modify, ret.
  rewrite Hdiv. cbn [negb]. eexists. split; [reflexivity|].
  split_and!; try done. cbn [calls emit]. by rewrite <- !app_assoc.
Qed.

Lemma setupEventHandlers_ready cy data s field old :
  transparent_search s = Some field →
  legendDiv s = Some old →
  setupEventHandlers cy (Some data) s =
    (emit (cy_on "mouseout" "node")
       (emit (cy_on "mouseover" "node")
          (emit (cy_on "render" EmptyString)
             (emit (cy_on "tap" "node")
                (emit closeOpenDrawers
                   (createLegend cy
                      (emit cy_ready
                         (emit (cy_contextMenus (menuItemIds data))
                            (emit (addEventListener "transparent-search"
                                     "input") s)))).1)))),
     Some tt).
Proof.
  intros Hsearch Hold.
  unfold setupEventHandlers, on_ready, bind, deref, get, ret, call, modify.
  rewrite Hsearch.
  by rewrite (createLegend_unfold _ _ old) by done.
Qed.

Lemma setupEventHandlers_no_legend cy data s field :
  transparent_search s = Some field →
  legendDiv s = None →
  setupEventHandlers cy (Some data) s =
    (emit cy_ready
       (emit (cy_contextMenus (menuItemIds data))
          (emit (addEventListener "transparent-search" "input") s)),
     None).
Proof.
  intros Hsearch Hnone.
  unfold setupEventHandlers, on_ready, createLegend, bind, deref, get, ret,
    call, modify, throw.
  rewrite Hsearch. cbn [legendDiv emit]. by rewrite Hnone.
Qed.

(** X11: with the container on the page and [setupStylesAndData]
    returning, [renderCytoscapeDiagram] always constructs an instance.
    If the data is not [null] and the page has the search field and the
    legend container, it returns: it has registered the search listener
    and the context menu, run the [ready] callback, which rebuilds the
    legend from the data and closes the open drawers, and then bound the
    four graph listeners, in this order; the lock is as before.  If the
    legend container is missing, the [ready] callback throws and the
    render with it: the search listener and the context menu are
    registered, the drawers stay, and none of the four graph listeners is
    bound.  If the data is [null] or the search field is missing, it
    throws right after the construction, with nothing registered. *)
Theorem render_with_container (nodeData : option (list Element))
    (s : State) :
  myDiagramDiv s = true →
  setupStylesAndData nodeData = true →
  let result := renderCytoscapeDiagram nodeData s in
  (∀ data field old,
     nodeData = Some data → transparent_search s = Some field →
     legendDiv s = Some old →
     result.2 = Some tt
     ∧ issued s result.1 =
         (call_setupStylesAndData :: construction_calls
            ++ calls_until_ready data ++ [closeOpenDrawers]
            ++ graph_listener_calls)%list
     ∧ legendDiv result.1 = legendDiv (createLegend (cytoscape nodeData) s).1
     ∧ (∀ it, it ∈ default [] (legendDiv result.1) → li_active it = false)
     ∧ currentlyHighlighted result.1 = currentlyHighlighted s)
  ∧ (∀ data field,
       nodeData = Some data → transparent_search s = Some field →
       legendDiv s = None →
       result.2 = None
       ∧ issued s result.1 =
           (call_setupStylesAndData :: construction_calls
              ++ calls_until_ready data)%list
       ∧ legendDiv result.1 = None)
  ∧ (nodeData = None ∨ transparent_search s = None →
     result.2 = None
     ∧ issued s result.1 =
         (call_setupStylesAndData :: construction_calls)%list).
Proof.
  intros Hdiv Hstyles result.
  destruct (initializeCytoscape_with_container nodeData
              (emit call_setupStylesAndData s) Hdiv)
    as (s1 & Hinit & Hcalls & Hfield & Hlegend & Hlock).
  cbn [calls emit] in Hcalls. rewrite <- app_assoc in Hcalls.
  cbn [transparent_search legendDiv currentlyHighlighted emit]
    in Hfield, Hlegend, Hlock.
  assert (result = setupEventHandlers (cytoscape nodeData) nodeData s1)
    as ->.
  { subst result. unfold renderCytoscapeDiagram. rewrite Hstyles.
    rewrite bind_call. unfold bind at 1. by rewrite Hinit. }
  split_and!.
  - intros data field old -> Hsearch Hold.
    rewrite (setupEventHandlers_ready _ data s1 field old) by congruence.
    rewrite (createLegend_unfold _ _ old)
      by (cbn [legendDiv emit]; congruence).
    rewrite (createLegend_unfold _ s old Hold).
    cbn [fst snd]. split_and!.
    + done.
    + apply issued_app. cbn [calls emit set_legendDiv]. rewrite Hcalls.
      rewrite <- !app_assoc. reflexivity.
    + done.
    + cbn [legendDiv emit set_legendDiv default from_option id].
      intros it Hit.
      by apply (built_legend_selectors (cy_nodes (cytoscape (Some data)))
                  (cy_edges (cytoscape (Some data)))).
    + cbn [currentlyHighlighted emit set_legendDiv]. done.
  - intros data field -> Hsearch Hnone.
    rewrite (setupEventHandlers_no_legend _ data s1 field) by congruence.
    cbn [fst snd]. split_and!.
    + done.
    + apply issued_app. cbn [calls emit]. rewrite Hcalls.
      rewrite <- !app_assoc. reflexivity.
    + cbn [legendDiv emit]. congruence.
  - intros [->|Hsearch].
    + unfold setupEventHandlers, bind, deref, throw. cbn [fst snd].
      split; [done|]. by apply issued_app.
    + destruct nodeData as [data|].
      * assert (setupEventHandlers (cytoscape (Some data)) (Some data) s1
                  = (s1, None)) as ->.
        { unfold setupEventHandlers, bind, deref, get, ret, throw.
          by rewrite Hfield, Hsearch. }
        cbn [fst snd]. split; [done|]. by apply issued_app.
      * unfold setupEventHandlers, bind, deref, throw. cbn [fst snd].
        split; [done|]. by apply issued_app.
Qed.

(** X12: the [ready] callback rebuilds the legend and then closes the
    open drawers; when the page has no legend container it throws at
    once, the drawers are not closed and nothing changes. *)
Theorem on_ready_outcomes (cy : Cy) (s : State) :
  (∀ old, legendDiv s = Some old →
     ∃ s', on_ready cy s = (s', Some tt)
           ∧ legendDiv s' = legendDiv (createLegend cy s).1
           ∧ (∀ it, it ∈ default [] (legendDiv s') → li_active it = false)
           ∧ currentlyHighlighted s' = currentlyHighlighted s
           ∧ issued s s' = [closeOpenDrawers])
  ∧ (legendDiv s = None → on_ready cy s = (s, None)).
Proof.
  split.
  - intros old Hold. unfold on_ready, bind.
    rewrite (createLegend_unfold cy s old Hold).
    eexists. split; [reflexivity|]. split_and!; try done.
    + cbn [legendDiv emit set_legendDiv default from_option id].
      intros it Hit.
      by apply (built_legend_selectors (cy_nodes cy) (cy_edges cy)).
    + by apply issued_app.
  - intros Hnone. unfold on_ready, createLegend, bind, get, deref, throw.
    by rewrite Hnone.
Qed.

(** ** Rebuilds that fail or load nothing *)

Lemma for_each_console_log_data (l : list string) : ∀ s,
  lastTimelineData (for_each l (λ chat, call (console_log chat)) s).1
    = lastTimelineData s
  ∧ layout (for_each l (λ chat, call (console_log chat)) s).1 = layout s.
Proof.
  induction l as [|chat l IH]; intros s; [done|].
  cbn [for_each]. rewrite bind_call. apply (IH (emit (console_log chat) s)).
Qed.

Lemma load_timeline_data_fails context s :
  ¬ data_available context →
  ∃ s', load_timeline_data context s = (s', None)
        ∧ timeline s' = timeline s
        ∧ lastContext s' = lastContext s
        ∧ lastTimelineData s' = lastTimelineData s
        ∧ layout s' = layout s.
Proof.
  unfold data_available, load_timeline_data.
  destruct (truthy (characterId context)); cbn [negb].
  - intros Hno. unfold bind at 1, deref at 1.
    destruct (characters context !! _) as [character|] eqn:Hch;
      [|by eexists].
    unfold ret at 1. rewrite bind_call. unfold bind at 1, deref at 1.
    destruct (fetchData (avatar character)) as [payload|] eqn:Hfetch;
      [|by eexists].
    unfold ret at 1. rewrite bind_call. unfold bind at 1, deref at 1.
    destruct (prepareData (data_fetched payload) false) as [data|] eqn:Hprep;
      [|by eexists].
    exfalso. apply Hno. by exists character, payload, data.
  - destruct (truthy (groupId context)); [|by intros []].
    intros Hno. unfold bind at 1, deref at 1.
    destruct (List.find _ (groups context)) as [group|] eqn:Hfind;
      [|by eexists].
    unfold ret at 1. unfold bind at 1.
    destruct (for_each_console_log (g_chats group) s)
      as (s1 & Hrun & Ht & Hl & Hc).
    pose proof (for_each_console_log_data (g_chats group) s) as [Hd Hlay].
    rewrite Hrun in Hd, Hlay. cbn [fst] in Hd, Hlay.
    rewrite Hrun. rewrite bind_call. unfold bind at 1, deref at 1.
    destruct (prepareData (data_object (g_chats group)) true) as [data|]
      eqn:Hprep.
    + exfalso. apply Hno. by exists group, data.
    + eexists. split; [reflexivity|]. by split_and!.
Qed.

(** X13: when the data of the incoming context cannot be had (the
    character or the group is not found, or [fetchData] or [prepareData]
    is rejected), a needed rebuild throws before anything is stored: the
    stored context, the timeline data, the layout and the settings are
    as before, so the old graph stays and the next activation tries
    again. *)
Theorem failed_rebuild_keeps_state (context : Context) (s : State) :
  context_differs s context →
  ¬ data_available context →
  ∃ s',
    updateTimelineDataIfNeeded context s = (s', None)
    ∧ lastContext s' = lastContext s
    ∧ lastTimelineData s' = lastTimelineData s
    ∧ layout s' = layout s
    ∧ timeline s' = timeline s
    ∧ context_differs s' context.
Proof.
  intros Hdiff Hno. pose proof Hdiff as Hneed.
  apply rebuild_needed_spec in Hneed.
  destruct (load_timeline_data_fails context s Hno)
    as (s' & Hrun & Ht & Hl & Hd & Hlay).
  exists s'. split_and!; try done.
  - unfold updateTimelineDataIfNeeded, bind at 1, get. rewrite Hneed.
    unfold bind at 1. by rewrite Hrun.
  - unfold context_differs. by rewrite Hl.
Qed.

(** X14: a context with neither a character nor a group ([characterId]
    and [groupId] falsy: [undefined], [null], the empty string, the
    number 0) still counts as rebuilt when it differs from the stored
    one: the call returns [true] and stores the context, but asks no
    collaborator for data and leaves the timeline data as it was. *)
Theorem rebuild_for_empty_context_loads_nothing (context : Context)
    (s : State) (tl : Settings) :
  truthy (characterId context) = false →
  truthy (groupId context) = false →
  context_differs s context →
  timeline s = Some tl →
  ∃ s',
    updateTimelineDataIfNeeded context s = (s', Some true)
    ∧ lastContext s' = Some context
    ∧ lastTimelineData s' = lastTimelineData s
    ∧ issued s s' = [console_log "Timeline data updated"].
Proof.
  intros Hchar Hgroup Hdiff Htl. apply rebuild_needed_spec in Hdiff.
  unfold updateTimelineDataIfNeeded, bind at 1, get. rewrite Hdiff.
  assert (load_timeline_data context s = (s, Some tt)) as Hload.
  { unfold load_timeline_data. by rewrite Hchar, Hgroup. }
  unfold bind at 1. rewrite Hload.
  rewrite bind_modify, bind_call.
  rewrite !(bind_timeline_get _ _ _ tl) by exact Htl.
  rewrite bind_modify. unfold ret.
  eexists. split; [reflexivity|]. split_and!; try done.
  by apply issued_app.
Qed.


(** ** The lock across a rebuild of the legend *)

(** X15: [createLegend] does not reset the lock.  After a rebuild while
    a selector is locked, the selector is still locked although no row
    of the new legend is marked active; hovering the row of that selector
    previews nothing, and the first click on it unlocks: it issues
    [restoreElements] alone and leaves nothing locked. *)
Theorem legend_rebuild_keeps_lock (cy : Cy) (s : State)
    (old : list LegendItem) (locked : string) :
  legendDiv s = Some old →
  currentlyHighlighted s = Some locked →
  let s1 := (createLegend cy s).1 in
  currentlyHighlighted s1 = Some locked
  ∧ (∀ i it, legend_item i s1 = Some it → li_active it = false)
  ∧ ∀ i it, legend_item i s1 = Some it → li_selector it = locked →
      legend_mouseover i s1 = s1
      ∧ currentlyHighlighted (legend_click i s1) = None
      ∧ issued s1 (legend_click i s1) = [restoreElements].
Proof.
  intros Hold Hcur s1. subst s1.
  rewrite (createLegend_unfold cy s old Hold). cbn [fst].
  set (s1 := set_legendDiv _ s).
  assert (currentlyHighlighted s1 = Some locked) as Hcur1 by done.
  split_and!.
  - done.
  - intros i it (items & [= <-] & Hit)%legend_item_Some.
    apply (built_legend_selectors (cy_nodes cy) (cy_edges cy)).
    by eapply list_elem_of_lookup_2.
  - intros i it Hitem Hsel. pose proof Hitem as Hitem'.
    apply legend_item_Some in Hitem as (items & Hitems & Hit).
    split_and!.
    + unfold legend_mouseover. rewrite Hitem', Hcur1, Hsel.
      rewrite bool_decide_true by done. by rewrite andb_false_r.
    + rewrite (click_locked i s1 items it Hitems Hit) by congruence. done.
    + rewrite (click_locked i s1 items it Hitems Hit) by congruence.
      apply issued_emit.
Qed.

(** ** More on settings *)

Lemma for_each_merge_default_present l : ∀ s tl,
  timeline s = Some tl →
  Forall (λ entry : string * JVal, is_Some (tl !! entry.1)) l →
  for_each l merge_default s = (s, Some tt).
Proof.
  induction l as [|entry l IH]; intros s tl Htl Hall; [done|].
  apply Forall_cons in Hall as [Hentry Hall].
  cbn [for_each]. unfold bind at 1.
  assert (merge_default entry s = (s, Some tt)) as ->.
  { unfold merge_default, bind, get, deref, ret. rewrite Htl.
    by rewrite decide_True. }
  by apply (IH s tl).
Qed.

Lemma default_lookup_is_Some k :
  is_Some ((list_to_map defaultSettings : Settings) !! k)
  ↔ k ∈ defaultSettings.*1.
Proof.
  split.
  - intros [v Hv]. apply elem_of_list_to_map_2 in Hv.
    apply list_elem_of_fmap. by exists (k, v).
  - intros Hk. destruct ((list_to_map defaultSettings : Settings) !! k)
      eqn:Hnone; [done|].
    by apply not_elem_of_list_to_map in Hnone.
Qed.

(** X16: the merge of [loadSettings] completes the settings and is
    idempotent.  After it a key is present exactly when it was present
    before or is one of the fifteen option keys; and running the merge
    again on the result changes nothing and logs nothing. *)
Theorem loadSettings_merge_idempotent (s : State) :
  ∃ s1 m,
    loadSettings_merge s = (s1, Some tt)
    ∧ timeline s1 = Some m
    ∧ (∀ k, is_Some (m !! k) ↔
            is_Some (default (∅ : Settings) (timeline s) !! k)
            ∨ k ∈ defaultSettings.*1)
    ∧ loadSettings_merge s1 = (s1, Some tt).
Proof.
  destruct (loadSettings_merge_spec s) as (s1 & m & Hrun & Hm & _ & Hlook).
  exists s1, m.
  assert (∀ k, is_Some (m !! k) ↔
               is_Some (default (∅ : Settings) (timeline s) !! k)
               ∨ k ∈ defaultSettings.*1) as Hdom.
  { intros k. rewrite Hlook, <- default_lookup_is_Some.
    destruct (default ∅ (timeline s) !! k) as [v|].
    - split; [by left | done].
    - split; [by right | by intros [[? ?]|?]]. }
  split_and!; try done.
  unfold loadSettings_merge, bind at 1, get. rewrite Hm.
  unfold bind at 1, ret at 1.
  apply (for_each_merge_default_present defaultSettings s1 m Hm).
  apply Forall_forall. intros [k v] Hin. apply Hdom. right.
  apply list_elem_of_fmap. by exists (k, v).
Qed.

Lemma for_each_merge_default_lastContext l : ∀ s,
  lastContext (for_each l merge_default s).1 = lastContext s.
Proof.
  induction l as [|entry l IH]; intros s; [done|].
  cbn [for_each]. unfold bind at 1.
  assert (lastContext (merge_default entry s).1 = lastContext s) as Hstep.
  { unfold merge_default, bind, get, deref, ret, call, modify, throw.
    destruct (timeline s) as [tl|]; [|done].
    by destruct (decide (is_Some (tl !! entry.1))). }
  destruct (merge_default entry s) as [s1 [[]|]]; cbn [fst] in *.
  - by rewrite IH.
  - done.
Qed.

Lemma loadSettings_merge_lastContext s :
  lastContext (loadSettings_merge s).1 = lastContext s.
Proof.
  unfold loadSettings_merge, bind at 1, get.
  destruct (timeline s).
  - unfold bind at 1, ret at 1. apply for_each_merge_default_lastContext.
  - unfold bind, call, modify. cbn beta iota.
    by rewrite for_each_merge_default_lastContext.
Qed.

Lemma on_input_lastContext id key s tl :
  timeline s = Some tl →
  includes id "color-picker" = false →
  setting_of_id id = Some key →
  ∃ s', on_input id s = (s', Some tt)
    ∧ is_Some (timeline s')
    ∧ controls s' = controls s
    ∧ lastContext s' =
        (if bool_decide (is_Some (controls s !! id)) then None
         else lastContext s).
Proof.
  intros Htl Hcp Hmap. unfold on_input, bind at 1, get.
  destruct (controls s !! id) as [c|] eqn:Hc.
  - rewrite Hcp, Hmap.
    destruct (onInputChange_spec id c key JNull s tl Htl)
      as (s' & Hrun & Ht & Hlast & Hctl).
    exists s'. rewrite Hrun, Ht. by rewrite bool_decide_true.
  - exists s. rewrite Htl. by rewrite bool_decide_false by (by intros [? ?]).
Qed.

Lemma refresh_lastContext r s m :
  timeline s = Some m →
  wired r →
  ∃ s', refresh r s = (s', Some tt)
    ∧ is_Some (timeline s')
    ∧ (∀ id', is_Some (controls s' !! id') ↔ is_Some (controls s !! id'))
    ∧ lastContext s' =
        (if triggers (controls s) r then None else lastContext s).
Proof.
  intros Hm Hw. destruct r as [k [id key]].
  assert (∀ (f : Control → Control) id',
            is_Some (alter f id (controls s) !! id')
            ↔ is_Some (controls s !! id')) as Halter.
  { intros f id'. destruct (decide (id = id')) as [->|Hne].
    - rewrite lookup_alter_eq. by rewrite fmap_is_Some.
    - by rewrite lookup_alter_ne. }
  destruct k; unfold wired, triggers in *; cbn [fst snd] in *.
  - destruct Hw as [Hcp Hmap].
    unfold refresh, refresh_val, timeline_get, jq_val, bind, get, deref,
      ret, modify.
    rewrite Hm. cbn beta iota.
    match goal with |- context [on_input id ?s1] =>
      destruct (on_input_lastContext id key s1 m Hm Hcp Hmap)
        as (s' & Hrun & Ht & Hctl & Hlast); rewrite Hrun end.
    exists s'. split_and!; try done.
    + intros id'. rewrite Hctl. apply Halter.
    + rewrite Hlast. cbn [controls set_controls lastContext].
      by rewrite (bool_decide_ext _ _ (Halter _ id)).
  - destruct Hw as [Hcp Hmap].
    unfold refresh, refresh_checked, timeline_get, jq_prop_checked, bind, get,
      deref, ret, modify.
    rewrite Hm. cbn beta iota.
    match goal with |- context [on_input id ?s1] =>
      destruct (on_input_lastContext id key s1 m Hm Hcp Hmap)
        as (s' & Hrun & Ht & Hctl & Hlast); rewrite Hrun end.
    exists s'. split_and!; try done.
    + intros id'. rewrite Hctl. apply Halter.
    + rewrite Hlast. cbn [controls set_controls lastContext].
      by rewrite (bool_decide_ext _ _ (Halter _ id)).
  - unfold refresh, refresh_color, timeline_get, jq_attr_color, bind, get,
      deref, ret, modify.
    rewrite Hm. eexists. split; [reflexivity|].
    split_and!; [by exists m | | done].
    intros id'. apply Halter.
Qed.

Lemma for_each_refresh_lastContext l : ∀ s m,
  timeline s = Some m →
  Forall wired l →
  ∃ s', for_each l refresh s = (s', Some tt)
    ∧ lastContext s' =
        (if existsb (triggers (controls s)) l then None else lastContext s).
Proof.
  induction l as [|r l IH]; intros s m Hm Hw.
  - by exists s.
  - apply Forall_cons in Hw as [Hr Hw].
    destruct (refresh_lastContext r s m Hm Hr)
      as (s1 & Hrun & [m1 Hm1] & Hctl & Hlast).
    destruct (IH s1 m1 Hm1 Hw) as (s' & Hrun' & Hlast').
    exists s'. split.
    + cbn [for_each]. unfold bind at 1. by rewrite Hrun.
    + rewrite Hlast', Hlast. cbn [existsb].
      assert (existsb (triggers (controls s1)) l
              = existsb (triggers (controls s)) l) as ->.
      { clear -Hctl.
        induction l as [|r' l IHl]; [done|]. cbn [existsb]. rewrite IHl.
        f_equal. unfold triggers. destruct r'.1; try done;
          apply bool_decide_ext, Hctl. }
      destruct (triggers (controls s) r); cbn [orb]; [|done].
      by destruct (existsb (triggers (controls s)) l).
Qed.

(** X17: loading the settings can itself invalidate the stored context.
    [loadSettings] always returns; if the page has at least one of the
    eleven controls it re-triggers (the sliders, the selects, the
    checkboxes), their listeners run and no stored context is left, so
    the next activation rebuilds; if the page has none of them, the stored
    context is as before. *)
Theorem loadSettings_invalidates_context (s : State) :
  ∃ s2,
    loadSettings s = (s2, Some tt)
    ∧ ((∃ r, r ∈ ui_refreshes ∧ triggers (controls s) r = true) →
       lastContext s2 = None)
    ∧ ((∀ r, r ∈ ui_refreshes → triggers (controls s) r = false) →
       lastContext s2 = lastContext s).
Proof.
  destruct (loadSettings_merge_spec s) as (s1 & m & Hrun & Hm & Hctl & _).
  pose proof (loadSettings_merge_lastContext s) as Hlast1.
  rewrite Hrun in Hlast1. cbn [fst] in Hlast1.
  destruct (for_each_refresh_lastContext ui_refreshes s1 m Hm
              ui_refreshes_wired) as (s2 & Hrun2 & Hlast2).
  rewrite Hctl, Hlast1 in Hlast2.
  exists s2. split_and!.
  - unfold loadSettings, bind. rewrite Hrun.
    by rewrite loadSettings_update_ui_table.
  - intros (r & Hin & Hr). rewrite Hlast2.
    assert (existsb (triggers (controls s)) ui_refreshes = true) as ->; [|done].
    apply existsb_exists. exists r. by rewrite <- list_elem_of_In.
  - intros Hnone. rewrite Hlast2.
    destruct (existsb (triggers (controls s)) ui_refreshes) eqn:Hex; [|done].
    apply existsb_exists in Hex as (r & Hin & Hr).
    rewrite <- list_elem_of_In in Hin. by rewrite Hnone in Hr.
Qed.

(** X18: the reset button restores the defaults.  Its listener always
    returns and ends with [saveSettingsDebounced]; whatever was stored
    before is discarded: every key other than the eleven that the
    refresh of the controls writes back holds its default, or nothing
    when it is not an option; and when each control reads back the value
    written to it, the settings are exactly the defaults. *)
Theorem resetSettings_restores_defaults (s : State) :
  let defaults : Settings := list_to_map defaultSettings in
  ∃ s' m',
    resetSettings s = (s', Some tt)
    ∧ timeline s' = Some m'
    ∧ (∀ k, k ∉ written_back ui_refreshes → m' !! k = defaults !! k)
    ∧ (Forall (reads_back defaults (controls s)) ui_refreshes →
       m' = defaults)
    ∧ ∃ before, calls s' = (before ++ [saveSettingsDebounced])%list.
Proof.
  intros defaults.
  set (s0 := set_timeline (Some defaults) s).
  destruct (loadSettings_merge_spec s0) as (s1 & m & Hrun & Hm & Hctl & Hlook).
  assert (m = defaults) as ->.
  { apply map_eq. intros k. rewrite Hlook.
    change (default ∅ (timeline s0)) with defaults.
    destruct (defaults !! k) eqn:Hd; [done | exact Hd]. }
  destruct (for_each_refresh_runs ui_refreshes s1 defaults Hm
              ui_refreshes_wired) as (s2 & m2 & Hrun2 & Hm2 & Hframe).
  assert (resetSettings s = (emit saveSettingsDebounced s2, Some tt)) as Hreset.
  { unfold resetSettings. rewrite bind_modify. fold defaults. fold s0.
    unfold bind at 1. unfold loadSettings at 1, bind at 1. rewrite Hrun.
    rewrite loadSettings_update_ui_table, Hrun2. reflexivity. }
  exists (emit saveSettingsDebounced s2), m2. split_and!; try done.
  - intros Hrb.
    destruct (for_each_refresh_faithful ui_refreshes s1 defaults Hm
                ui_refreshes_NoDup ui_refreshes_wired)
      as (s2' & Hrun2' & Hm2').
    + exact ui_refreshes_have_defaults.
    + by rewrite Hctl.
    + rewrite Hrun2 in Hrun2'. injection Hrun2' as ->. congruence.
  - by exists (calls s2).
Qed.

Lemma onInputChange_calls id element settingName rgbaValue s tl :
  timeline s = Some tl →
  let value := input_value element rgbaValue in
  calls (onInputChange id element settingName rgbaValue s).1 =
    (calls s
     ++ (if isNaN value then []
         else [set_label_text (id +:+ "_value") (Math_round value)])
     ++ [saveSettingsDebounced])%list.
Proof.
  intros Htl value.
  unfold onInputChange, call, bind, get, deref, ret, modify. rewrite Htl.
  fold value.
  destruct (isNaN value);
    cbn [fst calls emit set_lastContext set_timeline];
    by rewrite <- ?app_assoc.
Qed.

(** X19: each settings control writes its own setting and no other.  For
    a control [id] that [idsToSettingsMap] maps to [key], on existing
    settings: if the page has the control, its listener stores under
    [key] the value read from the control (the checked state of a
    checkbox, the rgba of the event for a colour picker, the value
    otherwise), leaves every other setting and the controls as they
    were, updates the label of the control only when the value is
    numeric, and ends with [saveSettingsDebounced]; if the page does not
    have it, nothing happens.  The other kind of event ([input] on a
    colour picker, [change] elsewhere) has no listener. *)
Theorem listener_writes_its_setting (id key : string) (rgba : JVal)
    (s : State) (tl : Settings) :
  (id, key) ∈ idsToSettingsMap →
  timeline s = Some tl →
  (∀ element, controls s !! id = Some element →
     let value :=
       input_value element
         (if includes id "color-picker" then rgba else JNull) in
     ∃ s',
       listener id rgba s = (s', Some tt)
       ∧ timeline s' = Some (<[key := value]> tl)
       ∧ (∀ k, k ≠ key → <[key := value]> tl !! k = tl !! k)
       ∧ controls s' = controls s
       ∧ issued s s' =
           ((if isNaN value then []
             else [set_label_text (id +:+ "_value") (Math_round value)])
            ++ [saveSettingsDebounced])%list)
  ∧ (controls s !! id = None → listener id rgba s = (s, Some tt))
  ∧ (if includes id "color-picker" then on_input id s
     else on_change id rgba s) = (s, Some tt).
Proof.
  intros Hin Htl. split_and!.
  - intros element Hctl value. subst value.
    rewrite (listener_runs_onInputChange id key rgba element s Hin Hctl).
    set (rgba' := if includes id "color-picker" then rgba else JNull).
    destruct (onInputChange_spec id element key rgba' s tl Htl)
      as (s' & Hrun & Ht & _ & Hc).
    pose proof (onInputChange_calls id element key rgba' s tl Htl) as Hcalls.
    rewrite Hrun in Hcalls. cbn [fst] in Hcalls.
    exists s'. split_and!; try done.
    + intros k Hk. by rewrite lookup_insert_ne.
    + by apply issued_app.
  - intros Hnone. unfold listener.
    destruct (includes id "color-picker");
      unfold on_change, on_input, bind, get; by rewrite Hnone.
  - unfold on_change, on_input, bind, get.
    destruct (includes id "color-picker") eqn:Hcp;
      destruct (controls s !! id); by rewrite ?Hcp.
Qed.

(** ** The text of a legend row *)

(** X20: the text a legend row shows is the text of its entry up to the
    first separator.  For a non-empty separator, [split_first] returns
    the whole string when the separator does not occur in it, and
    otherwise the part before an occurrence of the separator; the
    separator does not occur in the result, and the occurrence is the
    first one: the result is a prefix of whatever precedes any occurrence
    of the separator. *)
Theorem split_first_spec (sep s : string) :
  sep ≠ EmptyString →
  (includes s sep = false → split_first sep s = s)
  ∧ (includes s sep = true →
       ∃ rest, s = split_first sep s +:+ sep +:+ rest)
  ∧ includes (split_first sep s) sep = false
  ∧ (∀ pre rest, s = pre +:+ sep +:+ rest →
       ∃ more, pre = split_first sep s +:+ more).
Proof.
  intros Hsep. destruct (split_first_cut sep s Hsep) as (H1 & H2 & H3).
  split_and!; try done. apply split_first_earliest.
Qed.

(** ** The [render] listener *)

Lemma on_render_after_first settings cy r :
  hasSetOrientation r = true → (on_render settings cy r).1 = r.
Proof. unfold on_render. by intros ->. Qed.

Lemma render_run_after_first events cy : ∀ r,
  hasSetOrientation r = true → render_run events cy r = r.
Proof.
  unfold render_run. induction events as [|st events IH]; intros r Hr;
    [done|].
  cbn [foldl]. rewrite on_render_after_first by done. by apply IH.
Qed.

(** X21: the [render] listener acts on the first [render] event only.
    On that event it sets the orientation once and, if [lockNodes] is
    truthy in the settings of that moment, locks every node of the graph,
    in order; if the settings object is missing it throws after setting
    the orientation, and the flag stays set.  Every later [render] event
    changes nothing, whatever the settings have become: a [lockNodes]
    switched on after the first render locks no node. *)
Theorem render_listener_acts_once (first : option Settings)
    (later : list (option Settings)) (cy : Cy) (r : RenderClosure) :
  hasSetOrientation r = false →
  let after := render_run (first :: later) cy r in
  hasSetOrientation after = true
  ∧ orientation_calls after = S (orientation_calls r)
  ∧ lock_calls after =
      (lock_calls r
       ++ (if lockNodes_on first then n_id <$> cy_nodes cy else []))%list
  ∧ ((on_render first cy r).2 = None ↔ first = None)
  ∧ render_run later cy after = after.
Proof.
  intros Hr after.
  assert (after = (on_render first cy r).1) as Hafter.
  { subst after. unfold render_run. cbn [foldl].
    apply render_run_after_first. unfold on_render. rewrite Hr. cbn [negb].
    destruct first as [tl|]; [|done].
    by destruct (truthy (default JUndefined (tl !! "lockNodes"))). }
  assert (hasSetOrientation after = true) as Hset.
  { rewrite Hafter. unfold on_render. rewrite Hr. cbn [negb].
    destruct first as [tl|]; [|done].
    by destruct (truthy (default JUndefined (tl !! "lockNodes"))). }
  split_and!.
  - done.
  - rewrite Hafter. unfold on_render. rewrite Hr. cbn [negb].
    destruct first as [tl|]; [|done].
    by destruct (truthy (default JUndefined (tl !! "lockNodes"))).
  - rewrite Hafter. unfold on_render, lockNodes_on. rewrite Hr. cbn [negb].
    destruct first as [tl|]; [|by rewrite app_nil_r].
    destruct (truthy (default JUndefined (tl !! "lockNodes")));
      [done | by rewrite app_nil_r].
  - unfold on_render. rewrite Hr. cbn [negb].
    destruct first as [tl|]; [|done].
    by destruct (truthy (default JUndefined (tl !! "lockNodes"))).
  - by apply render_run_after_first.
Qed.

(** ** What a rebuild stores *)

(** X22: a rebuild stores what the collaborators deliver.  For a
    character context that differs from the stored one, with the
    character found, [fetchData] resolving for its avatar and
    [prepareData] resolving for the payload, the call returns [true] and
    the timeline data is what [prepareData] returned.  For a group
    context (no character, a truthy [groupId]) the data is what
    [prepareData] returned for the chats, in their order, of the first
    group with that id, each chat being logged first.  In both cases the
    layout holds the four spacing settings of that moment. *)
Theorem rebuild_stores_prepared_data (context : Context) (s : State)
    (tl : Settings) (data : list Element) :
  context_differs s context →
  timeline s = Some tl →
  (∀ character payload,
     truthy (characterId context) = true →
     characters context !! to_property_key (characterId context)
       = Some character →
     fetchData (avatar character) = Some payload →
     prepareData (data_fetched payload) false = Some data →
     ∃ s',
       updateTimelineDataIfNeeded context s = (s', Some true)
       ∧ lastTimelineData s' = Some data
       ∧ layout s' =
           layout_dagre (settings_get tl "nodeSeparation")
             (settings_get tl "edgeSeparation")
             (settings_get tl "rankSeparation")
             (settings_get tl "spacingFactor")
       ∧ issued s s' =
           [await_fetchData (avatar character); await_prepareData false;
            console_log "Timeline data updated"])
  ∧ (∀ group,
       truthy (characterId context) = false →
       truthy (groupId context) = true →
       List.find (λ group, strict_eq (g_id group) (groupId context))
         (groups context) = Some group →
       prepareData (data_object (g_chats group)) true = Some data →
       ∃ s',
         updateTimelineDataIfNeeded context s = (s', Some true)
         ∧ lastTimelineData s' = Some data
         ∧ layout s' =
             layout_dagre (settings_get tl "nodeSeparation")
               (settings_get tl "edgeSeparation")
               (settings_get tl "rankSeparation")
               (settings_get tl "spacingFactor")
         ∧ issued s s' =
             ((console_log <$> g_chats group)
              ++ [await_prepareData true;
                  console_log "Timeline data updated"])%list).
Proof.
  intros Hdiff Htl. apply rebuild_needed_spec in Hdiff. split.
  - intros character payload Hchar Hch Hfetch Hprep.
    assert (load_timeline_data context s =
              (set_lastTimelineData (Some data)
                 (emit (await_prepareData false)
                    (emit (await_fetchData (avatar character)) s)),
               Some tt)) as Hload.
    { unfold load_timeline_data. rewrite Hchar. cbn [negb].
      unfold bind, deref, ret, call, modify. rewrite Hch. cbn beta iota.
      rewrite Hfetch. cbn beta iota. by rewrite Hprep. }
    rewrite (update_after_load context s _ tl Hdiff Hload) by done.
    eexists. split; [reflexivity|]. split_and!; try done.
    apply issued_app. cbn [calls emit set_layout set_lastContext
      set_lastTimelineData]. by rewrite <- !app_assoc.
  - intros group Hchar Hgroup Hfind Hprep.
    destruct (for_each_console_log (g_chats group) s)
      as (s1 & Hrun & Ht & Hl & Hc).
    assert (load_timeline_data context s =
              (set_lastTimelineData (Some data)
                 (emit (await_prepareData true) s1), Some tt)) as Hload.
    { unfold load_timeline_data. rewrite Hchar, Hgroup. cbn [negb].
      unfold bind at 1, deref at 1. rewrite Hfind. unfold ret at 1.
      unfold bind at 1. rewrite Hrun.
      unfold call, bind, deref, ret, modify. by rewrite Hprep. }
    rewrite (update_after_load context s _ tl Hdiff Hload)
      by (cbn [timeline set_lastTimelineData emit]; congruence).
    eexists. split; [reflexivity|]. split_and!; try done.
    apply issued_app. cbn [calls emit set_layout set_lastContext
      set_lastTimelineData]. rewrite Hc. by rewrite <- !app_assoc.
Qed.


End Properties.

(** * The properties at the worked examples *)

#[local] Existing Instance demo_host.

(** C1, as stated, fails on the root node: it belongs to no chat session,
    and a tap on it asks for navigation all the same. *)
Lemma tap_on_sessionless_node_navigates :
  tap_navigates n_root initial_state ∧ ¬ single_session n_root.
Proof.
  split.
  - exists None, 4. vm_compute. constructor.
  - intros (session & Hs). discriminate Hs.
Qed.

(** C4, as stated, fails on the example graph: the edge of colour
    [#ff0000] carries the [bookmarkName] [Bookmark - 1], and its row is
    labelled [Bookmark]; no row shows [Bookmark - 1]. *)
Lemma createLegend_cuts_label_at_separator :
  mkEdge (Some "#ff0000") (Some "Bookmark - 1") ∈ cy_edges demo_cy
  ∧ ∃ s' items,
      createLegend demo_cy demo_page = (s', Some tt)
      ∧ legendDiv s' = Some items
      ∧ li_text <$> items = ["Alice"; "Bob"; "Path of #555"; "Bookmark"]
      ∧ (li_selector <$> items) !! 3%nat = Some (edge_selector "#ff0000")
      ∧ ¬ ∃ row, row ∈ items ∧ li_text row = "Bookmark - 1".
Proof.
  split; [by apply list_elem_of_further, list_elem_of_here|].
  eexists _, _. split; [vm_compute; reflexivity|].
  split; [reflexivity|]. split; [reflexivity|]. split; [reflexivity|].
  intros (row & Hrow & Htext).
  repeat (apply elem_of_cons in Hrow as [->|Hrow]; [discriminate Htext|]).
  by apply elem_of_nil in Hrow.
Qed.

Lemma createLegend_regenerates_witness :
  legendDiv demo_page = Some []
  ∧ ∃ s' nodes edges,
      createLegend demo_cy demo_page = (s', Some tt)
      ∧ first_occurrences node_key (cy_nodes demo_cy) nodes
      ∧ first_occurrences edge_key (cy_edges demo_cy) edges
      ∧ legendDiv s' =
          Some (((λ n, item_of circle (node_entry n)) <$> nodes)
                ++ ((λ e, item_of line (edge_entry e)) <$> edges))%list
      ∧ (∀ node, node ∈ nodes →
           ∃ name,
             n_name node = Some name ∧ name ≠ EmptyString
             ∧ let row := item_of circle (node_entry node) in
               li_selector row = node_selector name
               ∧ li_symbol row = symbol_circle (background_color node)
               ∧ li_text row = split_first " - " name
               ∧ cut_at_first " - " name (li_text row)
               ∧ li_active row = false)
      ∧ (∀ edge, edge ∈ edges →
           ∃ color label,
             e_color edge = Some color ∧ color ≠ EmptyString
             ∧ label =
                 match e_bookmarkName edge with
                 | Some b =>
                     if decide (b = EmptyString) then "Path of " +:+ color
                     else b
                 | None => "Path of " +:+ color
                 end
             ∧ let row := item_of line (edge_entry edge) in
               li_selector row = edge_selector color
               ∧ li_symbol row =
                   symbol_line ("3px solid " +:+ color) "5px" "25px"
               ∧ li_text row = split_first " - " label
               ∧ cut_at_first " - " label (li_text row)
               ∧ li_active row = false)
      ∧ s' = set_legendDiv (legendDiv s') demo_page.
Proof.
  split; [reflexivity|].
  apply (createLegend_regenerates demo_cy demo_page []).
  reflexivity.
Defined.

Lemma demo_page_consistent : lock_consistent demo_page.
Proof.
  split.
  - intros sel Hsel. discriminate Hsel.
  - intros items Hitems. injection Hitems as <-. split_and!.
    + constructor.
    + intros it Hit. inversion Hit.
    + intros it Hit. inversion Hit.
Defined.

Lemma legend_click_toggles_lock_witness :
  lock_consistent demo_page
  ∧ let s :=
      legend_run
        [ev_createLegend demo_cy; ev_click 0; ev_mouseover 1; ev_click 1;
         ev_search "bob"; ev_mouseout 1]
        demo_page in
    lock_consistent s
    ∧ at_most_one_active s
    ∧ (∀ i it, legend_item i s = Some it →
         currentlyHighlighted s = Some (li_selector it) →
         let s' := legend_click i s in
         currentlyHighlighted s' = None
         ∧ issued s s' = [restoreElements]
         ∧ ∀ j b, legend_item j s' = Some b → li_active b = false)
    ∧ (∀ i it prev, legend_item i s = Some it →
         currentlyHighlighted s = Some prev → prev ≠ li_selector it →
         let s' := legend_click i s in
         currentlyHighlighted s' = Some (li_selector it)
         ∧ issued s s' = [restoreElements; highlightElements (li_selector it)]
         ∧ ∀ j b, legend_item j s' = Some b → (li_active b = true ↔ j = i))
    ∧ (∀ i it, legend_item i s = Some it →
         currentlyHighlighted s = None →
         let s' := legend_click i s in
         currentlyHighlighted s' = Some (li_selector it)
         ∧ issued s s' = [highlightElements (li_selector it)]
         ∧ ∀ j b, legend_item j s' = Some b → (li_active b = true ↔ j = i)).
Proof.
  split; [exact demo_page_consistent|].
  apply (legend_click_toggles_lock demo_page).
  exact demo_page_consistent.
Defined.

Lemma legend_hover_previews_unless_locked_witness :
  lock_consistent demo_locked
  ∧ legend_item 1 demo_locked = Some demo_item
  ∧ (currentlyHighlighted demo_locked ≠ Some (li_selector demo_item) →
       legend_mouseover 1 demo_locked =
         emit (highlightElements (li_selector demo_item)) demo_locked
       ∧ legend_mouseout 1 demo_locked = emit restoreElements demo_locked
       ∧ legend_mouseout 1 (legend_mouseover 1 demo_locked) =
           emit restoreElements
             (emit (highlightElements (li_selector demo_item)) demo_locked))
  ∧ (currentlyHighlighted demo_locked = Some (li_selector demo_item) →
       legend_mouseover 1 demo_locked = demo_locked
       ∧ legend_mouseout 1 demo_locked = demo_locked).
Proof.
  assert (lock_consistent demo_locked) as Hinv.
  { apply lock_consistent_run. exact demo_page_consistent. }
  assert (legend_item 1 demo_locked = Some demo_item) as Hitem
    by (vm_compute; reflexivity).
  split; [exact Hinv|]. split; [exact Hitem|].
  exact (legend_hover_previews_unless_locked demo_locked 1 demo_item
           Hinv Hitem).
Defined.

(** The query [ALI] is handed on as [ali] and matches the two nodes named
    Alice; [KENOBI] matches the message of Bob's node. *)
Lemma search_input_highlights_matches_witness :
  transparent_search demo_page = Some EmptyString
  ∧ (∃ s' query,
       search_input "ALI" demo_page = (s', Some tt)
       ∧ issued demo_page s' = [highlightNodesByQuery query]
       ∧ in_small_letters "ALI" query
       ∧ transparent_search s' = Some "ALI"
       ∧ currentlyHighlighted s' = currentlyHighlighted demo_page
       ∧ legendDiv s' = legendDiv demo_page
       ∧ ("ALI" = EmptyString → highlightNodesByQuery_spec demo_cy query = [])
       ∧ ("ALI" ≠ EmptyString →
            sublist (highlightNodesByQuery_spec demo_cy query)
              (cy_nodes demo_cy)
            ∧ ∀ node,
                node ∈ highlightNodesByQuery_spec demo_cy query ↔
                node ∈ cy_nodes demo_cy
                ∧ (ci_contains (n_name node) "ALI"
                   ∨ ci_contains (n_msg node) "ALI")))
  ∧ issued demo_page (search_input "ALI" demo_page).1
    = [highlightNodesByQuery "ali"]
  ∧ highlightNodesByQuery_spec demo_cy "ali" = [n_a; n_c]
  ∧ issued demo_page (search_input "KENOBI" demo_page).1
    = [highlightNodesByQuery "kenobi"]
  ∧ highlightNodesByQuery_spec demo_cy "kenobi" = [n_b].
Proof.
  split; [reflexivity|]. split.
  - apply (search_input_highlights_matches demo_cy demo_page "ALI"
             EmptyString).
    reflexivity.
  - vm_compute. split_and!; reflexivity.
Defined.

Lemma render_aborts_without_container_witness :
  myDiagramDiv initial_state = false
  ∧ initializeCytoscape (Some [group_nodes n_a]) initial_state =
      (emit (console_error missing_container_message) initial_state,
       Some None)
  ∧ Forall (λ c, builds_or_registers c = false)
      (issued initial_state
         (renderCytoscapeDiagram (Some [group_nodes n_a]) initial_state).1)
  ∧ (∃ log,
       (renderCytoscapeDiagram (Some [group_nodes n_a]) initial_state).1 =
         mkState (timeline initial_state)
           (currentlyHighlighted initial_state) (lastContext initial_state)
           (layout initial_state) (lastTimelineData initial_state)
           (myDiagramDiv initial_state) (legendDiv initial_state)
           (transparent_search initial_state) (controls initial_state)
           (showTimeout initial_state) (timers initial_state)
           (next_timer initial_state) (tippies initial_state) log)
  ∧ (setupStylesAndData (Some [group_nodes n_a]) = true →
       (renderCytoscapeDiagram (Some [group_nodes n_a]) initial_state).2
         = Some tt
       ∧ issued initial_state
           (renderCytoscapeDiagram (Some [group_nodes n_a]) initial_state).1 =
           [call_setupStylesAndData;
            console_error missing_container_message]).
Proof.
  split; [reflexivity|].
  apply (render_aborts_without_container (Some [group_nodes n_a])
           initial_state).
  reflexivity.
Defined.

Lemma pointer_out_cancels_pending_tooltip_witness :
  timers_fresh initial_state
  ∧ Forall (quiet 1) [ev_timer 7; ev_node_mouseout n_b]
  ∧ let hovered := node_mouseover n_a initial_state in
    let gone :=
      tooltip_run
        (ev_node_mouseover n_a
           :: [ev_timer 7; ev_node_mouseout n_b] ++ [ev_node_mouseout n_a])
        initial_state in
    let after :=
      tooltip_run [ev_node_mouseover n_b; ev_timer 1; ev_timer 2] gone in
    showTimeout hovered = Some 1
    ∧ pending 1 hovered = Some (n_a, tooltip_content n_a)
    ∧ pending 1 gone = None
    ∧ pending 1 after = None
    ∧ timer_fire 1 after = after.
Proof.
  assert (timers_fresh initial_state) as Hfresh.
  { split; [reflexivity|]. intros t Ht. inversion Ht. }
  assert (Forall (quiet 1) [ev_timer 7; ev_node_mouseout n_b]) as Hquiet.
  { repeat constructor. simpl. lia. }
  split; [exact Hfresh|]. split; [exact Hquiet|].
  exact (pointer_out_cancels_pending_tooltip initial_state n_a n_a
           [ev_timer 7; ev_node_mouseout n_b]
           [ev_node_mouseover n_b; ev_timer 1; ev_timer 2] Hfresh Hquiet).
Defined.


(** ** The script evaluated *)

(** A tap on a node of one session navigates to it; on a node of two
    sessions it only closes the modal. *)
Example tap_examples :
  calls (on_tap n_a initial_state).1
    = [navigateToMessage (Some "chat1") 1; closeModal]
  ∧ calls (on_tap n_b initial_state).1 = [closeModal].
Proof. split; reflexivity. Qed.

(** The legend of the example graph: Alice once, Bob, then one row per
    colour; the row of the bookmark shows its label up to the first
    [" - "]. *)
Example legend_example :
  (λ it, (li_selector it, li_text it))
    <$> default [] (legendDiv (createLegend demo_cy demo_page).1)
  = [ (node_selector "Alice", "Alice");
      (node_selector "Bob", "Bob");
      (edge_selector "#555", "Path of #555");
      (edge_selector "#ff0000", "Bookmark") ].
Proof. vm_compute. reflexivity. Qed.

(** The first activation for a character rebuilds, the second does
    not. *)
Example rebuild_twice_example :
  let first := updateTimelineDataIfNeeded demo_context demo_page in
  first.2 = Some true
  ∧ issued demo_page first.1
    = [await_fetchData (JStr "alice.png"); await_prepareData false;
       console_log "Timeline data updated"]
  ∧ updateTimelineDataIfNeeded demo_context first.1 = (first.1, Some false).
Proof. vm_compute. split_and!; reflexivity. Qed.

(** On a page that has none of the settings controls, loading settings
    that hold a node width of 40 keeps it and fills in the fourteen other
    defaults. *)
Example loadSettings_example :
  let loaded :=
    loadSettings (set_timeline (Some {[ "nodeWidth" := JNum 40 ]}) demo_page)
  in
  loaded.2 = Some tt
  ∧ timeline loaded.1
    = Some (<["nodeWidth" := JNum 40]> (list_to_map defaultSettings)).
Proof. vm_compute. split; reflexivity. Qed.

(** ** Further properties at the worked examples *)

Lemma initial_timers_fresh : timers_fresh initial_state.
Proof. split; [reflexivity|]. intros t Ht. inversion Ht. Defined.

Lemma tooltip_shown_then_hidden_witness :
  timers_fresh initial_state
  ∧ let t := next_timer initial_state in
    let shown := timer_fire t (node_mouseover n_a initial_state) in
    let hidden := node_mouseout n_a shown in
    tippies shown !! n_id n_a = Some (mkTippy (tooltip_content n_a) true)
    ∧ pending t shown = None
    ∧ tippies hidden !! n_id n_a = Some (mkTippy (tooltip_content n_a) false)
    ∧ timers hidden = timers initial_state
    ∧ calls hidden = calls initial_state.
Proof.
  split; [exact initial_timers_fresh|].
  exact (tooltip_shown_then_hidden initial_state n_a initial_timers_fresh).
Defined.

Lemma second_hover_leaves_first_timer_pending_witness :
  timers_fresh initial_state
  ∧ let t1 := next_timer initial_state in
    let t2 := t1 + 1 in
    let out :=
      node_mouseout n_a (node_mouseover n_b (node_mouseover n_a initial_state))
    in
    pending t2 out = None
    ∧ pending t1 out = Some (n_a, tooltip_content n_a)
    ∧ tippies (timer_fire t1 out) !! n_id n_a
      = Some (mkTippy (tooltip_content n_a) true).
Proof.
  split; [exact initial_timers_fresh|].
  exact (second_hover_leaves_first_timer_pending initial_state n_a n_b n_a
           initial_timers_fresh).
Defined.



Lemma legend_double_click_round_trip_witness :
  lock_consistent demo_built
  ∧ currentlyHighlighted demo_built = None
  ∧ legend_item 1 demo_built = Some demo_row
  ∧ let s2 := legend_click 1 (legend_click 1 demo_built) in
    currentlyHighlighted s2 = None
    ∧ legendDiv s2 = legendDiv demo_built
    ∧ issued demo_built s2
      = [highlightElements (li_selector demo_row); restoreElements].
Proof.
  assert (lock_consistent demo_built) as Hinv.
  { apply lock_consistent_run. exact demo_page_consistent. }
  assert (legend_item 1 demo_built = Some demo_row) as Hrow
    by (vm_compute; reflexivity).
  split; [exact Hinv|]. split; [reflexivity|]. split; [exact Hrow|].
  exact (legend_double_click_round_trip demo_built 1 demo_row Hinv eq_refl
           Hrow).
Defined.

(** On [demo_page], which has the search field and the legend container,
    the render returns with the legend of the data built and the drawers
    closed before the graph listeners are bound. *)
Lemma render_with_container_witness :
  myDiagramDiv demo_page = true
  ∧ setupStylesAndData (Some demo_data) = true
  ∧ (let result := renderCytoscapeDiagram (Some demo_data) demo_page in
     (∀ data field old,
        Some demo_data = Some data →
        transparent_search demo_page = Some field →
        legendDiv demo_page = Some old →
        result.2 = Some tt
        ∧ issued demo_page result.1 =
            (call_setupStylesAndData :: construction_calls
               ++ calls_until_ready data ++ [closeOpenDrawers]
               ++ graph_listener_calls)%list
        ∧ legendDiv result.1 =
            legendDiv (createLegend (cytoscape (Some demo_data)) demo_page).1
        ∧ (∀ it, it ∈ default [] (legendDiv result.1) → li_active it = false)
        ∧ currentlyHighlighted result.1 = currentlyHighlighted demo_page)
     ∧ (∀ data field,
          Some demo_data = Some data →
          transparent_search demo_page = Some field →
          legendDiv demo_page = None →
          result.2 = None
          ∧ issued demo_page result.1 =
              (call_setupStylesAndData :: construction_calls
                 ++ calls_until_ready data)%list
          ∧ legendDiv result.1 = None)
     ∧ (Some demo_data = None ∨ transparent_search demo_page = None →
        result.2 = None
        ∧ issued demo_page result.1 =
            (call_setupStylesAndData :: construction_calls)%list))
  ∧ (renderCytoscapeDiagram (Some demo_data) demo_page).2 = Some tt
  ∧ li_text <$> default []
      (legendDiv (renderCytoscapeDiagram (Some demo_data) demo_page).1)
    = ["alice.png"].
Proof.
  split; [reflexivity|]. split; [reflexivity|]. split.
  - exact (render_with_container (Some demo_data) demo_page eq_refl eq_refl).
  - vm_compute. split; reflexivity.
Defined.

Lemma demo_missing_context_differs :
  context_differs demo_page demo_missing_context.
Proof. left. reflexivity. Defined.

Lemma demo_missing_context_unavailable :
  ¬ data_available demo_missing_context.
Proof.
  unfold data_available. cbn [truthy characterId demo_missing_context].
  intros (character & payload & data & Hch & _).
  cbn [characters demo_missing_context] in Hch.
  rewrite lookup_empty in Hch. discriminate Hch.
Defined.

Lemma failed_rebuild_keeps_state_witness :
  context_differs demo_page demo_missing_context
  ∧ ¬ data_available demo_missing_context
  ∧ ∃ s',
      updateTimelineDataIfNeeded demo_missing_context demo_page = (s', None)
      ∧ lastContext s' = lastContext demo_page
      ∧ lastTimelineData s' = lastTimelineData demo_page
      ∧ layout s' = layout demo_page
      ∧ timeline s' = timeline demo_page
      ∧ context_differs s' demo_missing_context.
Proof.
  split; [exact demo_missing_context_differs|].
  split; [exact demo_missing_context_unavailable|].
  exact (failed_rebuild_keeps_state demo_missing_context demo_page
           demo_missing_context_differs demo_missing_context_unavailable).
Defined.

Lemma rebuild_for_empty_context_loads_nothing_witness :
  truthy (characterId demo_empty_context) = false
  ∧ truthy (groupId demo_empty_context) = false
  ∧ context_differs demo_page demo_empty_context
  ∧ timeline demo_page = Some ∅
  ∧ ∃ s',
      updateTimelineDataIfNeeded demo_empty_context demo_page
        = (s', Some true)
      ∧ lastContext s' = Some demo_empty_context
      ∧ lastTimelineData s' = lastTimelineData demo_page
      ∧ issued demo_page s' = [console_log "Timeline data updated"].
Proof.
  assert (context_differs demo_page demo_empty_context) as Hdiff
    by (left; reflexivity).
  split; [reflexivity|]. split; [reflexivity|]. split; [exact Hdiff|].
  split; [reflexivity|].
  exact (rebuild_for_empty_context_loads_nothing demo_empty_context demo_page
           ∅ eq_refl eq_refl Hdiff eq_refl).
Defined.

Lemma legend_rebuild_keeps_lock_witness :
  legendDiv demo_locked = Some (default [] (legendDiv demo_locked))
  ∧ currentlyHighlighted demo_locked = Some (node_selector "Alice")
  ∧ let s1 := (createLegend demo_cy demo_locked).1 in
    currentlyHighlighted s1 = Some (node_selector "Alice")
    ∧ (∀ i it, legend_item i s1 = Some it → li_active it = false)
    ∧ ∀ i it, legend_item i s1 = Some it →
        li_selector it = node_selector "Alice" →
        legend_mouseover i s1 = s1
        ∧ currentlyHighlighted (legend_click i s1) = None
        ∧ issued s1 (legend_click i s1) = [restoreElements].
Proof.
  assert (legendDiv demo_locked = Some (default [] (legendDiv demo_locked)))
    as Hold by (vm_compute; reflexivity).
  assert (currentlyHighlighted demo_locked = Some (node_selector "Alice"))
    as Hcur by (vm_compute; reflexivity).
  split; [exact Hold|]. split; [exact Hcur|].
  exact (legend_rebuild_keeps_lock demo_cy demo_locked _ _ Hold Hcur).
Defined.

Lemma demo_width_mapped : ("tl_node_width", "nodeWidth") ∈ idsToSettingsMap.
Proof. apply list_elem_of_here. Defined.

Lemma listener_writes_its_setting_witness :
  ("tl_node_width", "nodeWidth") ∈ idsToSettingsMap
  ∧ timeline demo_settings_page = Some ∅
  ∧ (∀ element, controls demo_settings_page !! "tl_node_width" = Some element →
       let value :=
         input_value element
           (if includes "tl_node_width" "color-picker" then JNull else JNull)
       in
       ∃ s',
         listener "tl_node_width" JNull demo_settings_page = (s', Some tt)
         ∧ timeline s' = Some (<["nodeWidth" := value]> ∅)
         ∧ (∀ k, k ≠ "nodeWidth" →
              <["nodeWidth" := value]> (∅ : Settings) !! k
              = (∅ : Settings) !! k)
         ∧ controls s' = controls demo_settings_page
         ∧ issued demo_settings_page s' =
             ((if isNaN value then []
               else [set_label_text ("tl_node_width" +:+ "_value")
                       (Math_round value)])
              ++ [saveSettingsDebounced])%list)
  ∧ (controls demo_settings_page !! "tl_node_width" = None →
     listener "tl_node_width" JNull demo_settings_page
     = (demo_settings_page, Some tt))
  ∧ (if includes "tl_node_width" "color-picker"
     then on_input "tl_node_width" demo_settings_page
     else on_change "tl_node_width" JNull demo_settings_page)
    = (demo_settings_page, Some tt).
Proof.
  split; [exact demo_width_mapped|]. split; [reflexivity|].
  exact (listener_writes_its_setting "tl_node_width" "nodeWidth" JNull
           demo_settings_page ∅ demo_width_mapped eq_refl).
Defined.

Lemma split_first_spec_witness :
  " - " ≠ EmptyString
  ∧ (includes "Bookmark - 1" " - " = false →
       split_first " - " "Bookmark - 1" = "Bookmark - 1")
  ∧ (includes "Bookmark - 1" " - " = true →
       ∃ rest,
         "Bookmark - 1" = split_first " - " "Bookmark - 1" +:+ " - " +:+ rest)
  ∧ includes (split_first " - " "Bookmark - 1") " - " = false
  ∧ (∀ pre rest, "Bookmark - 1" = pre +:+ " - " +:+ rest →
       ∃ more, pre = split_first " - " "Bookmark - 1" +:+ more).
Proof.
  assert (" - " ≠ EmptyString) as Hsep by discriminate.
  split; [exact Hsep|].
  exact (split_first_spec " - " "Bookmark - 1" Hsep).
Defined.

Lemma render_listener_acts_once_witness :
  hasSetOrientation (mkRenderClosure false 0 []) = false
  ∧ let first : option Settings := Some {[ "lockNodes" := JBool true ]} in
    let later : list (option Settings) :=
      [Some {[ "lockNodes" := JBool false ]}; None] in
    let after := render_run (first :: later) demo_cy
                   (mkRenderClosure false 0 []) in
    hasSetOrientation after = true
    ∧ orientation_calls after = S (orientation_calls (mkRenderClosure false 0 []))
    ∧ lock_calls after =
        (lock_calls (mkRenderClosure false 0 [])
         ++ (if lockNodes_on first then n_id <$> cy_nodes demo_cy else []))%list
    ∧ ((on_render first demo_cy (mkRenderClosure false 0 [])).2 = None
       ↔ first = None)
    ∧ render_run later demo_cy after = after.
Proof.
  split; [reflexivity|].
  exact (render_listener_acts_once (Some {[ "lockNodes" := JBool true ]})
           [Some {[ "lockNodes" := JBool false ]}; None] demo_cy
           (mkRenderClosure false 0 []) eq_refl).
Defined.

Lemma demo_context_differs : context_differs demo_page demo_context.
Proof. left. reflexivity. Defined.

Lemma rebuild_stores_prepared_data_witness :
  context_differs demo_page demo_context
  ∧ timeline demo_page = Some ∅
  ∧ (∀ character payload,
       truthy (characterId demo_context) = true →
       characters demo_context !! to_property_key (characterId demo_context)
         = Some character →
       fetchData (avatar character) = Some payload →
       prepareData (data_fetched payload) false = Some demo_data →
       ∃ s',
         updateTimelineDataIfNeeded demo_context demo_page = (s', Some true)
         ∧ lastTimelineData s' = Some demo_data
         ∧ layout s' =
             layout_dagre (settings_get ∅ "nodeSeparation")
               (settings_get ∅ "edgeSeparation")
               (settings_get ∅ "rankSeparation")
               (settings_get ∅ "spacingFactor")
         ∧ issued demo_page s' =
             [await_fetchData (avatar character); await_prepareData false;
              console_log "Timeline data updated"])
  ∧ (∀ group,
       truthy (characterId demo_context) = false →
       truthy (groupId demo_context) = true →
       List.find (λ group, strict_eq (g_id group) (groupId demo_context))
         (groups demo_context) = Some group →
       prepareData (data_object (g_chats group)) true = Some demo_data →
       ∃ s',
         updateTimelineDataIfNeeded demo_context demo_page = (s', Some true)
         ∧ lastTimelineData s' = Some demo_data
         ∧ layout s' =
             layout_dagre (settings_get ∅ "nodeSeparation")
               (settings_get ∅ "edgeSeparation")
               (settings_get ∅ "rankSeparation")
               (settings_get ∅ "spacingFactor")
         ∧ issued demo_page s' =
             ((console_log <$> g_chats group)
              ++ [await_prepareData true;
                  console_log "Timeline data updated"])%list).
Proof.
  split; [exact demo_context_differs|]. split; [reflexivity|].
  exact (rebuild_stores_prepared_data demo_context demo_page ∅ demo_data
           demo_context_differs eq_refl).
Defined.



(** ** The group switch and the reload of the settings *)

Lemma demo_group1_differs : context_differs demo_page demo_group1.
Proof. left. reflexivity. Defined.

Lemma demo_groups_differ : groupId demo_group2 ≠ groupId demo_group1.
Proof. discriminate. Defined.

(** The timeline of the first group is built; the activation for the
    second group reports no rebuild and the data is still that of the
    first group, not what would be prepared for the second. *)
Lemma group_switch_is_not_rebuilt_witness :
  timeline demo_page = Some ∅
  ∧ context_differs demo_page demo_group1
  ∧ truthy (characterId demo_group1) = false
  ∧ truthy (groupId demo_group1) = true
  ∧ List.find (λ g, strict_eq (g_id g) (groupId demo_group1))
      (groups demo_group1) = Some (mkGroup (JStr "g1") ["g1-chat"])
  ∧ prepareData (data_object ["g1-chat"]) true = Some demo_group1_data
  ∧ characterId demo_group2 = characterId demo_group1
  ∧ groupId demo_group2 ≠ groupId demo_group1
  ∧ (∃ s1,
       updateTimelineDataIfNeeded demo_group1 demo_page = (s1, Some true)
       ∧ lastContext s1 = Some demo_group1
       ∧ lastTimelineData s1 = Some demo_group1_data
       ∧ demo_group2 ≠ demo_group1
       ∧ updateTimelineDataIfNeeded demo_group2 s1 = (s1, Some false))
  ∧ prepareData (data_object ["g2-chat-a"; "g2-chat-b"]) true
    ≠ Some demo_group1_data.
Proof.
  split; [reflexivity|]. split; [exact demo_group1_differs|].
  split; [reflexivity|]. split; [reflexivity|]. split; [reflexivity|].
  split; [reflexivity|]. split; [reflexivity|].
  split; [exact demo_groups_differ|]. split.
  - exact (group_switch_is_not_rebuilt demo_group1 demo_group2 demo_page ∅
             (mkGroup (JStr "g1") ["g1-chat"]) demo_group1_data
             eq_refl demo_group1_differs eq_refl eq_refl eq_refl eq_refl
             eq_refl demo_groups_differ).
  - discriminate.
Defined.

(** The eleven settings that the refresh of the controls stores again. *)
Example written_back_settings :
  written_back ui_refreshes
  = [ "nodeWidth"; "nodeHeight"; "nodeSeparation"; "edgeSeparation";
      "rankSeparation"; "spacingFactor"; "nodeShape"; "curveStyle";
      "avatarAsRoot"; "useChatColors"; "lockNodes" ].
Proof. reflexivity. Qed.

(** C8, as stated, fails on a page that has the width and the spacing
    controls: the stored node width 40 is present before the load and is
    the string [40] after it, and the spacing factor, which was missing,
    is not its default 1 but the string [1].  The node height, whose
    control the page does not have, gets its default. *)
Lemma loadSettings_rewrites_settings_of_controls :
  default ∅ (timeline demo_stored_page) !! "nodeWidth" = Some (JNum 40)
  ∧ default ∅ (timeline demo_stored_page) !! "spacingFactor" = None
  ∧ (list_to_map defaultSettings : Settings) !! "spacingFactor"
    = Some (JNum 1)
  ∧ ∃ s2 m2,
      loadSettings demo_stored_page = (s2, Some tt)
      ∧ timeline s2 = Some m2
      ∧ m2 !! "nodeWidth" = Some (JStr "40")
      ∧ m2 !! "nodeWidth" ≠ Some (JNum 40)
      ∧ m2 !! "spacingFactor" = Some (JStr "1")
      ∧ m2 !! "spacingFactor" ≠ Some (JNum 1)
      ∧ m2 !! "nodeHeight" = Some (JNum 25).
Proof.
  split; [reflexivity|]. split; [reflexivity|]. split; [reflexivity|].
  eexists _, _. split; [vm_compute; reflexivity|].
  split; [reflexivity|]. split; [reflexivity|]. split; [discriminate|].
  split; [reflexivity|]. split; [discriminate|]. reflexivity.
Qed.

(** [toLowerCase] beyond ASCII: the code units of the word ECOLE with an
    acute accent on its first letter (201) are lowered to those of the
    word in small letters (233); the multiplication sign (215) and the
    sharp s (223) stay. *)
Example toLowerCase_latin1 :
  toLowerCase (String (ascii_of_N 201) "COLE")
    = String (ascii_of_N 233) "cole"
  ∧ toLowerCase (String (ascii_of_N 215) (String (ascii_of_N 223) "Z"))
    = String (ascii_of_N 215) (String (ascii_of_N 223) "z").
Proof. split; reflexivity. Qed.

(** The coercions of [isNaN] and [Math.round]: a numeric string is a
    number, a string with a unit is not. *)
Example isNaN_examples :
  isNaN (JStr "30") = false ∧ Math_round (JStr "30") = JNum 30
  ∧ isNaN (JStr "2.5") = false ∧ Math_round (JStr "2.5") = JNum 3
  ∧ isNaN (JStr "-2.5") = false ∧ Math_round (JStr "-2.5") = JNum (-2)
  ∧ isNaN (JStr EmptyString) = false
  ∧ isNaN (JStr "12px") = true
  ∧ isNaN (JStr "ellipse") = true
  ∧ isNaN (JBool true) = false ∧ Math_round (JBool true) = JNum 1
  ∧ isNaN JNull = false
  ∧ isNaN JUndefined = true.
Proof. vm_compute. split_and!; reflexivity. Qed.

(** A change of the width control to [30] stores the string, shows the
    number in the label, forgets the stored context and saves. *)
Example onInputChange_example :
  let changed :=
    onInputChange "tl_node_width" demo_control "nodeWidth" JNull demo_page in
  changed.2 = Some tt
  ∧ timeline changed.1 = Some {[ "nodeWidth" := JStr "30" ]}
  ∧ issued demo_page changed.1
    = [set_label_text "tl_node_width_value" (JNum 30); saveSettingsDebounced].
Proof. vm_compute. split_and!; reflexivity. Qed.
